(** * A shallow embedding of the [vector] rasterizer facade (vector/vector.go)

    The Go package [vector] turns path commands (MoveTo, LineTo, QuadTo,
    CubeTo, ClosePath) into a coverage mask and composites a source image
    through that mask ([Draw]).  This development embeds [vector.go]:

    - Go's fixed-width integers are [Z] with the wrap-around written out;
    - [float32] and [float64] are IEEE 754 binary32 / binary64 values, given
      by the Standard Library's executable specification [SpecFloat]
      (round to nearest, ties to even), so every definition computes; each
      operation rounds on its own (Go allows an implementation to fuse
      [x*y + z]; the amd64 compiler at its default level does not);
    - a Go slice is a backing array together with a length;
    - run-time panics (slice bounds, index out of range, an allocation
      beyond the runtime's limit) are the [Panic] outcome of a [result];
    - the path commands run in a small state monad that also logs the
      successive [LineTo] calls.

    The line-segment kernels ([fixedLineTo], [floatingLineTo]) and the
    accumulators ([fixedAccumulateMask], ...) live in other files of the
    package (raster_fixed.go, raster_floating.go, acc_*.go).  They enter the
    development through the class [Kernels]. *)

From Stdlib Require Import ZArith List Lia Bool.
From Stdlib Require Import Floats.SpecFloat.
Import ListNotations.
Local Open Scope Z_scope.

(* ================================================================== *)
(** * Machine integers *)

(** Reduction of a mathematical integer to an unsigned [bits]-bit word. *)
Definition wrap_unsigned (bits x : Z) : Z := x mod 2 ^ bits.

(** Reduction to a two's complement [bits]-bit word. *)
Definition wrap_signed (bits x : Z) : Z :=
  (x + 2 ^ (bits - 1)) mod 2 ^ bits - 2 ^ (bits - 1).

(** Go's [int] and [uint] are taken at their 64-bit width (GOARCH=amd64,
    the platform the package's own comments refer to). *)
Definition to_int (x : Z) : Z := wrap_signed 64 x.
Definition to_uint (x : Z) : Z := wrap_unsigned 64 x.
Definition to_uint32 (x : Z) : Z := wrap_unsigned 32 x.
Definition to_uint16 (x : Z) : Z := wrap_unsigned 16 x.
Definition to_uint8 (x : Z) : Z := wrap_unsigned 8 x.

Definition min_int : Z := - 2 ^ 63.
Definition max_int : Z := 2 ^ 63 - 1.

Definition int_add (x y : Z) : Z := to_int (x + y).
Definition int_sub (x y : Z) : Z := to_int (x - y).
Definition int_mul (x y : Z) : Z := to_int (x * y).

Definition u32_add (x y : Z) : Z := to_uint32 (x + y).
Definition u32_sub (x y : Z) : Z := to_uint32 (x - y).
Definition u32_mul (x y : Z) : Z := to_uint32 (x * y).
(** Unsigned division; the divisors of [vector.go] are the constant 0xffff. *)
Definition u32_div (x y : Z) : Z := x / y.
Definition u32_shr (x k : Z) : Z := Z.shiftr x k.

Definition is_int32 (x : Z) : Prop := - 2 ^ 31 <= x < 2 ^ 31.
Definition is_uint16 (x : Z) : Prop := 0 <= x <= 65535.

(* ================================================================== *)
(** * Floating point: binary32 and binary64 *)

Definition float32 : Type := spec_float.
Definition float64 : Type := spec_float.

Definition f32_add : float32 -> float32 -> float32 := SFadd 24 128.
Definition f32_sub : float32 -> float32 -> float32 := SFsub 24 128.
Definition f32_mul : float32 -> float32 -> float32 := SFmul 24 128.
Definition f32_div : float32 -> float32 -> float32 := SFdiv 24 128.
(** [x < y] and [x >= y] on floats; both are false when an operand is NaN. *)
Definition f32_lt (x y : float32) : bool := SFltb x y.
Definition f32_ge (x y : float32) : bool := SFleb y x.

Definition f64_mul : float64 -> float64 -> float64 := SFmul 53 1024.
Definition f64_sqrt : float64 -> float64 := SFsqrt 53 1024.

(** Conversion of an integer to the nearest float: [float32(n)]. *)
Definition f32_of_int (n : Z) : float32 := binary_normalize 24 128 n 0 false.
Definition f64_of_int (n : Z) : float64 := binary_normalize 53 1024 n 0 false.

(** The zero value of [float32], and [float32(0)]. *)
Definition f32_zero : float32 := S754_zero false.

(** [float64(x)] for a [float32] [x]: exact; the mantissa is brought to the
    canonical binary64 form. *)
Definition f32_to_f64 (x : float32) : float64 :=
  match x with
  | S754_finite s m e => binary_normalize 53 1024 (cond_Zopp s (Zpos m)) e false
  | _ => x
  end.

(** [int(x)] for a [float64] [x]: truncation toward zero.  When the value is
    a NaN, an infinity, or out of the range of [int], Go leaves the result
    to the implementation; amd64's CVTTSD2SQ yields the least [int]. *)
Definition f64_to_int (x : float64) : Z :=
  match x with
  | S754_zero _ => 0
  | S754_finite s m e =>
      let v := cond_Zopp s (if 0 <=? e then Zpos m * 2 ^ e
                            else Zpos m / 2 ^ (- e)) in
      if (min_int <=? v) && (v <=? max_int) then v else min_int
  | _ => min_int
  end.

Definition f32_one : float32 := f32_of_int 1.
Definition f32_two : float32 := f32_of_int 2.
(** [0.333] as a [float32] constant: the nearest binary32 value,
    11173626 * 2^-25. *)
Definition f32_0_333 : float32 := f32_div (f32_of_int 333) (f32_of_int 1000).
(** [tol = 3], used at type [float64]. *)
Definition f64_tol : float64 := f64_of_int 3.

(** The binary32 value nearest to 1/3, 11184811 * 2^-25.  It lies above
    1/3 and its predecessor 11184810 * 2^-25 lies below (see
    [f32_third_brackets]), so for a binary32 [x], [x < 1/3] is
    [f32_lt x f32_third] and [x >= 1/3] is [f32_ge x f32_third]. *)
Definition f32_third : float32 := f32_div (f32_of_int 1) (f32_of_int 3).

(** Whether the real number a float stands for is below 1/3, decided in
    integer arithmetic: a positive [m * 2^e] is below 1/3 exactly when
    [e < 0] and [3 * m < 2^(-e)]. *)
Definition value_below_third (x : spec_float) : bool :=
  match x with
  | S754_zero _ => true
  | S754_infinity s => s
  | S754_nan => false
  | S754_finite true _ _ => true
  | S754_finite false m e => if 0 <=? e then false else 3 * Zpos m <? 2 ^ (- e)
  end.

Definition is_nan (x : spec_float) : bool :=
  match x with
  | S754_nan => true
  | _ => false
  end.

(* ================================================================== *)
(** * Geometry *)

(** [f32.Vec2] is [[2]float32]. *)
Definition Vec2 : Type := (float32 * float32)%type.
Definition vec2_zero : Vec2 := (f32_zero, f32_zero).

(** [image.Point] and [image.Rectangle]. *)
Record Point : Type := mkPoint { X : Z; Y : Z }.
Record Rectangle : Type := mkRect { Min : Point; Max : Point }.

Definition point_eqb (p q : Point) : bool :=
  (X p =? X q) && (Y p =? Y q).
(** [r == s] on rectangles: equality of the four coordinates. *)
Definition rect_eqb (r s : Rectangle) : bool :=
  point_eqb (Min r) (Min s) && point_eqb (Max r) (Max s).
(** [p.In(r)]. *)
Definition point_in (p : Point) (r : Rectangle) : bool :=
  (X (Min r) <=? X p) && (X p <? X (Max r)) &&
  (Y (Min r) <=? Y p) && (Y p <? Y (Max r)).


Definition lerp (t : float32) (p q : Vec2) : Vec2 :=
  (f32_add (fst p) (f32_mul t (f32_sub (fst q) (fst p))),
   f32_add (snd p) (f32_mul t (f32_sub (snd q) (snd p)))).

(** [clamp(i, width int32) uint]. *)
Definition clamp (i width : Z) : Z :=
  if i <? 0 then 0
  else if i <? width then to_uint i
  else to_uint width.

(** [devSquared]: each operation rounds to binary32, in source order. *)
Definition devSquared (a b c : Vec2) : float32 :=
  let devx := f32_add (f32_sub (fst a) (f32_mul f32_two (fst b))) (fst c) in
  let devy := f32_add (f32_sub (snd a) (f32_mul f32_two (snd b))) (snd c) in
  f32_add (f32_mul devx devx) (f32_mul devy devy).

(* ================================================================== *)
(** * Outcomes and slices *)

(** The outcome of code that may panic. *)
Inductive result (A : Type) : Type :=
  | Ok (a : A)
  | Panic.
Arguments Ok {A} a.
Arguments Panic {A}.

Definition rbind {A B : Type} (r : result A) (k : A -> result B) : result B :=
  match r with
  | Ok a => k a
  | Panic => Panic
  end.

Notation "x <-- c ;; k" := (rbind c (fun x => k))
  (at level 61, c at next level, right associativity).

(** A slice: the backing array from the slice's first element on (its
    length is the capacity) and the slice's length. *)
Record slice (T : Type) : Type := mkSlice { backing : list T; slen : nat }.
Arguments mkSlice {T} backing slen.
Arguments backing {T} s.
Arguments slen {T} s.

Definition nil_slice {T : Type} : slice T := mkSlice [] 0.
Definition cap {T : Type} (s : slice T) : Z := Z.of_nat (length (backing s)).
Definition len {T : Type} (s : slice T) : Z := Z.of_nat (slen s).
(** The elements the slice gives access to. *)
Definition elems {T : Type} (s : slice T) : list T := firstn (slen s) (backing s).

(** The largest allocation the runtime accepts, in bytes: [maxAlloc] of
    runtime/malloc.go, [1 << 48] on linux/amd64. *)
Definition maxAlloc : Z := 2 ^ 48.

(** A fresh array of [n] zero values, as a slice of length and capacity
    [n]. *)
Definition zeros {T : Type} (zero : T) (n : Z) : slice T :=
  mkSlice (repeat zero (Z.to_nat n)) (Z.to_nat n).

(** [make([]T, n)] for elements of [elemsize] bytes.  The runtime's
    [makeslice] panics ("len out of range") when [n] is negative or the
    array would take more than [maxAlloc] bytes; otherwise the array is
    allocated, all zero.  An allocation within that limit is taken to
    succeed: when the system has no memory left the runtime stops the
    program, which is not a panic of the code. *)
Definition make {T : Type} (elemsize : Z) (zero : T) (n : Z) : result (slice T) :=
  if (0 <=? n) && (elemsize * n <=? maxAlloc) then Ok (zeros zero n) else Panic.

(** [s[:n]]: panics unless [0 <= n <= cap(s)]. *)
Definition reslice {T : Type} (s : slice T) (n : Z) : result (slice T) :=
  if (0 <=? n) && (n <=? cap s) then Ok (mkSlice (backing s) (Z.to_nat n))
  else Panic.

(** [l[i] = v] on the array [l], for an index in range. *)
Fixpoint list_set {T : Type} (l : list T) (i : nat) (v : T) : list T :=
  match l, i with
  | [], _ => []
  | _ :: tl, O => v :: tl
  | hd :: tl, S i' => hd :: list_set tl i' v
  end.

(** [for i := range s { s[i] = zero }], from index [i] on, [count] rounds. *)
Fixpoint zero_loop {T : Type} (zero : T) (i count : nat) (l : list T) : list T :=
  match count with
  | O => l
  | S count' => zero_loop zero (S i) count' (list_set l i zero)
  end.

Definition zero_fill {T : Type} (zero : T) (s : slice T) : slice T :=
  mkSlice (zero_loop zero 0 (slen s) (backing s)) (slen s).

(** In-place rewriting of the elements of a slice by a kernel that sees the
    elements only. *)
Definition slice_update {T : Type} (f : list T -> list T) (s : slice T) : slice T :=
  mkSlice (f (elems s) ++ skipn (slen s) (backing s)) (length (f (elems s))).

(** [s[i]] read: panics when [i] is out of range. *)
Definition index {T : Type} (l : list T) (i : Z) : result T :=
  if (0 <=? i) && (i <? Z.of_nat (length l)) then
    match nth_error l (Z.to_nat i) with
    | Some v => Ok v
    | None => Panic
    end
  else Panic.

(** [s[i] = v] write: panics when [i] is out of range. *)
Definition store {T : Type} (l : list T) (i : Z) (v : T) : result (list T) :=
  if (0 <=? i) && (i <? Z.of_nat (length l)) then Ok (list_set l (Z.to_nat i) v)
  else Panic.

(* ================================================================== *)
(** * The rasterizer state *)

(** [draw.Op] is an [int]; [draw.Over] is its zero value. *)
Definition Over : Z := 0.
Definition Src : Z := 1.

Definition floatingPointMathThreshold : Z := 2048.

Record Rasterizer : Type := mkRasterizer {
  bufF32 : slice float32;
  bufU32 : slice Z;
  useFloatingPointMath : bool;
  size : Point;
  first : Vec2;
  pen : Vec2;
  DrawOp : Z
}.

(** The zero value [Rasterizer{}]. *)
Definition zeroRasterizer : Rasterizer :=
  mkRasterizer nil_slice nil_slice false (mkPoint 0 0) vec2_zero vec2_zero 0.

Definition set_bufF32 (s : slice float32) (z : Rasterizer) : Rasterizer :=
  mkRasterizer s (bufU32 z) (useFloatingPointMath z) (size z) (first z) (pen z) (DrawOp z).
Definition set_bufU32 (s : slice Z) (z : Rasterizer) : Rasterizer :=
  mkRasterizer (bufF32 z) s (useFloatingPointMath z) (size z) (first z) (pen z) (DrawOp z).
Definition set_useFloatingPointMath (b : bool) (z : Rasterizer) : Rasterizer :=
  mkRasterizer (bufF32 z) (bufU32 z) b (size z) (first z) (pen z) (DrawOp z).
Definition set_pen (p : Vec2) (z : Rasterizer) : Rasterizer :=
  mkRasterizer (bufF32 z) (bufU32 z) (useFloatingPointMath z) (size z) (first z) p (DrawOp z).
Definition set_DrawOp (op : Z) (z : Rasterizer) : Rasterizer :=
  mkRasterizer (bufF32 z) (bufU32 z) (useFloatingPointMath z) (size z) (first z) (pen z) op.

(** [setUseFloatingPointMath]: the selected buffer is made [w*h] long and
    zero, reusing its array when the capacity allows. *)
Definition setUseFloatingPointMath (z : Rasterizer) (b : bool) : result Rasterizer :=
  let z := set_useFloatingPointMath b z in
  let n := int_mul (X (size z)) (Y (size z)) in
  if useFloatingPointMath z then
    if cap (bufF32 z) <? n then s <-- make 4 f32_zero n ;; Ok (set_bufF32 s z)
    else s <-- reslice (bufF32 z) n ;; Ok (set_bufF32 (zero_fill f32_zero s) z)
  else
    if cap (bufU32 z) <? n then s <-- make 4 0 n ;; Ok (set_bufU32 s z)
    else s <-- reslice (bufU32 z) n ;; Ok (set_bufU32 (zero_fill 0 s) z).

Definition Reset (z : Rasterizer) (w h : Z) : result Rasterizer :=
  let z := mkRasterizer (bufF32 z) (bufU32 z) (useFloatingPointMath z)
             (mkPoint w h) vec2_zero vec2_zero Over in
  setUseFloatingPointMath z
    ((floatingPointMathThreshold <? w) || (floatingPointMathThreshold <? h)).

Definition NewRasterizer (w h : Z) : result Rasterizer :=
  Reset zeroRasterizer w h.

Definition Size (z : Rasterizer) : Point := size z.
Definition Bounds (z : Rasterizer) : Rectangle := mkRect (mkPoint 0 0) (size z).
Definition Pen (z : Rasterizer) : Vec2 := pen z.

(** What a buffer looks like after [setUseFloatingPointMath] prepared it for
    [n] samples. *)
Definition prepared {T : Type} (zero : T) (n : Z) (s : slice T) : Prop :=
  len s = n /\ elems s = repeat zero (Z.to_nat n).

(** The buffer the math mode makes active, as a list of "is zero" facts. *)
Definition active_all_zero (z : Rasterizer) : Prop :=
  if useFloatingPointMath z
  then Forall (fun v => v = f32_zero) (elems (bufF32 z))
  else Forall (fun v => v = 0) (elems (bufU32 z)).

Definition active_len (z : Rasterizer) : Z :=
  if useFloatingPointMath z then len (bufF32 z) else len (bufU32 z).

(** The active buffer is a slice of exactly [n] zero values: reading any of
    its [n] elements gives zero. *)
Definition active_prepared (z : Rasterizer) (n : Z) : Prop :=
  if useFloatingPointMath z
  then prepared f32_zero n (bufF32 z)
  else prepared 0 n (bufU32 z).

(** Whether [Reset(w, h)] allocates: the buffer of the math mode that [w]
    and [h] select has a capacity below [w*h]. *)
Definition Reset_allocates (z : Rasterizer) (w h : Z) : bool :=
  if (floatingPointMathThreshold <? w) || (floatingPointMathThreshold <? h)
  then cap (bufF32 z) <? int_mul w h
  else cap (bufU32 z) <? int_mul w h.

(* ================================================================== *)
(** * Kernels defined in other files of the package *)

(** [vector.go] calls into raster_fixed.go, raster_floating.go and the
    acc_*.go files.  What those files compute is a parameter here:

    - [fixedDeposit size a b buf] and [floatingDeposit size a b buf] are the
      elements of the area buffer after the edge from [a] to [b] has been
      deposited into [buf];
    - [fixedCoverage buf i] and [floatingCoverage buf i] are the 16-bit
      coverage that accumulation gives sample [i] of the area buffer [buf];
    - the two capability flags select the SIMD entry points. *)
Class Kernels : Type := {
  fixedDeposit : Point -> Vec2 -> Vec2 -> list Z -> list Z;
  floatingDeposit : Point -> Vec2 -> Vec2 -> list float32 -> list float32;
  fixedCoverage : list Z -> nat -> Z;
  floatingCoverage : list float32 -> nat -> Z;
  haveFixedAccumulateSIMD : bool;
  haveFloatingAccumulateSIMD : bool
}.

(** Modelled from the spec: [fixedLineTo] (raster_fixed.go) is missing from
    the sources.  Spec 4.2: "LineTo(b): Emit an edge from pen to b into the
    active buffer; set pen = b"; in fixed mode the active buffer is
    [bufU32]. *)
Definition fixedLineTo {K : Kernels} (z : Rasterizer) (b : Vec2) : Rasterizer :=
  set_pen b (set_bufU32 (slice_update (fixedDeposit (size z) (pen z) b) (bufU32 z)) z).

(** Modelled from the spec: [floatingLineTo] (raster_floating.go) is missing
    from the sources.  Spec 4.2, as for [fixedLineTo]; in floating mode the
    active buffer is [bufF32]. *)
Definition floatingLineTo {K : Kernels} (z : Rasterizer) (b : Vec2) : Rasterizer :=
  set_pen b (set_bufF32 (slice_update (floatingDeposit (size z) (pen z) b) (bufF32 z)) z).

(* ================================================================== *)
(** * Path commands *)

(** A path command maps the rasterizer to its next state and lists, in
    order, the arguments of the [LineTo] calls it made. *)
Definition Cmd : Type := Rasterizer -> Rasterizer * list Vec2.

Definition skip : Cmd := fun z => (z, []).

Definition then_cmd (c1 c2 : Cmd) : Cmd :=
  fun z =>
    let (z1, l1) := c1 z in
    let (z2, l2) := c2 z1 in
    (z2, l1 ++ l2).

Notation "c1 ;;; c2" := (then_cmd c1 c2) (at level 62, right associativity).

Definition state_of (r : Rasterizer * list Vec2) : Rasterizer := fst r.
Definition calls_of (r : Rasterizer * list Vec2) : list Vec2 := snd r.

Definition MoveTo (a : Vec2) : Cmd :=
  fun z =>
    (mkRasterizer (bufF32 z) (bufU32 z) (useFloatingPointMath z) (size z) a a (DrawOp z),
     []).

Definition LineTo {K : Kernels} (b : Vec2) : Cmd :=
  fun z =>
    (if useFloatingPointMath z then floatingLineTo z b else fixedLineTo z b, [b]).

Definition ClosePath {K : Kernels} : Cmd :=
  fun z => LineTo (first z) z.

(** [n := 1 + int(math.Sqrt(math.Sqrt(tol*float64(devsq))))]. *)
Definition segments (devsq : float32) : Z :=
  int_add 1 (f64_to_int (f64_sqrt (f64_sqrt (f64_mul f64_tol (f32_to_f64 devsq))))).

(** The body of [for i := 0; i < n-1; i++] in [QuadTo], [iters] rounds to go,
    [t] the running parameter. *)
Fixpoint quadLoop {K : Kernels} (a b c : Vec2) (nInv : float32)
    (iters : nat) (t : float32) : Cmd :=
  match iters with
  | O => skip
  | S iters' =>
      let t := f32_add t nInv in
      let ab := lerp t a b in
      let bc := lerp t b c in
      LineTo (lerp t ab bc) ;;; quadLoop a b c nInv iters' t
  end.

Definition QuadTo {K : Kernels} (b c : Vec2) : Cmd :=
  fun z =>
    let a := pen z in
    let devsq := devSquared a b c in
    ((if f32_ge devsq f32_0_333 then
        let n := segments devsq in
        let nInv := f32_div f32_one (f32_of_int n) in
        quadLoop a b c nInv (Z.to_nat (int_sub n 1)) f32_zero
      else skip) ;;;
     LineTo c) z.

Fixpoint cubeLoop {K : Kernels} (a b c d : Vec2) (nInv : float32)
    (iters : nat) (t : float32) : Cmd :=
  match iters with
  | O => skip
  | S iters' =>
      let t := f32_add t nInv in
      let ab := lerp t a b in
      let bc := lerp t b c in
      let cd := lerp t c d in
      let abc := lerp t ab bc in
      let bcd := lerp t bc cd in
      LineTo (lerp t abc bcd) ;;; cubeLoop a b c d nInv iters' t
  end.

(** The curvature estimate of [CubeTo]: [devSquared(a, b, d)], replaced by
    [devSquared(a, c, d)] when that one compares greater. *)
Definition cubeDevSquared (a b c d : Vec2) : float32 :=
  let devsq := devSquared a b d in
  let devsqAlt := devSquared a c d in
  if f32_lt devsq devsqAlt then devsqAlt else devsq.

Definition CubeTo {K : Kernels} (b c d : Vec2) : Cmd :=
  fun z =>
    let a := pen z in
    let devsq := cubeDevSquared a b c d in
    ((if f32_ge devsq f32_0_333 then
        let n := segments devsq in
        let nInv := f32_div f32_one (f32_of_int n) in
        cubeLoop a b c d nInv (Z.to_nat (int_sub n 1)) f32_zero
      else skip) ;;;
     LineTo d) z.

(** ** Vocabulary for the flattening claims *)

(** One round of de Casteljau's construction at parameter [t]: the
    interpolants of neighbouring control points. *)
Fixpoint casteljauStep (t : float32) (pts : list Vec2) : list Vec2 :=
  match pts with
  | p :: (q :: _) as tl => lerp t p q :: casteljauStep t tl
  | _ => []
  end.

(** The point of the Bezier curve with control points [pts] at [t], by
    repeated interpolation. *)
Fixpoint casteljauRounds (rounds : nat) (t : float32) (pts : list Vec2) : list Vec2 :=
  match rounds with
  | O => pts
  | S rounds' => casteljauRounds rounds' t (casteljauStep t pts)
  end.

Definition deCasteljau (t : float32) (pts : list Vec2) : Vec2 :=
  hd vec2_zero (casteljauRounds (length pts - 1) t pts).

(** The running parameter after [k] rounds of [t += nInv] from [t = 0]. *)
Fixpoint stepParam (nInv : float32) (k : nat) : float32 :=
  match k with
  | O => f32_zero
  | S k' => f32_add (stepParam nInv k') nInv
  end.

(** The parameter [k/n] as the quotient of [float32(k)] by [float32(n)]. *)
Definition ratioParam (n : Z) (k : nat) : float32 :=
  f32_div (f32_of_int (Z.of_nat k)) (f32_of_int n).

(** The calls a flattening into [n] segments makes when the [k]-th
    intermediate point is taken at parameter [param k]. *)
Definition flattening (param : nat -> float32) (n : Z) (ctrl : list Vec2)
    (endpoint : Vec2) : list Vec2 :=
  map (fun k => deCasteljau (param k) ctrl) (seq 1 (Z.to_nat (int_sub n 1))) ++ [endpoint].

(** A run of [LineTo] calls. *)
Definition lineToAll {K : Kernels} (pts : list Vec2) (z : Rasterizer) : Rasterizer :=
  fold_left (fun z p => state_of (LineTo p z)) pts z.

(** A float that is a number of finite size: not a NaN, not an infinity. *)
Definition finite (x : float32) : bool :=
  match x with
  | S754_zero _ | S754_finite _ _ _ => true
  | _ => false
  end.
Definition finite_point (p : Vec2) : bool := finite (fst p) && finite (snd p).

(** The sign bit is clear, or the value is a NaN. *)
Definition sign_clear (x : float32) : bool :=
  match x with
  | S754_zero s | S754_infinity s | S754_finite s _ _ => negb s
  | S754_nan => true
  end.



(* ================================================================== *)
(** * Images *)

(** What [c.RGBA()] returns for a colour [c]: four [uint32] channels,
    alpha-premultiplied, each within [[0, 0xffff]] by the contract of
    [color.Color]. *)
Record Color : Type := mkColor { cr : Z; cg : Z; cb : Z; ca : Z }.

(** [color.RGBA64]: four [uint16] channels. *)
Record RGBA64 : Type := mkRGBA64 { R : Z; G : Z; B : Z; A : Z }.

(** [RGBA64.RGBA()]. *)
Definition RGBA64_RGBA (c : RGBA64) : Color := mkColor (R c) (G c) (B c) (A c).

(** [*image.Alpha]: one byte per pixel. *)
Record Alpha : Type := mkAlpha { aPix : list Z; aStride : Z; aRect : Rectangle }.

(** [*image.RGBA]: four bytes per pixel, in R, G, B, A order. *)
Record RGBAImage : Type := mkRGBAImage { pPix : list Z; pStride : Z; pRect : Rectangle }.

(** [p.PixOffset(x, y)] of [*image.Alpha] and of [*image.RGBA]. *)
Definition Alpha_PixOffset (p : Alpha) (x y : Z) : Z :=
  int_add (int_mul (int_sub y (Y (Min (aRect p)))) (aStride p))
          (int_mul (int_sub x (X (Min (aRect p)))) 1).
Definition RGBA_PixOffset (p : RGBAImage) (x y : Z) : Z :=
  int_add (int_mul (int_sub y (Y (Min (pRect p)))) (pStride p))
          (int_mul (int_sub x (X (Min (pRect p)))) 4).

(** The methods of [draw.Image] that [vector.go] calls: [At] (followed by
    [RGBA()]) and [Set]. *)
Class DrawImage (D : Type) : Type := {
  At : D -> Z -> Z -> result Color;
  Set_ : D -> Z -> Z -> RGBA64 -> result D
}.

(** [image.Alpha] as a [draw.Image], after Go's standard library: a pixel
    outside the rectangle reads as transparent and is not written; a colour
    is stored as the high byte of its alpha. *)
Definition Alpha_At (p : Alpha) (x y : Z) : result Color :=
  if point_in (mkPoint x y) (aRect p) then
    a <-- index (aPix p) (Alpha_PixOffset p x y) ;;
    let a16 := Z.lor a (Z.shiftl a 8) in
    Ok (mkColor a16 a16 a16 a16)
  else Ok (mkColor 0 0 0 0).

Definition Alpha_Set (p : Alpha) (x y : Z) (c : RGBA64) : result Alpha :=
  if point_in (mkPoint x y) (aRect p) then
    pix <-- store (aPix p) (Alpha_PixOffset p x y) (to_uint8 (u32_shr (A c) 8)) ;;
    Ok (mkAlpha pix (aStride p) (aRect p))
  else Ok p.

#[export] Instance Alpha_DrawImage : DrawImage Alpha :=
  {| At := Alpha_At; Set_ := Alpha_Set |}.

(** [image.RGBA] as a [draw.Image], after Go's standard library. *)
Definition RGBA_At (p : RGBAImage) (x y : Z) : result Color :=
  if point_in (mkPoint x y) (pRect p) then
    let i := RGBA_PixOffset p x y in
    r <-- index (pPix p) (int_add i 0) ;;
    g <-- index (pPix p) (int_add i 1) ;;
    b <-- index (pPix p) (int_add i 2) ;;
    a <-- index (pPix p) (int_add i 3) ;;
    let wide := fun v => Z.lor v (Z.shiftl v 8) in
    Ok (mkColor (wide r) (wide g) (wide b) (wide a))
  else Ok (mkColor 0 0 0 0).

Definition RGBA_Set (p : RGBAImage) (x y : Z) (c : RGBA64) : result RGBAImage :=
  if point_in (mkPoint x y) (pRect p) then
    let i := RGBA_PixOffset p x y in
    pix <-- store (pPix p) (int_add i 0) (to_uint8 (u32_shr (R c) 8)) ;;
    pix <-- store pix (int_add i 1) (to_uint8 (u32_shr (G c) 8)) ;;
    pix <-- store pix (int_add i 2) (to_uint8 (u32_shr (B c) 8)) ;;
    pix <-- store pix (int_add i 3) (to_uint8 (u32_shr (A c) 8)) ;;
    Ok (mkRGBAImage pix (pStride p) (pRect p))
  else Ok p.

#[export] Instance RGBA_DrawImage : DrawImage RGBAImage :=
  {| At := RGBA_At; Set_ := RGBA_Set |}.

(** The destinations [Draw] tells apart by their dynamic type. *)
Inductive Destination (D : Type) : Type :=
  | DstAlpha (p : Alpha)
  | DstRGBA (p : RGBAImage)
  | DstOther (d : D).
Arguments DstAlpha {D} p.
Arguments DstRGBA {D} p.
Arguments DstOther {D} d.

(** The sources [Draw] tells apart: [*image.Uniform], with the channels of
    its colour, and any other image, with its [At] followed by [RGBA()]. *)
Inductive Source : Type :=
  | SrcUniform (c : Color)
  | SrcImage (at_ : Z -> Z -> Color).

Definition Source_At (src : Source) (x y : Z) : Color :=
  match src with
  | SrcUniform c => c
  | SrcImage at_ => at_ x y
  end.

(* ================================================================== *)
(** * Accumulation *)

(** [for i := 0; i < count; i++ { body }], threading a state and stopping
    at the first panic. *)
Fixpoint for_loop {St : Type} (count : nat) (i : Z) (body : Z -> St -> result St)
    (s : St) : result St :=
  match count with
  | O => Ok s
  | S count' => s' <-- body i s ;; for_loop count' (i + 1) body s'
  end.

(** Writing the values [new] over the front of [dst], as far as [dst]
    reaches. *)
Definition overwrite {T : Type} (dst new : list T) : list T :=
  firstn (length dst) new ++ skipn (length new) dst.

(** Modelled from the spec: [fixedAccumulateMask] (acc_*.go) is missing from
    the sources.  Spec 4.5: "accumulateMask - emit uint32 mask into bufU32";
    the value stored for sample [i] is its 16-bit coverage. *)
Definition fixedAccumulateMask {K : Kernels} (buf : list Z) : list Z :=
  map (fixedCoverage buf) (seq 0 (length buf)).
(** Modelled from the spec: [floatingAccumulateMask] (acc_*.go) is missing
    from the sources.  Spec 4.5, as for [fixedAccumulateMask]; the mask goes
    to [dst], the area samples come from [src]. *)
Definition floatingAccumulateMask {K : Kernels} (dst : list Z) (src : list float32) : list Z :=
  overwrite dst (map (floatingCoverage src) (seq 0 (length src))).

(** Modelled from the spec: [fixedAccumulateOpSrc] (acc_*.go) is missing
    from the sources.  Spec 4.5: "accumulateOpSrc(dst) - write alpha >> 8 to
    an 8-bit destination".  The call sites pass [dst.Pix] and the area
    buffer, nothing else: byte [i] of [dst.Pix] receives the coverage of
    sample [i]. *)
Definition fixedAccumulateOpSrc {K : Kernels} (dst : list Z) (src : list Z) : list Z :=
  overwrite dst
    (map (fun i => to_uint8 (u32_shr (fixedCoverage src i) 8)) (seq 0 (length src))).
(** Modelled from the spec: [floatingAccumulateOpSrc] (acc_*.go) is missing
    from the sources.  Spec 4.5, as for [fixedAccumulateOpSrc]. *)
Definition floatingAccumulateOpSrc {K : Kernels} (dst : list Z) (src : list float32) : list Z :=
  overwrite dst
    (map (fun i => to_uint8 (u32_shr (floatingCoverage src i) 8)) (seq 0 (length src))).

(** Modelled from the spec: the blend of [accumulateOpOver] (acc_*.go,
    missing from the sources).  Spec 4.5: "blend alpha into an 8-bit
    destination using out = (dst * (0xffff - alpha) + alpha * 0xffff) /
    0xffff packed to uint8", with spec 4.6: "The 8-bit-destination variants
    use dst8 * 0x101 to expand to 16-bit for the arithmetic, and >> 8 to
    narrow back." *)
Definition blendOver8 (dst8 alpha : Z) : Z :=
  to_uint8 (Z.shiftr ((dst8 * 257 * (65535 - alpha) + alpha * 65535) / 65535) 8).
(** Modelled from the spec: [fixedAccumulateOpOver] (acc_*.go) is missing
    from the sources.  Spec 4.5: byte [i] of the destination is blended with
    the coverage of sample [i] by [blendOver8]. *)
Definition fixedAccumulateOpOver {K : Kernels} (dst : list Z) (src : list Z) : list Z :=
  overwrite dst
    (map (fun i => blendOver8 (nth i dst 0) (fixedCoverage src i)) (seq 0 (length src))).
(** Modelled from the spec: [floatingAccumulateOpOver] (acc_*.go) is missing
    from the sources.  Spec 4.5, as for [fixedAccumulateOpOver]. *)
Definition floatingAccumulateOpOver {K : Kernels} (dst : list Z) (src : list float32) : list Z :=
  overwrite dst
    (map (fun i => blendOver8 (nth i dst 0) (floatingCoverage src i)) (seq 0 (length src))).

(** The SIMD entry points (acc_amd64.go) are missing from the sources.
    Spec 9: "SIMD specialisations are optional but must be bit-identical to
    the scalar accumulator". *)

(** Modelled from the spec: [fixedAccumulateMaskSIMD] is missing from the sources; spec 9
    makes it bit-identical to [fixedAccumulateMask]. *)
Definition fixedAccumulateMaskSIMD {K : Kernels} := fixedAccumulateMask.

(** Modelled from the spec: [floatingAccumulateMaskSIMD] is missing from the sources; spec 9
    makes it bit-identical to [floatingAccumulateMask]. *)
Definition floatingAccumulateMaskSIMD {K : Kernels} := floatingAccumulateMask.

(** Modelled from the spec: [fixedAccumulateOpSrcSIMD] is missing from the sources; spec 9
    makes it bit-identical to [fixedAccumulateOpSrc]. *)
Definition fixedAccumulateOpSrcSIMD {K : Kernels} := fixedAccumulateOpSrc.

(** Modelled from the spec: [floatingAccumulateOpSrcSIMD] is missing from the sources; spec 9
    makes it bit-identical to [floatingAccumulateOpSrc]. *)
Definition floatingAccumulateOpSrcSIMD {K : Kernels} := floatingAccumulateOpSrc.

(** Modelled from the spec: [fixedAccumulateOpOverSIMD] is missing from the sources; spec 9
    makes it bit-identical to [fixedAccumulateOpOver]. *)
Definition fixedAccumulateOpOverSIMD {K : Kernels} := fixedAccumulateOpOver.

(** Modelled from the spec: [floatingAccumulateOpOverSIMD] is missing from the sources; spec 9
    makes it bit-identical to [floatingAccumulateOpOver]. *)
Definition floatingAccumulateOpOverSIMD {K : Kernels} := floatingAccumulateOpOver.

Definition accumulateMask {K : Kernels} (z : Rasterizer) : result Rasterizer :=
  if useFloatingPointMath z then
    let n := int_mul (X (size z)) (Y (size z)) in
    u32 <-- (if cap (bufU32 z) <? n then make 4 0 n else reslice (bufU32 z) n) ;;
    let z := set_bufU32 u32 z in
    if haveFloatingAccumulateSIMD then
      Ok (set_bufU32
            (slice_update (fun dst => floatingAccumulateMaskSIMD dst (elems (bufF32 z)))
               (bufU32 z)) z)
    else
      Ok (set_bufU32
            (slice_update (fun dst => floatingAccumulateMask dst (elems (bufF32 z)))
               (bufU32 z)) z)
  else
    if haveFixedAccumulateSIMD then
      Ok (set_bufU32 (slice_update fixedAccumulateMaskSIMD (bufU32 z)) z)
    else
      Ok (set_bufU32 (slice_update fixedAccumulateMask (bufU32 z)) z).

(* ================================================================== *)
(** * Compositing *)

(** [pix := dst.Pix[off:]]: panics unless [0 <= off <= len(dst.Pix)].  The
    sub-slice shares the array: [pix[i]] is [dst.Pix[off+i]]. *)
Definition slice_from {T : Type} (l : list T) (off : Z) : result Z :=
  if (0 <=? off) && (off <=? Z.of_nat (length l)) then Ok off else Panic.

Definition sub_index {T : Type} (l : list T) (off i : Z) : result T :=
  if (0 <=? i) && (i <? Z.of_nat (length l) - off) then index l (off + i) else Panic.

Definition sub_store {T : Type} (l : list T) (off i : Z) (v : T) : result (list T) :=
  if (0 <=? i) && (i <? Z.of_nat (length l) - off) then store l (off + i) v else Panic.

(** The two nested loops over the pixels of [r], rows outside, columns
    inside. *)
Definition for_pixels {St : Type} (r : Rectangle) (body : Z -> Z -> St -> result St)
    (s : St) : result St :=
  let y1 := int_sub (Y (Max r)) (Y (Min r)) in
  let x1 := int_sub (X (Max r)) (X (Min r)) in
  for_loop (Z.to_nat y1) 0
    (fun y s => for_loop (Z.to_nat x1) 0 (fun x s => body x y s) s) s.

(** [ma := z.bufU32[y*z.size.X+x]]. *)
Definition mask_at (z : Rasterizer) (x y : Z) : result Z :=
  index (elems (bufU32 z)) (int_add (int_mul y (X (size z))) x).

Definition rasterizeDstAlphaSrcOpaqueOpOver {K : Kernels} (z : Rasterizer)
    (dst : Alpha) (r : Rectangle) : result (Rasterizer * Alpha) :=
  if rect_eqb r (aRect dst) && rect_eqb r (Bounds z) then
    let pix :=
      if useFloatingPointMath z then
        if haveFloatingAccumulateSIMD
        then floatingAccumulateOpOverSIMD (aPix dst) (elems (bufF32 z))
        else floatingAccumulateOpOver (aPix dst) (elems (bufF32 z))
      else
        if haveFixedAccumulateSIMD
        then fixedAccumulateOpOverSIMD (aPix dst) (elems (bufU32 z))
        else fixedAccumulateOpOver (aPix dst) (elems (bufU32 z)) in
    Ok (z, mkAlpha pix (aStride dst) (aRect dst))
  else
    z <-- accumulateMask z ;;
    off <-- slice_from (aPix dst) (Alpha_PixOffset dst (X (Min r)) (Y (Min r))) ;;
    pix <-- for_pixels r
      (fun x y pix =>
         ma <-- mask_at z x y ;;
         let i := int_add (int_mul y (aStride dst)) x in
         let a := u32_sub 65535 ma in
         p <-- sub_index pix off i ;;
         sub_store pix off i
           (to_uint8 (u32_shr (u32_add (u32_div (u32_mul (u32_mul p 257) a) 65535) ma) 8)))
      (aPix dst) ;;
    Ok (z, mkAlpha pix (aStride dst) (aRect dst)).

Definition rasterizeDstAlphaSrcOpaqueOpSrc {K : Kernels} (z : Rasterizer)
    (dst : Alpha) (r : Rectangle) : result (Rasterizer * Alpha) :=
  if rect_eqb r (aRect dst) && rect_eqb r (Bounds z) then
    let pix :=
      if useFloatingPointMath z then
        if haveFloatingAccumulateSIMD
        then floatingAccumulateOpSrcSIMD (aPix dst) (elems (bufF32 z))
        else floatingAccumulateOpSrc (aPix dst) (elems (bufF32 z))
      else
        if haveFixedAccumulateSIMD
        then fixedAccumulateOpSrcSIMD (aPix dst) (elems (bufU32 z))
        else fixedAccumulateOpSrc (aPix dst) (elems (bufU32 z)) in
    Ok (z, mkAlpha pix (aStride dst) (aRect dst))
  else
    z <-- accumulateMask z ;;
    off <-- slice_from (aPix dst) (Alpha_PixOffset dst (X (Min r)) (Y (Min r))) ;;
    pix <-- for_pixels r
      (fun x y pix =>
         ma <-- mask_at z x y ;;
         sub_store pix off (int_add (int_mul y (aStride dst)) x)
           (to_uint8 (u32_shr ma 8)))
      (aPix dst) ;;
    Ok (z, mkAlpha pix (aStride dst) (aRect dst)).

(** One channel of the uniform-source blend onto an RGBA destination:
    [uint8(((uint32(p)*0x101*a + s*ma) / 0xffff) >> 8)]. *)
Definition uniformOver8 (p a s ma : Z) : Z :=
  to_uint8 (u32_shr (u32_div (u32_add (u32_mul (u32_mul p 257) a) (u32_mul s ma)) 65535) 8).

Definition rasterizeDstRGBASrcUniformOpOver {K : Kernels} (z : Rasterizer)
    (dst : RGBAImage) (r : Rectangle) (sr sg sb sa : Z) : result (Rasterizer * RGBAImage) :=
  z <-- accumulateMask z ;;
  off <-- slice_from (pPix dst) (RGBA_PixOffset dst (X (Min r)) (Y (Min r))) ;;
  pix <-- for_pixels r
    (fun x y pix =>
       ma <-- mask_at z x y ;;
       let a := u32_sub 65535 (u32_div (u32_mul sa ma) 65535) in
       let i := int_add (int_mul y (pStride dst)) (int_mul 4 x) in
       p0 <-- sub_index pix off (int_add i 0) ;;
       pix <-- sub_store pix off (int_add i 0) (uniformOver8 p0 a sr ma) ;;
       p1 <-- sub_index pix off (int_add i 1) ;;
       pix <-- sub_store pix off (int_add i 1) (uniformOver8 p1 a sg ma) ;;
       p2 <-- sub_index pix off (int_add i 2) ;;
       pix <-- sub_store pix off (int_add i 2) (uniformOver8 p2 a sb ma) ;;
       p3 <-- sub_index pix off (int_add i 3) ;;
       sub_store pix off (int_add i 3) (uniformOver8 p3 a sa ma))
    (pPix dst) ;;
  Ok (z, mkRGBAImage pix (pStride dst) (pRect dst)).

(** [uint8((s * ma / 0xffff) >> 8)]. *)
Definition uniformSrc8 (s ma : Z) : Z :=
  to_uint8 (u32_shr (u32_div (u32_mul s ma) 65535) 8).

Definition rasterizeDstRGBASrcUniformOpSrc {K : Kernels} (z : Rasterizer)
    (dst : RGBAImage) (r : Rectangle) (sr sg sb sa : Z) : result (Rasterizer * RGBAImage) :=
  z <-- accumulateMask z ;;
  off <-- slice_from (pPix dst) (RGBA_PixOffset dst (X (Min r)) (Y (Min r))) ;;
  pix <-- for_pixels r
    (fun x y pix =>
       ma <-- mask_at z x y ;;
       let i := int_add (int_mul y (pStride dst)) (int_mul 4 x) in
       pix <-- sub_store pix off (int_add i 0) (uniformSrc8 sr ma) ;;
       pix <-- sub_store pix off (int_add i 1) (uniformSrc8 sg ma) ;;
       pix <-- sub_store pix off (int_add i 2) (uniformSrc8 sb ma) ;;
       sub_store pix off (int_add i 3) (uniformSrc8 sa ma))
    (pPix dst) ;;
  Ok (z, mkRGBAImage pix (pStride dst) (pRect dst)).

(** The generic path, [draw.Over].  For source channel [s] with source
    alpha [sa], destination channel [d] and mask [ma], all [uint32]:
    [a := 0xffff - (sa * ma / 0xffff)] and
    [out = uint16((d*a + s*ma) / 0xffff)]. *)
Definition overAlpha (sa ma : Z) : Z :=
  u32_sub 65535 (u32_div (u32_mul sa ma) 65535).
Definition overChannel (d s a ma : Z) : Z :=
  to_uint16 (u32_div (u32_add (u32_mul d a) (u32_mul s ma)) 65535).
Definition overPixel (s d : Color) (ma : Z) : RGBA64 :=
  let a := overAlpha (ca s) ma in
  mkRGBA64 (overChannel (cr d) (cr s) a ma) (overChannel (cg d) (cg s) a ma)
           (overChannel (cb d) (cb s) a ma) (overChannel (ca d) (ca s) a ma).

Definition rasterizeOpOver {K : Kernels} {D : Type} {I : DrawImage D} (z : Rasterizer)
    (dst : D) (r : Rectangle) (src : Source) (sp : Point) : result (Rasterizer * D) :=
  z <-- accumulateMask z ;;
  dst <-- for_pixels r
    (fun x y dst =>
       let s := Source_At src (int_add (X sp) x) (int_add (Y sp) y) in
       ma <-- mask_at z x y ;;
       d <-- At dst (int_add (X (Min r)) x) (int_add (Y (Min r)) y) ;;
       Set_ dst (int_add (X (Min r)) x) (int_add (Y (Min r)) y) (overPixel s d ma))
    dst ;;
  Ok (z, dst).

(** The generic path, [draw.Src]: [out = uint16(s * ma / 0xffff)]. *)
Definition srcChannel (s ma : Z) : Z :=
  to_uint16 (u32_div (u32_mul s ma) 65535).
Definition srcPixel (s : Color) (ma : Z) : RGBA64 :=
  mkRGBA64 (srcChannel (cr s) ma) (srcChannel (cg s) ma)
           (srcChannel (cb s) ma) (srcChannel (ca s) ma).

Definition rasterizeOpSrc {K : Kernels} {D : Type} {I : DrawImage D} (z : Rasterizer)
    (dst : D) (r : Rectangle) (src : Source) (sp : Point) : result (Rasterizer * D) :=
  z <-- accumulateMask z ;;
  dst <-- for_pixels r
    (fun x y dst =>
       let s := Source_At src (int_add (X sp) x) (int_add (Y sp) y) in
       ma <-- mask_at z x y ;;
       Set_ dst (int_add (X (Min r)) x) (int_add (Y (Min r)) y) (srcPixel s ma))
    dst ;;
  Ok (z, dst).

(** The generic path on a destination of any of the three kinds. *)
Definition rasterizeGeneric {K : Kernels} {D : Type} {I : DrawImage D} (z : Rasterizer)
    (dst : Destination D) (r : Rectangle) (src : Source) (sp : Point)
    : result (Rasterizer * Destination D) :=
  let run := fun (T : Type) (J : DrawImage T) (d : T) =>
    if DrawOp z =? Over then rasterizeOpOver z d r src sp
    else rasterizeOpSrc z d r src sp in
  match dst with
  | DstAlpha p => zp <-- run Alpha _ p ;; Ok (fst zp, DstAlpha (snd zp))
  | DstRGBA p => zp <-- run RGBAImage _ p ;; Ok (fst zp, DstRGBA (snd zp))
  | DstOther d => zd <-- run D I d ;; Ok (fst zd, DstOther (snd zd))
  end.

Definition Draw {K : Kernels} {D : Type} {I : DrawImage D} (z : Rasterizer)
    (dst : Destination D) (r : Rectangle) (src : Source) (sp : Point)
    : result (Rasterizer * Destination D) :=
  match src, dst with
  | SrcUniform c, DstAlpha p =>
      if ca c =? 65535 then
        zp <-- (if DrawOp z =? Over
                then rasterizeDstAlphaSrcOpaqueOpOver z p r
                else rasterizeDstAlphaSrcOpaqueOpSrc z p r) ;;
        Ok (fst zp, DstAlpha (snd zp))
      else rasterizeGeneric z dst r src sp
  | SrcUniform c, DstRGBA p =>
      zp <-- (if DrawOp z =? Over
              then rasterizeDstRGBASrcUniformOpOver z p r (cr c) (cg c) (cb c) (ca c)
              else rasterizeDstRGBASrcUniformOpSrc z p r (cr c) (cg c) (cb c) (ca c)) ;;
      Ok (fst zp, DstRGBA (snd zp))
  | _, _ => rasterizeGeneric z dst r src sp
  end.

(** ** Vocabulary for the compositing claims *)

(** The operator formulas as the specification writes them, each [/] an
    integer division:
    [Over: out = src*ma/0xffff + dst*(0xffff - src.a*ma/0xffff)/0xffff],
    [Src: out = src*ma/0xffff]. *)
Definition specOver (d s sa ma : Z) : Z :=
  s * ma / 65535 + d * (65535 - sa * ma / 65535) / 65535.
Definition specSrc (s ma : Z) : Z := s * ma / 65535.

(** The byte of pixel [(x, y)] of an [image.Alpha], for [(x, y)] in its
    rectangle. *)
Definition Alpha_byte (p : Alpha) (x y : Z) : result Z :=
  index (aPix p) (Alpha_PixOffset p x y).

(** Well-formed colours: 16-bit channels, colour channels bounded by alpha
    (the contract of [color.Color.RGBA]). *)
Definition color16 (c : Color) : Prop :=
  is_uint16 (cr c) /\ is_uint16 (cg c) /\ is_uint16 (cb c) /\ is_uint16 (ca c).
Definition premultiplied (c : Color) : Prop :=
  cr c <= ca c /\ cg c <= ca c /\ cb c <= ca c.

(** A destination that stores one [RGBA64] colour per pixel, unbounded: the
    plainest [draw.Image]. *)
Definition PixelMap : Type := Z -> Z -> RGBA64.

Definition pm_set (m : PixelMap) (x y : Z) (c : RGBA64) : PixelMap :=
  fun x' y' => if (x' =? x) && (y' =? y) then c else m x' y'.

#[export] Instance PixelMap_DrawImage : DrawImage PixelMap :=
  {| At := fun m x y => Ok (RGBA64_RGBA (m x y));
     Set_ := fun m x y c => Ok (pm_set m x y c) |}.

(** Coordinates small enough for the index arithmetic of [Draw] not to
    wrap. *)
Definition small (c : Z) : Prop := - 2 ^ 30 <= c <= 2 ^ 30.
Definition small_point (p : Point) : Prop := small (X p) /\ small (Y p).

(** The [uint32] buffer can be given [n] elements: its array holds them
    or the allocator accepts an array of that size. *)
Definition mask_fits (z : Rasterizer) (n : Z) : Prop :=
  n <= cap (bufU32 z) \/ 4 * n <= maxAlloc.

(** What [Draw] expects of the rasterizer: in fixed mode the [uint32]
    buffer is a proper slice of [w*h] samples (as [Reset] leaves it); in
    floating mode that buffer is resized on the way, so the sample count
    must be a length that the buffer can be given. *)
Definition mask_ready (z : Rasterizer) : Prop :=
  small (X (size z)) /\ small (Y (size z)) /\
  if useFloatingPointMath z
  then 0 <= X (size z) * Y (size z) /\ mask_fits z (X (size z) * Y (size z))
  else (slen (bufU32 z) <= length (backing (bufU32 z)))%nat /\
       len (bufU32 z) = X (size z) * Y (size z).

(** The mask value [Draw] reads for the pixel [(x, y)] of the rectangle,
    0 if the read would panic. *)
Definition mask_value (z : Rasterizer) (x y : Z) : Z :=
  match mask_at z x y with
  | Ok ma => ma
  | Panic => 0
  end.

(** An [image.Alpha] as the [image] package makes them ([NewAlpha],
    [SubImage]): a non-empty rectangle, a stride no less than the width, and
    [Pix] reaching to the last pixel of the last row. *)
Definition Alpha_wf (p : Alpha) : Prop :=
  small_point (Min (aRect p)) /\ small_point (Max (aRect p)) /\
  0 < X (Max (aRect p)) - X (Min (aRect p)) <= aStride p /\
  0 < Y (Max (aRect p)) - Y (Min (aRect p)) /\
  aStride p <= 2 ^ 30 /\
  (Y (Max (aRect p)) - Y (Min (aRect p)) - 1) * aStride p +
    (X (Max (aRect p)) - X (Min (aRect p))) <= Z.of_nat (length (aPix p)).

(** A non-empty rectangle [r] inside the rectangle [R]. *)
Definition rect_inside (r R : Rectangle) : Prop :=
  X (Min R) <= X (Min r) /\ X (Min r) < X (Max r) /\ X (Max r) <= X (Max R) /\
  Y (Min R) <= Y (Min r) /\ Y (Min r) < Y (Max r) /\ Y (Max r) <= Y (Max R).

(** The coverage of sample [i] of the active area buffer. *)
Definition coverage {K : Kernels} (z : Rasterizer) (i : nat) : Z :=
  if useFloatingPointMath z then floatingCoverage (elems (bufF32 z)) i
  else fixedCoverage (elems (bufU32 z)) i.

(** The active area buffer is a proper slice of [w*h] samples (and in
    floating mode the [uint32] buffer can be given as many). *)
Definition active_ready (z : Rasterizer) : Prop :=
  small (X (size z)) /\ small (Y (size z)) /\
  if useFloatingPointMath z
  then (slen (bufF32 z) <= length (backing (bufF32 z)))%nat /\
       len (bufF32 z) = X (size z) * Y (size z) /\
       mask_fits z (X (size z) * Y (size z))
  else (slen (bufU32 z) <= length (backing (bufU32 z)))%nat /\
       len (bufU32 z) = X (size z) * Y (size z).

(** ** Vocabulary for the further properties *)

(** The fields of the rasterizer that hold the path state and the settings:
    everything but the [uint32] buffer. *)
Definition same_path_state (z z' : Rasterizer) : Prop :=
  bufF32 z' = bufF32 z /\ useFloatingPointMath z' = useFloatingPointMath z /\
  size z' = size z /\ first z' = first z /\ pen z' = pen z /\ DrawOp z' = DrawOp z.

(** Each rasterizing function returns the rasterizer it was given or the
    one [accumulateMask] made of it. *)
Definition after_mask {K : Kernels} (z z' : Rasterizer) : Prop :=
  z' = z \/ accumulateMask z = Ok z'.

(** What a rasterizing function returns when the operator field of its
    rasterizer is replaced by [op]. *)
Definition with_DrawOp {T : Type} (op : Z) (res : result (Rasterizer * T))
    : result (Rasterizer * T) :=
  zd <-- res ;; Ok (set_DrawOp op (fst zd), snd zd).

(** [At] of [image.RGBA] and [image.Alpha] widens a byte to 16 bits, [Set]
    keeps the high byte of a 16-bit channel. *)
Definition wide16 (p : Z) : Z := Z.lor p (Z.shiftl p 8).
Definition narrow8 (v : Z) : Z := to_uint8 (u32_shr v 8).

(** Bytes of images, for the pixel-by-pixel properties of the fast paths. *)

(** [l[k] = g(l[k])]. *)
Definition set_byte (k : nat) (g : Z -> Z) (l : list Z) : list Z :=
  list_set l k (g (nth k l 0)).

(** The four bytes from index [k] on rewritten in turn, byte [c] by
    [g c]. *)
Definition upd4 (k : nat) (g : nat -> Z -> Z) (l : list Z) : list Z :=
  set_byte (k + 3) (g 3%nat)
    (set_byte (k + 2) (g 2%nat) (set_byte (k + 1) (g 1%nat) (set_byte k (g 0%nat) l))).

(** An [image.RGBA] as the [image] package makes them ([NewRGBA],
    [SubImage]): a non-empty rectangle, a stride no less than four times
    the width, and [Pix] reaching to the last pixel of the last row. *)
Definition RGBA_wf (p : RGBAImage) : Prop :=
  small_point (Min (pRect p)) /\ small_point (Max (pRect p)) /\
  0 < X (Max (pRect p)) - X (Min (pRect p)) /\
  4 * (X (Max (pRect p)) - X (Min (pRect p))) <= pStride p /\
  0 < Y (Max (pRect p)) - Y (Min (pRect p)) /\
  pStride p <= 2 ^ 30 /\
  (Y (Max (pRect p)) - Y (Min (pRect p)) - 1) * pStride p +
    4 * (X (Max (pRect p)) - X (Min (pRect p))) <= Z.of_nat (length (pPix p)).

(** Byte [c] (0 for R, 1 for G, 2 for B, 3 for A) of pixel [(x, y)] of an
    [image.RGBA], for [(x, y)] in its rectangle. *)
Definition RGBA_byte (p : RGBAImage) (x y : Z) (c : nat) : result Z :=
  index (pPix p) (RGBA_PixOffset p x y + Z.of_nat c).

(** Channel [c] of the four channels of a uniform source. *)
Definition channel (sr sg sb sa : Z) (c : nat) : Z := nth c [sr; sg; sb; sa] 0.

(** The byte [rasterizeDstAlphaSrcOpaqueOpOver] stores for the old byte [p]
    and the mask value [ma]:
    [uint8((uint32(p)*0x101*(0xffff - ma)/0xffff + ma) >> 8)]. *)
Definition opaqueOver8 (p ma : Z) : Z :=
  to_uint8 (u32_shr (u32_add (u32_div (u32_mul (u32_mul p 257) (u32_sub 65535 ma)) 65535)
                       ma) 8).

(** ** Helpers for running the model *)

(** [f] holds on [count] consecutive integers from [lo] on. *)
Fixpoint forall_range (f : Z -> bool) (lo : Z) (count : nat) : bool :=
  match count with
  | O => true
  | S count' => f lo && forall_range f (lo + 1) count'
  end.

(** Kernels for running the model on examples: edges deposit nothing and
    the coverage of a sample is the stored value, capped at 0xffff. *)
Definition sampleKernels : Kernels := {|
  fixedDeposit := fun _ _ _ buf => buf;
  floatingDeposit := fun _ _ _ buf => buf;
  fixedCoverage := fun buf i => Z.min (nth i buf 0) 65535;
  floatingCoverage := fun _ _ => 0;
  haveFixedAccumulateSIMD := false;
  haveFloatingAccumulateSIMD := false
|}.

(** A [float32] literal [num / den]. *)
Definition f32_lit (num den : Z) : float32 := f32_div (f32_of_int num) (f32_of_int den).

(** Inputs for running the flattening: a pen at the origin, the point
    [(16, 0)], and a point whose curvature estimate against the origin
    falls between 0.333 and 1/3. *)
Definition pt_16_0 : Vec2 := (f32_of_int 16, f32_zero).
Definition pt_gap : Vec2 := (f32_lit 5772 10000, f32_zero).

(** Inputs for running [Draw]: a 4x4 rasterizer in fixed mode, a blank
    [PixelMap], an opaque white source, a 4x4 [image.Alpha], the rectangle
    from (1,1) to (3,3), a rectangle wider than the rasterizer, an empty
    rectangle, and a point with a NaN coordinate. *)
Definition z_4x4 : Rasterizer :=
  mkRasterizer nil_slice (mkSlice (repeat 4096 16) 16) false (mkPoint 4 4)
    vec2_zero vec2_zero Over.
Definition blank : PixelMap := fun _ _ => mkRGBA64 0 0 0 0.
Definition white : Source := SrcUniform (mkColor 65535 65535 65535 65535).
Definition alpha_4x4 : Alpha :=
  mkAlpha (repeat 0 16) 4 (mkRect (mkPoint 0 0) (mkPoint 4 4)).
Definition rgba_4x4 : RGBAImage :=
  mkRGBAImage (repeat 0 64) 16 (mkRect (mkPoint 0 0) (mkPoint 4 4)).
Definition rect_inner : Rectangle := mkRect (mkPoint 1 1) (mkPoint 3 3).
Definition rect_wide : Rectangle := mkRect (mkPoint 0 0) (mkPoint 8 2).
Definition rect_empty : Rectangle := mkRect (mkPoint 5 5) (mkPoint 5 9).
Definition pt_nan : Vec2 := (S754_nan, f32_zero).

(* ================================================================== *)
(** * Properties *)

(** ** The model at work *)

Example clamp_examples :
  clamp (-5) 4 = 0 /\ clamp 0 4 = 0 /\ clamp 3 4 = 3 /\ clamp 4 4 = 4 /\ clamp 9 4 = 4.
Proof. repeat split. Qed.

Example NewRasterizer_3_2 :
  NewRasterizer 3 2 =
    Ok (mkRasterizer nil_slice (mkSlice [0; 0; 0; 0; 0; 0] 6) false (mkPoint 3 2)
          vec2_zero vec2_zero Over).
Proof. reflexivity. Qed.

(** [Reset] to a smaller size keeps the array and zeroes the part in use. *)
Example Reset_reuses_the_array :
  Reset (mkRasterizer nil_slice (mkSlice [7; 7; 7; 7; 7; 7] 6) false (mkPoint 3 2)
           (f32_one, f32_one) (f32_two, f32_one) Src) 2 2 =
    Ok (mkRasterizer nil_slice (mkSlice [0; 0; 0; 0; 7; 7] 4) false (mkPoint 2 2)
          vec2_zero vec2_zero Over).
Proof. reflexivity. Qed.

Example NewRasterizer_4096_4 :
  match NewRasterizer 4096 4 with
  | Ok z => useFloatingPointMath z = true /\ len (bufF32 z) = 16384 /\ len (bufU32 z) = 0
  | Panic => False
  end.
Proof. vm_compute. repeat split. Qed.

Example devSquared_examples :
  devSquared vec2_zero vec2_zero pt_16_0 = f32_of_int 256 /\
  devSquared vec2_zero (f32_of_int 8, f32_zero) (f32_of_int 8, f32_of_int 8) = f32_of_int 128 /\
  segments (f32_of_int 256) = 6 /\ segments (f32_of_int 128) = 5.
Proof. repeat split; vm_compute; reflexivity. Qed.

(** [MoveTo((0,0)); QuadTo((8,0), (8,8))]: five [LineTo] calls, the last
    one to [(8, 8)], and the pen ends there. *)
Example QuadTo_quarter_turn :
  let run := (MoveTo vec2_zero ;;;
              @QuadTo sampleKernels (f32_of_int 8, f32_zero) (f32_of_int 8, f32_of_int 8))
               zeroRasterizer in
  length (calls_of run) = 5%nat /\
  nth 4 (calls_of run) vec2_zero = (f32_of_int 8, f32_of_int 8) /\
  pen (state_of run) = (f32_of_int 8, f32_of_int 8) /\
  first (state_of run) = vec2_zero.
Proof. vm_compute. repeat split. Qed.

Lemma to_int_small (x : Z) : min_int <= x <= max_int -> to_int x = x.
Proof.
  unfold to_int, wrap_signed, min_int, max_int. intros H.
  rewrite Z.mod_small; lia.
Qed.


Lemma to_uint_small (x : Z) : 0 <= x < 2 ^ 64 -> to_uint x = x.
Proof. unfold to_uint, wrap_unsigned. intros H. apply Z.mod_small; lia. Qed.

(** ** Slices and the zeroing loop *)

Lemma list_set_length {T : Type} (l : list T) (i : nat) (v : T) :
  length (list_set l i v) = length l.
Proof.
  revert i. induction l as [|hd tl IH]; intros [|i]; simpl; auto.
Qed.

Lemma list_set_firstn_snoc {T : Type} (l : list T) (i : nat) (v : T) :
  (i < length l)%nat -> firstn (S i) (list_set l i v) = firstn i l ++ [v].
Proof.
  revert i. induction l as [|hd tl IH]; intros i Hi; simpl in Hi.
  - lia.
  - destruct i as [|i].
    + reflexivity.
    + change (hd :: firstn (S i) (list_set tl i v) = hd :: (firstn i tl ++ [v])).
      rewrite IH by lia. reflexivity.
Qed.

Lemma repeat_snoc {T : Type} (v : T) (n : nat) : repeat v n ++ [v] = repeat v (S n).
Proof.
  induction n as [|n IH]; simpl; [reflexivity|].
  rewrite IH. reflexivity.
Qed.

Lemma zero_loop_length {T : Type} (zero : T) (count i : nat) (l : list T) :
  length (zero_loop zero i count l) = length l.
Proof.
  revert i l. induction count as [|count IH]; intros i l; simpl.
  - reflexivity.
  - rewrite IH. apply list_set_length.
Qed.

(** The loop extends a zero prefix of length [i] to one of length
    [i + count]. *)
Lemma zero_loop_prefix {T : Type} (zero : T) (count i : nat) (l : list T) :
  (i + count <= length l)%nat ->
  firstn i l = repeat zero i ->
  firstn (i + count) (zero_loop zero i count l) = repeat zero (i + count).
Proof.
  revert i l. induction count as [|count IH]; intros i l Hlen Hpre; simpl.
  - rewrite Nat.add_0_r. exact Hpre.
  - replace (i + S count)%nat with (S i + count)%nat by lia.
    apply IH.
    + rewrite list_set_length. lia.
    + rewrite list_set_firstn_snoc by lia.
      rewrite Hpre. apply repeat_snoc.
Qed.

Lemma zero_fill_elems {T : Type} (zero : T) (s : slice T) :
  (slen s <= length (backing s))%nat ->
  elems (zero_fill zero s) = repeat zero (slen s).
Proof.
  intros H. unfold elems, zero_fill. simpl.
  apply (zero_loop_prefix zero (slen s) 0 (backing s)); [lia | reflexivity].
Qed.

Lemma zeros_elems {T : Type} (zero : T) (n : Z) :
  elems (zeros zero n) = repeat zero (Z.to_nat n).
Proof.
  unfold elems, zeros. simpl.
  rewrite firstn_all2; [reflexivity | rewrite repeat_length; lia].
Qed.

(** The outcome of [make]. *)
Lemma make_outcome {T : Type} (elemsize : Z) (zero : T) (n : Z) :
  match make elemsize zero n with
  | Ok s => 0 <= n /\ elemsize * n <= maxAlloc /\ s = zeros zero n
  | Panic => n < 0 \/ maxAlloc < elemsize * n
  end.
Proof.
  unfold make.
  destruct (0 <=? n) eqn:H0; destruct (elemsize * n <=? maxAlloc) eqn:H1; simpl;
    try (apply Z.leb_le in H0); try (apply Z.leb_le in H1);
    try (apply Z.leb_gt in H0); try (apply Z.leb_gt in H1); auto.
Qed.

Lemma make_Ok {T : Type} (elemsize : Z) (zero : T) (n : Z) :
  0 <= n -> elemsize * n <= maxAlloc -> make elemsize zero n = Ok (zeros zero n).
Proof.
  intros H0 H1. unfold make.
  assert (E : (0 <=? n) && (elemsize * n <=? maxAlloc) = true).
  { apply andb_true_iff. split; apply Z.leb_le; assumption. }
  rewrite E. reflexivity.
Qed.

Lemma Forall_repeat {T : Type} (v : T) (n : nat) : Forall (fun x => x = v) (repeat v n).
Proof. induction n; simpl; constructor; auto. Qed.

(** ** [Reset] *)

Lemma prepare_make {T : Type} (zero : T) (n : Z) :
  0 <= n -> prepared zero n (zeros zero n).
Proof.
  intros Hn. split.
  - unfold len, zeros. simpl. lia.
  - apply zeros_elems.
Qed.

Lemma prepare_reslice {T : Type} (zero : T) (n : Z) (s : slice T) :
  match reslice s n with
  | Ok s' => 0 <= n <= cap s /\ prepared zero n (zero_fill zero s')
  | Panic => n < 0 \/ cap s < n
  end.
Proof.
  unfold reslice.
  destruct (0 <=? n) eqn:H0; destruct (n <=? cap s) eqn:H1; simpl;
    try (apply Z.leb_le in H0); try (apply Z.leb_le in H1);
    try (apply Z.leb_gt in H0); try (apply Z.leb_gt in H1); try lia.
  split; [lia|]. split.
  - unfold len, zero_fill. simpl. lia.
  - rewrite zero_fill_elems; [reflexivity|]. simpl. unfold cap in H1. lia.
Qed.

(** The outcome of [Reset], field by field. *)
Lemma Reset_outcome (z : Rasterizer) (w h : Z) :
  match Reset z w h with
  | Ok z' =>
      0 <= int_mul w h /\
      size z' = mkPoint w h /\ first z' = vec2_zero /\ pen z' = vec2_zero /\
      DrawOp z' = Over /\
      useFloatingPointMath z' =
        ((floatingPointMathThreshold <? w) || (floatingPointMathThreshold <? h)) /\
      (if useFloatingPointMath z'
       then prepared f32_zero (int_mul w h) (bufF32 z') /\ bufU32 z' = bufU32 z
       else prepared 0 (int_mul w h) (bufU32 z') /\ bufF32 z' = bufF32 z)
  | Panic =>
      int_mul w h < 0 \/
      (Reset_allocates z w h = true /\ maxAlloc < 4 * int_mul w h)
  end.
Proof.
  unfold Reset, setUseFloatingPointMath, Reset_allocates. simpl.
  set (n := int_mul w h).
  destruct ((floatingPointMathThreshold <? w) || (floatingPointMathThreshold <? h)); simpl.
  - destruct (cap (bufF32 z) <? n) eqn:Hc.
    + pose proof (make_outcome 4 f32_zero n) as M.
      destruct (make 4 f32_zero n) as [s|]; cbn [rbind].
      * destruct M as (Hn & _ & ->). simpl.
        repeat split; auto; apply prepare_make; assumption.
      * apply Z.ltb_lt in Hc. unfold cap in Hc. right. split; [reflexivity|].
        destruct M as [M|M]; [lia | exact M].
    + apply Z.ltb_ge in Hc.
      pose proof (prepare_reslice f32_zero n (bufF32 z)) as P.
      destruct (reslice (bufF32 z) n); simpl.
      * destruct P as [Hn P]. repeat split; auto; try apply P; lia.
      * left. lia.
  - destruct (cap (bufU32 z) <? n) eqn:Hc.
    + pose proof (make_outcome 4 0 n) as M.
      destruct (make 4 0 n) as [s|]; cbn [rbind].
      * destruct M as (Hn & _ & ->). simpl.
        repeat split; auto; apply prepare_make; assumption.
      * apply Z.ltb_lt in Hc. unfold cap in Hc. right. split; [reflexivity|].
        destruct M as [M|M]; [lia | exact M].
    + apply Z.ltb_ge in Hc.
      pose proof (prepare_reslice 0 n (bufU32 z)) as P.
      destruct (reslice (bufU32 z) n); simpl.
      * destruct P as [Hn P]. repeat split; auto; try apply P; lia.
      * left. lia.
Qed.

(** [Reset] panics on a negative sample count (the slice expression) and on
    an allocation beyond the runtime's limit, and in no other case. *)
Lemma Reset_panics_iff (z : Rasterizer) (w h : Z) :
  Reset z w h = Panic <->
  int_mul w h < 0 \/ (Reset_allocates z w h = true /\ maxAlloc < 4 * int_mul w h).
Proof.
  split.
  - intros E. pose proof (Reset_outcome z w h) as O. rewrite E in O. exact O.
  - unfold Reset, setUseFloatingPointMath, Reset_allocates. simpl.
    set (n := int_mul w h).
    assert (Hmake : forall (T : Type) (zero : T), n < 0 \/ maxAlloc < 4 * n ->
              make 4 zero n = Panic).
    { intros T zero H. unfold make.
      destruct (0 <=? n) eqn:H0; [|reflexivity].
      destruct (4 * n <=? maxAlloc) eqn:H1; [|reflexivity].
      apply Z.leb_le in H0. apply Z.leb_le in H1. lia. }
    assert (Hres : forall (T : Type) (s : slice T), n < 0 -> reslice s n = Panic).
    { intros T s H. unfold reslice.
      destruct (0 <=? n) eqn:H0; [apply Z.leb_le in H0; lia | reflexivity]. }
    destruct ((floatingPointMathThreshold <? w) || (floatingPointMathThreshold <? h)); simpl.
    + destruct (cap (bufF32 z) <? n) eqn:Hc.
      * intros [H|[_ H]]; rewrite Hmake by auto; reflexivity.
      * intros [H|[H _]]; [|discriminate H]. rewrite Hres by exact H. reflexivity.
    + destruct (cap (bufU32 z) <? n) eqn:Hc.
      * intros [H|[_ H]]; rewrite Hmake by auto; reflexivity.
      * intros [H|[H _]]; [|discriminate H]. rewrite Hres by exact H. reflexivity.
Qed.

Lemma prepared_all_zero {T : Type} (zero : T) (n : Z) (s : slice T) :
  prepared zero n s -> Forall (fun v => v = zero) (elems s).
Proof. intros [_ E]. rewrite E. apply Forall_repeat. Qed.

(** C1.  For every [w] and [h], when [Reset] (or [NewRasterizer]) returns,
    [pen] and [first] are the origin, [DrawOp] is [Over], and the active
    buffer ([bufF32] in floating mode, [bufU32] otherwise) is a slice of
    exactly [w*h] elements, each of them zero: its elements are the list of
    [w*h] zeros.  The call returns unless the product [w*h] (as an [int]) is
    negative or too large for the allocator. *)
Theorem Reset_initial_state (z : Rasterizer) (w h : Z) :
  match Reset z w h with
  | Ok z' =>
      pen z' = vec2_zero /\ first z' = vec2_zero /\ DrawOp z' = Over /\
      active_all_zero z' /\ active_len z' = int_mul w h /\
      active_prepared z' (int_mul w h)
  | Panic => int_mul w h < 0 \/ maxAlloc < 4 * int_mul w h
  end /\
  match NewRasterizer w h with
  | Ok z' =>
      pen z' = vec2_zero /\ first z' = vec2_zero /\ DrawOp z' = Over /\
      active_all_zero z' /\ active_len z' = int_mul w h /\
      active_prepared z' (int_mul w h)
  | Panic => int_mul w h < 0 \/ maxAlloc < 4 * int_mul w h
  end.
Proof.
  assert (G : forall z0,
    match Reset z0 w h with
    | Ok z' =>
        pen z' = vec2_zero /\ first z' = vec2_zero /\ DrawOp z' = Over /\
        active_all_zero z' /\ active_len z' = int_mul w h /\
        active_prepared z' (int_mul w h)
    | Panic => int_mul w h < 0 \/ maxAlloc < 4 * int_mul w h
    end).
  { intros z0. pose proof (Reset_outcome z0 w h) as O.
    destruct (Reset z0 w h) as [z'|].
    - destruct O as (_ & _ & Hf & Hp & Hop & _ & Hbuf).
      split; [exact Hp|]. split; [exact Hf|]. split; [exact Hop|].
      unfold active_all_zero, active_len, active_prepared.
      destruct (useFloatingPointMath z'); destruct Hbuf as [P _];
        (split; [exact (prepared_all_zero _ _ _ P)|]);
        (split; [exact (proj1 P) | exact P]).
    - destruct O as [O|[_ O]]; [left | right]; exact O. }
  split; [apply G | apply (G zeroRasterizer)].
Qed.

(** C4.  [Reset(w, h)] selects floating-point math exactly when [w > 2048]
    or [h > 2048], that is when [max(w, h) > 2048]; otherwise it selects
    fixed-point math.  The threshold constant is 2048. *)
Theorem Reset_selects_math_mode (z : Rasterizer) (w h : Z) :
  floatingPointMathThreshold = 2048 /\
  match Reset z w h with
  | Ok z' =>
      (useFloatingPointMath z' = true <-> (w > 2048 \/ h > 2048)) /\
      (useFloatingPointMath z' = true <-> Z.max w h > 2048) /\
      (useFloatingPointMath z' = false <-> (w <= 2048 /\ h <= 2048))
  | Panic => int_mul w h < 0 \/ maxAlloc < 4 * int_mul w h
  end.
Proof.
  split; [reflexivity|].
  pose proof (Reset_outcome z w h) as O.
  destruct (Reset z w h) as [z'|];
    [|destruct O as [O|[_ O]]; [left | right]; exact O].
  destruct O as (_ & _ & _ & _ & _ & Hm & _).
  rewrite Hm. unfold floatingPointMathThreshold.
  destruct (2048 <? w) eqn:Hw; destruct (2048 <? h) eqn:Hh; simpl;
    try (apply Z.ltb_lt in Hw); try (apply Z.ltb_lt in Hh);
    try (apply Z.ltb_ge in Hw); try (apply Z.ltb_ge in Hh);
    repeat split; intros; try lia; try reflexivity; try discriminate.
Qed.

(** [NewRasterizer] starts from empty buffers: it allocates whenever there
    is a sample to hold. *)
Lemma NewRasterizer_panics_iff (w h : Z) :
  NewRasterizer w h = Panic <-> int_mul w h < 0 \/ maxAlloc < 4 * int_mul w h.
Proof.
  unfold NewRasterizer. rewrite Reset_panics_iff.
  assert (A : Reset_allocates zeroRasterizer w h = (0 <? int_mul w h)).
  { unfold Reset_allocates.
    destruct ((floatingPointMathThreshold <? w) || (floatingPointMathThreshold <? h));
      reflexivity. }
  rewrite A. unfold maxAlloc. split.
  - intros [H|[_ H]]; [left | right]; exact H.
  - intros [H|H]; [left; exact H | right].
    split; [apply Z.ltb_lt; lia | exact H].
Qed.

(** C7, as the code has it.  [Reset] and [NewRasterizer] do not validate
    the size.  Let [n] be [w*h] as the code computes it, in [int] arithmetic
    (wrapping around at 64 bits).  With a negative [w] or [h], [Reset]
    panics exactly when [n < 0] (the slice expression [buf[:n]]) or when the
    buffer of the selected math mode has a capacity below [n] and [4*n]
    bytes are more than the allocator accepts ([make]); [NewRasterizer],
    which starts from empty buffers, panics exactly when [n < 0] or [4*n]
    bytes are more than the allocator accepts.  In every other case the call
    returns, and whenever it returns the size is recorded as given.  When
    the product [w*h] fits an [int], [n] is that product, and it is negative
    exactly when one dimension is negative and the other positive. *)
Theorem Reset_negative_size (z : Rasterizer) (w h : Z) :
  w < 0 \/ h < 0 ->
  (Reset z w h = Panic <->
     int_mul w h < 0 \/
     (Reset_allocates z w h = true /\ maxAlloc < 4 * int_mul w h)) /\
  (NewRasterizer w h = Panic <->
     int_mul w h < 0 \/ maxAlloc < 4 * int_mul w h) /\
  (forall z', Reset z w h = Ok z' -> size z' = mkPoint w h) /\
  (forall z', NewRasterizer w h = Ok z' -> size z' = mkPoint w h) /\
  (min_int <= w * h <= max_int ->
     int_mul w h = w * h /\
     (int_mul w h < 0 <-> (w < 0 /\ 0 < h) \/ (0 < w /\ h < 0))).
Proof.
  intros Hneg.
  assert (Hsize : forall z0 z', Reset z0 w h = Ok z' -> size z' = mkPoint w h).
  { intros z0 z' Hz. pose proof (Reset_outcome z0 w h) as O. rewrite Hz in O.
    destruct O as (_ & Hs & _). exact Hs. }
  split; [apply Reset_panics_iff|].
  split; [apply NewRasterizer_panics_iff|].
  split; [apply Hsize|].
  split; [apply Hsize|].
  intros Hfit.
  assert (E : int_mul w h = w * h) by (apply to_int_small; exact Hfit).
  split; [exact E|]. rewrite E. split; intros; nia.
Qed.

Lemma Reset_negative_size_witness :
  (Reset zeroRasterizer (-3) 2 = Panic <->
     int_mul (-3) 2 < 0 \/
     (Reset_allocates zeroRasterizer (-3) 2 = true /\ maxAlloc < 4 * int_mul (-3) 2)) /\
  (NewRasterizer (-3) 2 = Panic <->
     int_mul (-3) 2 < 0 \/ maxAlloc < 4 * int_mul (-3) 2) /\
  (forall z', Reset zeroRasterizer (-3) 2 = Ok z' -> size z' = mkPoint (-3) 2) /\
  (forall z', NewRasterizer (-3) 2 = Ok z' -> size z' = mkPoint (-3) 2) /\
  (min_int <= -3 * 2 <= max_int ->
     int_mul (-3) 2 = -3 * 2 /\
     (int_mul (-3) 2 < 0 <-> (-3 < 0 /\ 0 < 2) \/ (0 < -3 /\ 2 < 0))).
Proof.
  apply (Reset_negative_size zeroRasterizer (-3) 2).
  left. lia.
Defined.

(** C7, as stated, fails: [NewRasterizer(-1, -1)] returns normally, with a
    one-element buffer and the size recorded as [(-1, -1)]. *)
Lemma negative_size_not_rejected :
  NewRasterizer (-1) (-1) =
    Ok (mkRasterizer nil_slice (mkSlice [0] 1) false (mkPoint (-1) (-1))
          vec2_zero vec2_zero Over) /\
  NewRasterizer (-1) (-1) <> Panic.
Proof.
  assert (E : NewRasterizer (-1) (-1) =
    Ok (mkRasterizer nil_slice (mkSlice [0] 1) false (mkPoint (-1) (-1))
          vec2_zero vec2_zero Over)) by (vm_compute; reflexivity).
  split; [exact E | rewrite E; discriminate].
Qed.

(** Negative sizes at the limits.  [(-3, 2)] panics on the slice expression;
    [(-2^31, -2^31)] asks [make] for 2^62 samples and panics there;
    [(-2^32, 2^32)] has a product that wraps around to 0 and returns, in
    floating-point mode with an empty buffer. *)
Example Reset_negative_size_examples :
  NewRasterizer (-3) 2 = Panic /\
  NewRasterizer (- 2 ^ 31) (- 2 ^ 31) = Panic /\
  NewRasterizer (- 2 ^ 32) (2 ^ 32) =
    Ok (mkRasterizer nil_slice nil_slice true (mkPoint (- 2 ^ 32) (2 ^ 32))
          vec2_zero vec2_zero Over).
Proof. repeat split; vm_compute; reflexivity. Qed.

(** C9.  [clamp(i, w)], for an [int32] [i] and a non-negative [int32] [w]:
    0 when [i < 0], [i] when [0 <= i < w], [w] when [i >= w]; the result
    always lies in [[0, w]]. *)
Theorem clamp_spec (i w : Z) :
  is_int32 i -> is_int32 w -> 0 <= w ->
  (i < 0 -> clamp i w = 0) /\
  (0 <= i < w -> clamp i w = i) /\
  (w <= i -> clamp i w = w) /\
  0 <= clamp i w <= w.
Proof.
  unfold is_int32, clamp. intros Hi Hw H0.
  destruct (i <? 0) eqn:Hn.
  - apply Z.ltb_lt in Hn. repeat split; intros; lia.
  - apply Z.ltb_ge in Hn. destruct (i <? w) eqn:Hlt.
    + apply Z.ltb_lt in Hlt. rewrite to_uint_small by lia.
      repeat split; intros; lia.
    + apply Z.ltb_ge in Hlt. rewrite to_uint_small by lia.
      repeat split; intros; lia.
Qed.

Lemma clamp_spec_witness :
  (7 < 0 -> clamp 7 4 = 0) /\
  (0 <= 7 < 4 -> clamp 7 4 = 7) /\
  (4 <= 7 -> clamp 7 4 = 4) /\
  0 <= clamp 7 4 <= 4.
Proof.
  apply (clamp_spec 7 4); unfold is_int32; lia.
Defined.

(** C10.  The zero value [Rasterizer{}] is a rasterizer of zero width and
    height: [Size()] is [(0, 0)], [Bounds()] is the empty rectangle from
    [(0, 0)] to [(0, 0)], [Pen()] is [(0, 0)] and [DrawOp] is [Over].  It is
    the very state [NewRasterizer(0, 0)] returns. *)
Theorem zero_value_usable :
  Size zeroRasterizer = mkPoint 0 0 /\
  Bounds zeroRasterizer = mkRect (mkPoint 0 0) (mkPoint 0 0) /\
  Pen zeroRasterizer = vec2_zero /\
  DrawOp zeroRasterizer = Over /\
  NewRasterizer 0 0 = Ok zeroRasterizer.
Proof.
  repeat split.
Qed.

(** ** Path commands *)

Lemma skip_then (c : Cmd) (z : Rasterizer) : (skip ;;; c) z = c z.
Proof.
  unfold then_cmd, skip. destruct (c z) as [z' l]. reflexivity.
Qed.

Lemma then_cmd_unfold (c1 c2 : Cmd) (z : Rasterizer) :
  (c1 ;;; c2) z =
    (state_of (c2 (state_of (c1 z))), calls_of (c1 z) ++ calls_of (c2 (state_of (c1 z)))).
Proof.
  unfold then_cmd, state_of, calls_of.
  destruct (c1 z) as [z1 l1]. simpl. destruct (c2 z1) as [z2 l2]. reflexivity.
Qed.

(** [LineTo] leaves the start of the subpath alone (by the modelled
    [fixedLineTo] and [floatingLineTo]) and moves the pen. *)
Lemma LineTo_first {K : Kernels} (b : Vec2) (z : Rasterizer) :
  first (state_of (LineTo b z)) = first z.
Proof.
  unfold LineTo, state_of. simpl. destruct (useFloatingPointMath z); reflexivity.
Qed.

Lemma LineTo_pen {K : Kernels} (b : Vec2) (z : Rasterizer) :
  pen (state_of (LineTo b z)) = b.
Proof.
  unfold LineTo, state_of. simpl. destruct (useFloatingPointMath z); reflexivity.
Qed.

(** C5.  [ClosePath()] is [LineTo(first)]: same next state (buffers, pen
    and all other fields) and same call.  Hence [MoveTo(a); LineTo(b);
    ClosePath()] and [MoveTo(a); LineTo(b); LineTo(a)] end in the same
    state. *)
Theorem ClosePath_is_LineTo_first {K : Kernels} :
  (forall z : Rasterizer, ClosePath z = LineTo (first z) z) /\
  (forall (a b : Vec2) (z : Rasterizer),
     (MoveTo a ;;; LineTo b ;;; ClosePath) z = (MoveTo a ;;; LineTo b ;;; LineTo a) z).
Proof.
  split.
  - intros z. reflexivity.
  - intros a b z.
    rewrite !then_cmd_unfold. unfold ClosePath.
    rewrite LineTo_first. reflexivity.
Qed.

(** ** The flattening threshold *)

Lemma f32_0_333_value : f32_0_333 = S754_finite false 11173626 (-25).
Proof. vm_compute. reflexivity. Qed.

Lemma f32_third_value : f32_third = S754_finite false 11184811 (-25).
Proof. vm_compute. reflexivity. Qed.

(** 1/3 lies strictly between the neighbouring binary32 values
    11184810 * 2^-25 and 11184811 * 2^-25. *)
Lemma f32_third_brackets : 3 * 11184810 < 2 ^ 25 < 3 * 11184811.
Proof. lia. Qed.

Lemma SFcompare_pos (m1 m2 : positive) (e1 e2 : Z) :
  SFcompare (S754_finite false m1 e1) (S754_finite false m2 e2) =
    Some (match Z.compare e1 e2 with
          | Lt => Lt
          | Gt => Gt
          | Eq => Pos.compare m1 m2
          end).
Proof. reflexivity. Qed.

Lemma digits2_bounds (m : positive) :
  2 ^ (Zpos (digits2_pos m) - 1) <= Zpos m < 2 ^ Zpos (digits2_pos m).
Proof.
  induction m as [m IH|m IH|]; simpl digits2_pos.
  - rewrite Pos2Z.inj_succ, Z.pow_succ_r by lia.
    replace (Z.succ (Zpos (digits2_pos m)) - 1) with (Z.succ (Zpos (digits2_pos m) - 1)) by lia.
    rewrite Z.pow_succ_r by lia. rewrite (Pos2Z.inj_xI m). lia.
  - rewrite Pos2Z.inj_succ, Z.pow_succ_r by lia.
    replace (Z.succ (Zpos (digits2_pos m)) - 1) with (Z.succ (Zpos (digits2_pos m) - 1)) by lia.
    rewrite Z.pow_succ_r by lia. rewrite (Pos2Z.inj_xO m). lia.
  - simpl. lia.
Qed.

(** On binary32 values in canonical form, the comparison with [f32_third]
    decides whether the value is below the real number 1/3. *)
Lemma f32_lt_third_exact (x : float32) :
  valid_binary 24 128 x = true -> f32_lt x f32_third = value_below_third x.
Proof.
  rewrite f32_third_value. unfold f32_lt, SFltb.
  destruct x as [s|s| |s m e]; try reflexivity.
  - destruct s; reflexivity.
  - destruct s; [reflexivity|].
    unfold valid_binary, bounded, canonical_mantissa, fexp, emin.
    intros V. apply andb_true_iff in V. destruct V as [V _]. apply Z.eqb_eq in V.
    pose proof (digits2_bounds m) as [Dlo Dhi].
    set (d := Zpos (digits2_pos m)) in *.
    assert (Hd : 0 < d) by (unfold d; lia).
    rewrite SFcompare_pos. unfold value_below_third.
    destruct (Z.compare_spec e (-25)) as [He|He|He].
    + subst e. change (0 <=? -25) with false. change (2 ^ (- -25)) with 33554432.
      destruct (Pos.compare_spec m 11184811) as [E|E|E].
      * subst m. reflexivity.
      * apply Pos2Z.pos_lt_pos in E. symmetry. apply Z.ltb_lt. lia.
      * apply Pos2Z.pos_lt_pos in E. symmetry. apply Z.ltb_ge. lia.
    + destruct (0 <=? e) eqn:H0; [apply Z.leb_le in H0; lia|].
      symmetry. apply Z.ltb_lt.
      assert (d <= 24) by lia.
      assert (Zpos m < 2 ^ 24).
      { apply Z.lt_le_trans with (1 := Dhi). apply Z.pow_le_mono_r; lia. }
      assert (2 ^ 26 <= 2 ^ (- e)) by (apply Z.pow_le_mono_r; lia).
      change (2 ^ 24) with 16777216 in *. change (2 ^ 26) with 67108864 in *. lia.
    + destruct (0 <=? e) eqn:H0; [reflexivity|]. apply Z.leb_gt in H0.
      symmetry. apply Z.ltb_ge.
      assert (d = 24) by lia.
      assert (2 ^ 23 <= Zpos m).
      { replace 23 with (d - 1) by lia. exact Dlo. }
      assert (2 ^ (- e) <= 2 ^ 24) by (apply Z.pow_le_mono_r; lia).
      change (2 ^ 24) with 16777216 in *. change (2 ^ 23) with 8388608 in *. lia.
Qed.

(** Away from NaN, [>= 1/3] is the negation of [< 1/3]. *)
Lemma f32_ge_third_exact (x : float32) :
  is_nan x = false -> f32_ge x f32_third = negb (f32_lt x f32_third).
Proof.
  rewrite f32_third_value. unfold f32_ge, f32_lt, SFleb, SFltb.
  destruct x as [s|s| |s m e]; try reflexivity; try discriminate.
  - destruct s; reflexivity.
  - intros _. destruct s; [reflexivity|].
    rewrite !SFcompare_pos. rewrite (Z.compare_antisym e (-25)).
    destruct (e ?= -25); try reflexivity. simpl CompOpp.
    rewrite (Pos.compare_antisym m 11184811).
    destruct (m ?= 11184811)%positive; reflexivity.
Qed.

Lemma forall_range_sound (f : Z -> bool) (count : nat) (lo : Z) :
  forall_range f lo count = true ->
  forall v, lo <= v < lo + Z.of_nat count -> f v = true.
Proof.
  revert lo. induction count as [|count IH]; intros lo H v Hv; simpl in H.
  - lia.
  - apply andb_true_iff in H. destruct H as [H0 H1].
    destruct (Z.eq_dec v lo) as [->|Hne]; [exact H0|].
    apply (IH (lo + 1) H1). lia.
Qed.

(** A [float32] that the code compares [>= 0.333] and that is below 1/3 is
    one of the 11185 values [m * 2^-25], [11173626 <= m <= 11184810]. *)
Lemma gap_shape (x : float32) :
  f32_ge x f32_0_333 = true -> f32_lt x f32_third = true ->
  exists m : positive,
    x = S754_finite false m (-25) /\ 11173626 <= Zpos m <= 11184810.
Proof.
  rewrite f32_0_333_value, f32_third_value. unfold f32_ge, f32_lt, SFleb, SFltb.
  destruct x as [s|s| |s m e].
  - cbn. discriminate.
  - destruct s; cbn; discriminate.
  - cbn. discriminate.
  - destruct s; [cbn; discriminate|].
    rewrite !SFcompare_pos.
    destruct (Z.compare_spec (-25) e) as [He|He|He].
    + subst e. rewrite Z.compare_refl.
      intros H1 H2. exists m. split; [reflexivity|].
      assert (A : 11173626 <= Zpos m).
      { destruct (Pos.compare_spec 11173626 m) as [E|E|E]; try discriminate H1.
        - subst m. apply Z.le_refl.
        - apply Pos2Z.pos_lt_pos in E. apply Z.lt_le_incl. exact E. }
      assert (B : Zpos m < 11184811).
      { destruct (Pos.compare_spec m 11184811) as [E|E|E]; try discriminate H2.
        apply Pos2Z.pos_lt_pos in E. exact E. }
      lia.
    + intros _. destruct (Z.compare_spec e (-25)) as [E|E|E]; try discriminate; lia.
    + discriminate.
Qed.

Lemma gap_segments_check :
  forall_range (fun v => segments (S754_finite false (Z.to_pos v) (-25)) =? 1)
    11173626 (Z.to_nat 11185) = true.
Proof. vm_compute. reflexivity. Qed.

(** In that gap the segment count is 1, so the loop body never runs. *)
Lemma gap_segments (x : float32) :
  f32_ge x f32_0_333 = true -> f32_lt x f32_third = true -> segments x = 1.
Proof.
  intros Hge Hlt. destruct (gap_shape x Hge Hlt) as (m & -> & Hm).
  pose proof (forall_range_sound _ _ _ gap_segments_check (Zpos m)) as C.
  simpl Z.to_pos in C. apply Z.eqb_eq. apply C. lia.
Qed.

Lemma QuadTo_flat {K : Kernels} (z : Rasterizer) (b c : Vec2) :
  f32_lt (devSquared (pen z) b c) f32_third = true ->
  QuadTo b c z = LineTo c z.
Proof.
  intros Hlt. unfold QuadTo.
  destruct (f32_ge (devSquared (pen z) b c) f32_0_333) eqn:Hge.
  - rewrite (gap_segments _ Hge Hlt).
    change (Z.to_nat (int_sub 1 1)) with 0%nat. simpl quadLoop.
    apply skip_then.
  - apply skip_then.
Qed.

Lemma cubeDevSquared_below (a b c d : Vec2) (bound : float32) :
  f32_lt (devSquared a b d) bound = true ->
  f32_lt (devSquared a c d) bound = true ->
  f32_lt (cubeDevSquared a b c d) bound = true.
Proof.
  intros H1 H2. unfold cubeDevSquared.
  destruct (f32_lt (devSquared a b d) (devSquared a c d)); assumption.
Qed.

Lemma CubeTo_flat {K : Kernels} (z : Rasterizer) (b c d : Vec2) :
  f32_lt (cubeDevSquared (pen z) b c d) f32_third = true ->
  CubeTo b c d z = LineTo d z.
Proof.
  intros Hlt. unfold CubeTo.
  destruct (f32_ge (cubeDevSquared (pen z) b c d) f32_0_333) eqn:Hge.
  - rewrite (gap_segments _ Hge Hlt).
    change (Z.to_nat (int_sub 1 1)) with 0%nat. simpl cubeLoop.
    apply skip_then.
  - apply skip_then.
Qed.

(** C2.  When the curvature estimate is below 1/3 - [devSquared(a, b, c)]
    for [QuadTo(b, c)] from pen [a]; both [devSquared(a, b, d)] and
    [devSquared(a, c, d)], i.e. their maximum, for [CubeTo(b, c, d)] - the
    command makes exactly one [LineTo] call, to the curve's endpoint, and has
    that call's effect.  (The code tests [devsq >= 0.333]; for the binary32
    values between 0.333 and 1/3 the segment count is 1.) *)
Theorem flat_curve_is_one_LineTo {K : Kernels} :
  (forall (z : Rasterizer) (b c : Vec2),
     f32_lt (devSquared (pen z) b c) f32_third = true ->
     QuadTo b c z = LineTo c z /\ calls_of (QuadTo b c z) = [c]) /\
  (forall (z : Rasterizer) (b c d : Vec2),
     f32_lt (devSquared (pen z) b d) f32_third = true ->
     f32_lt (devSquared (pen z) c d) f32_third = true ->
     CubeTo b c d z = LineTo d z /\ calls_of (CubeTo b c d z) = [d]).
Proof.
  split.
  - intros z b c H. rewrite (QuadTo_flat z b c H). split; reflexivity.
  - intros z b c d H1 H2.
    rewrite (CubeTo_flat z b c d (cubeDevSquared_below _ _ _ _ _ H1 H2)).
    split; reflexivity.
Qed.

(** ** The cubic's curvature estimate is the greater of the two *)

Lemma SFcompare_antisym (x y : spec_float) :
  SFcompare y x = option_map CompOpp (SFcompare x y).
Proof.
  destruct x as [s1|s1| |s1 m1 e1]; destruct y as [s2|s2| |s2 m2 e2];
    try reflexivity;
    try (destruct s1; reflexivity); try (destruct s2; reflexivity);
    try (destruct s1; destruct s2; reflexivity).
  destruct s1; destruct s2; try reflexivity; simpl;
    rewrite (Z.compare_antisym e1 e2); destruct (e1 ?= e2); try reflexivity; simpl;
    rewrite !Pos.compare_cont_spec; simpl;
    rewrite (Pos.compare_antisym m1 m2); destruct (m1 ?= m2)%positive; reflexivity.
Qed.

Lemma SFcompare_refl (x : spec_float) :
  is_nan x = false -> SFcompare x x = Some Eq.
Proof.
  destruct x as [s|s| |s m e]; try reflexivity; try discriminate; intros _.
  - destruct s; reflexivity.
  - destruct s; simpl; rewrite Z.compare_refl, Pos.compare_cont_spec, Pos.compare_refl;
      reflexivity.
Qed.

(** [cubeDevSquared] picks one of the two estimates, and neither of them
    compares greater than the one picked. *)
Lemma cubeDevSquared_max (a b c d : Vec2) :
  is_nan (devSquared a b d) = false -> is_nan (devSquared a c d) = false ->
  (cubeDevSquared a b c d = devSquared a b d \/
   cubeDevSquared a b c d = devSquared a c d) /\
  f32_lt (cubeDevSquared a b c d) (devSquared a b d) = false /\
  f32_lt (cubeDevSquared a b c d) (devSquared a c d) = false.
Proof.
  intros Nx Ny. unfold cubeDevSquared.
  set (x := devSquared a b d) in *. set (y := devSquared a c d) in *.
  destruct (f32_lt x y) eqn:L.
  - split; [right; reflexivity|]. split.
    + unfold f32_lt, SFltb in *. rewrite (SFcompare_antisym x y).
      destruct (SFcompare x y) as [[| |]|]; try discriminate. reflexivity.
    + unfold f32_lt, SFltb. rewrite (SFcompare_refl y Ny). reflexivity.
  - split; [left; reflexivity|]. split.
    + unfold f32_lt, SFltb. rewrite (SFcompare_refl x Nx). reflexivity.
    + exact L.
Qed.

(** ** Flattening into segments *)

Lemma lineToAll_snoc {K : Kernels} (pts : list Vec2) (p : Vec2) (z : Rasterizer) :
  lineToAll (pts ++ [p]) z = state_of (LineTo p (lineToAll pts z)).
Proof. unfold lineToAll. rewrite fold_left_app. reflexivity. Qed.

(** The loop of [QuadTo], entered after [j] rounds: round [k] calls
    [LineTo] at the de Casteljau point for the [k]-th running parameter. *)
Lemma quadLoop_calls {K : Kernels} (a b c : Vec2) (nInv : float32) (iters : nat) :
  forall (j : nat) (z : Rasterizer),
    let pts := map (fun k => deCasteljau (stepParam nInv k) [a; b; c]) (seq (S j) iters) in
    quadLoop a b c nInv iters (stepParam nInv j) z = (lineToAll pts z, pts).
Proof.
  induction iters as [|iters IH]; intros j z.
  - reflexivity.
  - cbn zeta. simpl quadLoop. rewrite then_cmd_unfold.
    change (f32_add (stepParam nInv j) nInv) with (stepParam nInv (S j)).
    rewrite (IH (S j)). reflexivity.
Qed.

Lemma cubeLoop_calls {K : Kernels} (a b c d : Vec2) (nInv : float32) (iters : nat) :
  forall (j : nat) (z : Rasterizer),
    let pts := map (fun k => deCasteljau (stepParam nInv k) [a; b; c; d]) (seq (S j) iters) in
    cubeLoop a b c d nInv iters (stepParam nInv j) z = (lineToAll pts z, pts).
Proof.
  induction iters as [|iters IH]; intros j z.
  - reflexivity.
  - cbn zeta. simpl cubeLoop. rewrite then_cmd_unfold.
    change (f32_add (stepParam nInv j) nInv) with (stepParam nInv (S j)).
    rewrite (IH (S j)). reflexivity.
Qed.




Lemma QuadTo_segments {K : Kernels} (z : Rasterizer) (b c : Vec2) :
  f32_ge (devSquared (pen z) b c) f32_0_333 = true ->
  let n := segments (devSquared (pen z) b c) in
  let nInv := f32_div f32_one (f32_of_int n) in
  let pts := flattening (stepParam nInv) n [pen z; b; c] c in
  QuadTo b c z = (lineToAll pts z, pts).
Proof.
  intros Hge n nInv pts. unfold QuadTo. rewrite Hge. cbn zeta.
  rewrite then_cmd_unfold.
  change f32_zero with (stepParam nInv 0).
  fold n. fold nInv.
  rewrite (quadLoop_calls (pen z) b c nInv (Z.to_nat (int_sub n 1)) 0 z).
  cbn zeta. unfold pts, flattening. rewrite lineToAll_snoc. reflexivity.
Qed.

Lemma CubeTo_segments {K : Kernels} (z : Rasterizer) (b c d : Vec2) :
  f32_ge (cubeDevSquared (pen z) b c d) f32_0_333 = true ->
  let n := segments (cubeDevSquared (pen z) b c d) in
  let nInv := f32_div f32_one (f32_of_int n) in
  let pts := flattening (stepParam nInv) n [pen z; b; c; d] d in
  CubeTo b c d z = (lineToAll pts z, pts).
Proof.
  intros Hge n nInv pts. unfold CubeTo. rewrite Hge. cbn zeta.
  rewrite then_cmd_unfold.
  change f32_zero with (stepParam nInv 0).
  fold n. fold nInv.
  rewrite (cubeLoop_calls (pen z) b c d nInv (Z.to_nat (int_sub n 1)) 0 z).
  cbn zeta. unfold pts, flattening. rewrite lineToAll_snoc. reflexivity.
Qed.

Lemma flat_curve_is_one_LineTo_witness :
  (@QuadTo sampleKernels vec2_zero pt_gap zeroRasterizer =
     @LineTo sampleKernels pt_gap zeroRasterizer /\
   calls_of (@QuadTo sampleKernels vec2_zero pt_gap zeroRasterizer) = [pt_gap]) /\
  f32_ge (devSquared (pen zeroRasterizer) vec2_zero pt_gap) f32_0_333 = true.
Proof.
  split.
  - apply (proj1 (@flat_curve_is_one_LineTo sampleKernels) zeroRasterizer vec2_zero pt_gap).
    vm_compute. reflexivity.
  - vm_compute. reflexivity.
Defined.

(** ** The sign and the size of the curvature estimate *)

Lemma binary_round_aux_sign (prec emax : Z) (m e : Z) (l : location) :
  sign_clear (binary_round_aux prec emax false m e l) = true.
Proof.
  unfold binary_round_aux.
  destruct (shr_fexp prec emax m e l) as [mrs e'].
  destruct (shr_fexp prec emax _ e' loc_Exact) as [mrs2 e2].
  destruct (shr_m mrs2); [reflexivity | | reflexivity].
  destruct (e2 <=? emax - prec); reflexivity.
Qed.

Lemma binary_round_sign (prec emax : Z) (m : positive) (e : Z) :
  sign_clear (binary_round prec emax false m e) = true.
Proof.
  unfold binary_round. destruct (shl_align m e _) as [mz ez]. apply binary_round_aux_sign.
Qed.

(** A square has its sign bit clear. *)
Lemma f32_square_sign (x : float32) : sign_clear (f32_mul x x) = true.
Proof.
  destruct x as [[|]|[|]| |[|] m e]; try reflexivity;
    apply (binary_round_aux_sign 24 128).
Qed.

(** So has the sum of two values whose sign bits are clear. *)
Lemma f32_add_sign (x y : float32) :
  sign_clear x = true -> sign_clear y = true -> sign_clear (f32_add x y) = true.
Proof.
  destruct x as [[|]|[|]| |[|] mx ex]; try discriminate;
    destruct y as [[|]|[|]| |[|] my ey]; try discriminate; intros _ _; try reflexivity.
  unfold f32_add, SFadd. cbv zeta. cbn [cond_Zopp].
  apply (binary_round_sign 24 128).
Qed.

Lemma devSquared_sign_clear (a b c : Vec2) : sign_clear (devSquared a b c) = true.
Proof.
  unfold devSquared. cbv zeta. apply f32_add_sign; apply f32_square_sign.
Qed.































(** The running parameter is [k/n] up to rounding only.
    [QuadTo((0,0), (16,0))] from pen [(0,0)] has [devsq = 256] and [n = 6];
    five additions of [float32(1)/float32(6)] give 13981014 * 2^-24,
    whereas [float32(5)/float32(6)] is 13981013 * 2^-24, and the fifth
    point differs in its last bits accordingly. *)
Lemma flattening_parameter_is_not_ratio :
  let z := zeroRasterizer in
  f32_ge (devSquared (pen z) vec2_zero pt_16_0) f32_third = true /\
  segments (devSquared (pen z) vec2_zero pt_16_0) = 6 /\
  stepParam (f32_div f32_one (f32_of_int 6)) 5 = S754_finite false 13981014 (-24) /\
  ratioParam 6 5 = S754_finite false 13981013 (-24) /\
  nth 4 (calls_of (@QuadTo sampleKernels vec2_zero pt_16_0 z)) vec2_zero =
    (S754_finite false 11650846 (-20), f32_zero) /\
  nth 4 (flattening (ratioParam 6) 6 [pen z; vec2_zero; pt_16_0] pt_16_0) vec2_zero =
    (S754_finite false 11650844 (-20), f32_zero) /\
  calls_of (@QuadTo sampleKernels vec2_zero pt_16_0 z) <>
    flattening (ratioParam 6) 6 [pen z; vec2_zero; pt_16_0] pt_16_0.
Proof.
  cbn zeta. repeat split; try (vm_compute; reflexivity).
  intros H. vm_compute in H. discriminate H.
Qed.

(** ** The generic compositing operators *)

Lemma to_uint32_small (x : Z) : 0 <= x < 2 ^ 32 -> to_uint32 x = x.
Proof. unfold to_uint32, wrap_unsigned. intros H. apply Z.mod_small; lia. Qed.

Lemma to_uint16_small (x : Z) : 0 <= x <= 65535 -> to_uint16 x = x.
Proof. unfold to_uint16, wrap_unsigned. intros H. apply Z.mod_small; lia. Qed.

Lemma mul_uint16_bound (x y : Z) :
  is_uint16 x -> is_uint16 y -> 0 <= x * y <= 65535 * 65535.
Proof. unfold is_uint16. intros Hx Hy. nia. Qed.

Lemma overAlpha_exact (sa ma : Z) :
  is_uint16 sa -> is_uint16 ma ->
  overAlpha sa ma = 65535 - sa * ma / 65535 /\ 0 <= overAlpha sa ma <= 65535.
Proof.
  intros Hsa Hma. pose proof (mul_uint16_bound sa ma Hsa Hma) as Hp.
  unfold overAlpha, u32_sub, u32_div, u32_mul.
  rewrite (to_uint32_small (sa * ma)) by lia.
  assert (0 <= sa * ma / 65535 <= 65535).
  { split; [apply Z.div_pos; lia | apply Z.div_le_upper_bound; lia]. }
  rewrite to_uint32_small by lia. lia.
Qed.

(** With a premultiplied source channel the sum [d*a + s*ma] stays below
    [65535 * 65536], so nothing wraps and the quotient is a [uint16]. *)
Lemma overChannel_exact (d s sa ma : Z) :
  is_uint16 d -> is_uint16 s -> is_uint16 sa -> is_uint16 ma -> s <= sa ->
  overChannel d s (overAlpha sa ma) ma =
    (s * ma + d * (65535 - sa * ma / 65535)) / 65535 /\
  0 <= overChannel d s (overAlpha sa ma) ma <= 65535.
Proof.
  intros Hd Hs Hsa Hma Hle.
  destruct (overAlpha_exact sa ma Hsa Hma) as [Ea Ha]. rewrite Ea in *.
  set (q := sa * ma / 65535) in *.
  assert (Hq : 65535 * q <= sa * ma < 65535 * q + 65535).
  { unfold q. pose proof (Z.mul_div_le (sa * ma) 65535).
    pose proof (Z.mul_succ_div_gt (sa * ma) 65535). lia. }
  unfold is_uint16 in *.
  assert (Hda : 0 <= d * (65535 - q) <= 65535 * (65535 - q)) by nia.
  assert (Hsm : 0 <= s * ma <= sa * ma) by nia.
  unfold overChannel, u32_add, u32_div, u32_mul.
  rewrite (to_uint32_small (d * (65535 - q))) by lia.
  rewrite (to_uint32_small (s * ma)) by nia.
  rewrite (to_uint32_small (d * (65535 - q) + s * ma)) by lia.
  assert (Hout : 0 <= (d * (65535 - q) + s * ma) / 65535 < 65536).
  { split; [apply Z.div_pos; lia | apply Z.div_lt_upper_bound; lia]. }
  rewrite to_uint16_small by lia.
  replace (s * ma + d * (65535 - q)) with (d * (65535 - q) + s * ma) by lia.
  split; [reflexivity | lia].
Qed.

Lemma srcChannel_exact (s ma : Z) :
  is_uint16 s -> is_uint16 ma ->
  srcChannel s ma = s * ma / 65535 /\ 0 <= srcChannel s ma <= 65535.
Proof.
  intros Hs Hma. pose proof (mul_uint16_bound s ma Hs Hma) as Hp.
  unfold srcChannel, u32_div, u32_mul.
  rewrite to_uint32_small by lia.
  assert (0 <= s * ma / 65535 <= 65535).
  { split; [apply Z.div_pos; lia | apply Z.div_le_upper_bound; lia]. }
  rewrite to_uint16_small by lia. lia.
Qed.

(** C6, as the code has it.  On the generic path, for 16-bit premultiplied
    source channels, 16-bit destination channels and a mask [ma] in
    [[0, 0xffff]], every output channel under [Over] is
    [(src*ma + dst*(0xffff - src.a*ma/0xffff)) / 0xffff] - one truncating
    division of the sum - and under [Src] it is [src*ma/0xffff]; both are
    exact (no wrap-around) and fit a [uint16]. *)
Theorem generic_operator_formulas (s d : Color) (ma : Z) :
  color16 s -> color16 d -> is_uint16 ma -> premultiplied s ->
  let a := 65535 - ca s * ma / 65535 in
  overPixel s d ma =
    mkRGBA64 ((cr s * ma + cr d * a) / 65535) ((cg s * ma + cg d * a) / 65535)
             ((cb s * ma + cb d * a) / 65535) ((ca s * ma + ca d * a) / 65535) /\
  srcPixel s ma =
    mkRGBA64 (specSrc (cr s) ma) (specSrc (cg s) ma) (specSrc (cb s) ma) (specSrc (ca s) ma) /\
  is_uint16 (R (overPixel s d ma)) /\ is_uint16 (G (overPixel s d ma)) /\
  is_uint16 (B (overPixel s d ma)) /\ is_uint16 (A (overPixel s d ma)).
Proof.
  intros (Hsr & Hsg & Hsb & Hsa) (Hdr & Hdg & Hdb & Hda) Hma (Pr & Pg & Pb) a.
  pose proof (overChannel_exact (cr d) (cr s) (ca s) ma Hdr Hsr Hsa Hma Pr) as [Er Br].
  pose proof (overChannel_exact (cg d) (cg s) (ca s) ma Hdg Hsg Hsa Hma Pg) as [Eg Bg].
  pose proof (overChannel_exact (cb d) (cb s) (ca s) ma Hdb Hsb Hsa Hma Pb) as [Eb Bb].
  pose proof (overChannel_exact (ca d) (ca s) (ca s) ma Hda Hsa Hsa Hma (Z.le_refl _)) as [Ea Ba].
  unfold overPixel, srcPixel, specSrc, is_uint16. simpl.
  rewrite Er, Eg, Eb, Ea in *.
  rewrite (proj1 (srcChannel_exact _ _ Hsr Hma)), (proj1 (srcChannel_exact _ _ Hsg Hma)),
          (proj1 (srcChannel_exact _ _ Hsb Hma)), (proj1 (srcChannel_exact _ _ Hsa Hma)).
  subst a. split; [reflexivity|]. split; [reflexivity|]. tauto.
Qed.

Lemma generic_operator_formulas_witness :
  let s := mkColor 1 2 3 65535 in
  let d := mkColor 1 40000 65535 65535 in
  let ma := 32768 in
  let a := 65535 - ca s * ma / 65535 in
  (overPixel s d ma =
    mkRGBA64 ((cr s * ma + cr d * a) / 65535) ((cg s * ma + cg d * a) / 65535)
             ((cb s * ma + cb d * a) / 65535) ((ca s * ma + ca d * a) / 65535) /\
   srcPixel s ma =
    mkRGBA64 (specSrc (cr s) ma) (specSrc (cg s) ma) (specSrc (cb s) ma) (specSrc (ca s) ma) /\
   is_uint16 (R (overPixel s d ma)) /\ is_uint16 (G (overPixel s d ma)) /\
   is_uint16 (B (overPixel s d ma)) /\ is_uint16 (A (overPixel s d ma))) /\
  overPixel s d ma = mkRGBA64 1 20000 32768 65535.
Proof.
  split.
  - apply (generic_operator_formulas (mkColor 1 2 3 65535) (mkColor 1 40000 65535 65535) 32768);
      unfold color16, premultiplied, is_uint16; simpl; lia.
  - vm_compute. reflexivity.
Defined.

(** C6, as stated, fails under [Over]: the code divides the sum once, and
    the sum of the two truncated quotients can be one less.  For a source
    channel 1 with alpha 0xffff, a destination channel 1 and mask 0x8000 the
    code writes 1, the formula with two divisions gives 0. *)
Lemma over_is_not_a_sum_of_quotients :
  let s := mkColor 1 1 1 65535 in
  let d := mkColor 1 1 1 65535 in
  color16 s /\ color16 d /\ premultiplied s /\
  R (overPixel s d 32768) = 1 /\
  specOver (cr d) (cr s) (ca s) 32768 = 0 /\
  R (overPixel s d 32768) <> specOver (cr d) (cr s) (ca s) 32768.
Proof.
  cbn zeta. unfold color16, premultiplied, is_uint16. simpl.
  repeat split; try lia; try (vm_compute; reflexivity).
  vm_compute. discriminate.
Qed.

(** Without the premultiplication bound the [uint32] sum can wrap: a source
    channel 0xffff with alpha 0 over a destination channel 0xffff at full
    mask gives 0xfffc, whereas the unwrapped quotient is 0x1fffe. *)
Lemma overChannel_wraps_unless_premultiplied :
  overChannel 65535 65535 (overAlpha 0 65535) 65535 = 65532 /\
  (65535 * 65535 + 65535 * (65535 - 0 * 65535 / 65535)) / 65535 = 131070.
Proof. split; vm_compute; reflexivity. Qed.

(** ** The pixel loops *)

Lemma rbind_Ok {A B : Type} (a : A) (k : A -> result B) : rbind (Ok a) k = k a.
Proof. reflexivity. Qed.

(** Invariant rule for [for_loop]. *)
Lemma for_loop_invariant {St : Type} (body : Z -> St -> result St)
    (Inv : Z -> St -> Prop) (count : nat) :
  forall (i : Z) (s : St),
    Inv i s ->
    (forall j t, i <= j < i + Z.of_nat count -> Inv j t ->
       exists t', body j t = Ok t' /\ Inv (j + 1) t') ->
    exists t, for_loop count i body s = Ok t /\ Inv (i + Z.of_nat count) t.
Proof.
  induction count as [|count IH]; intros i s Hinv Hstep.
  - exists s. split; [reflexivity|]. replace (i + Z.of_nat 0) with i by lia. exact Hinv.
  - destruct (Hstep i s) as (t' & Hb & Hinv'); [lia | exact Hinv |].
    destruct (IH (i + 1) t' Hinv') as (t & Hl & Hfin).
    + intros j u Hj Hu. apply Hstep; [lia | exact Hu].
    + exists t. split.
      * simpl. rewrite Hb. simpl. exact Hl.
      * replace (i + Z.of_nat (S count)) with (i + 1 + Z.of_nat count) by lia. exact Hfin.
Qed.

Lemma int_sub_small (x y : Z) : small x -> small y -> int_sub x y = x - y.
Proof.
  unfold small, int_sub. intros Hx Hy. apply to_int_small.
  unfold min_int, max_int. lia.
Qed.

(** The pixel loops on a [PixelMap], when the body replaces the pixel it
    visits by a function [g] of its position and old colour: every pixel of
    the rectangle is replaced once, every other pixel is kept. *)
Lemma for_pixels_map (r : Rectangle) (g : Z -> Z -> RGBA64 -> RGBA64)
    (body : Z -> Z -> PixelMap -> result PixelMap) (m0 : PixelMap) :
  small_point (Min r) -> small_point (Max r) ->
  let dx := X (Max r) - X (Min r) in
  let dy := Y (Max r) - Y (Min r) in
  (forall x y m, 0 <= x < dx -> 0 <= y < dy ->
     body x y m =
       Ok (pm_set m (X (Min r) + x) (Y (Min r) + y)
             (g x y (m (X (Min r) + x) (Y (Min r) + y))))) ->
  exists m',
    for_pixels r body m0 = Ok m' /\
    forall px py,
      let x := px - X (Min r) in
      let y := py - Y (Min r) in
      m' px py = if (0 <=? x) && (x <? dx) && (0 <=? y) && (y <? dy)
                 then g x y (m0 px py) else m0 px py.
Proof.
  intros [HmX HmY] [HMX HMY] dx dy Hbody.
  unfold for_pixels.
  rewrite (int_sub_small _ _ HMY HmY), (int_sub_small _ _ HMX HmX).
  fold dx. fold dy.
  set (visited := fun (yy xx x y : Z) =>
         (0 <= x < dx /\ 0 <= y < yy) \/ (y = yy /\ 0 <= x < xx)).
  set (Inv := fun (yy xx : Z) (m : PixelMap) =>
         forall px py,
           (visited yy xx (px - X (Min r)) (py - Y (Min r)) ->
              m px py = g (px - X (Min r)) (py - Y (Min r)) (m0 px py)) /\
           (~ visited yy xx (px - X (Min r)) (py - Y (Min r)) -> m px py = m0 px py)).
  assert (Hrows : exists m',
    for_loop (Z.to_nat dy) 0
      (fun y s => for_loop (Z.to_nat dx) 0 (fun x s0 => body x y s0) s) m0 = Ok m' /\
    Inv (0 + Z.of_nat (Z.to_nat dy)) 0 m').
  { apply (for_loop_invariant _ (fun yy m => Inv yy 0 m)).
    - intros px py. split; [|reflexivity].
      unfold visited. intros [H|H]; lia.
    - intros y m Hy Hm.
      destruct (for_loop_invariant (fun x s0 => body x y s0) (fun xx m => Inv y xx m)
                  (Z.to_nat dx) 0 m Hm) as (m' & Hl & Hfin).
      + intros x t Hx Ht.
        rewrite Hbody by lia.
        eexists. split; [reflexivity|].
        intros px py. unfold pm_set.
        destruct (Z.eqb_spec px (X (Min r) + x)) as [Epx|Npx];
          destruct (Z.eqb_spec py (Y (Min r) + y)) as [Epy|Npy]; simpl.
        * subst px py. split.
          -- intros _.
             replace (X (Min r) + x - X (Min r)) with x by lia.
             replace (Y (Min r) + y - Y (Min r)) with y by lia.
             f_equal. apply (Ht (X (Min r) + x) (Y (Min r) + y)).
             unfold visited. lia.
          -- unfold visited. intros Hn. exfalso. apply Hn. lia.
        * destruct (Ht px py) as [Hv Hn]. split.
          -- intros V. apply Hv. unfold visited in *. lia.
          -- intros V. apply Hn. unfold visited in *. lia.
        * destruct (Ht px py) as [Hv Hn]. split.
          -- intros V. apply Hv. unfold visited in *. lia.
          -- intros V. apply Hn. unfold visited in *. lia.
        * destruct (Ht px py) as [Hv Hn]. split.
          -- intros V. apply Hv. unfold visited in *. lia.
          -- intros V. apply Hn. unfold visited in *. lia.
      + exists m'. split; [exact Hl|].
        intros px py. destruct (Hfin px py) as [Hv Hn]. split.
        * intros V. apply Hv. unfold visited in *. lia.
        * intros V. apply Hn. unfold visited in *. lia. }
  destruct Hrows as (m' & Hl & Hfin). exists m'. split; [exact Hl|].
  intros px py. cbn zeta.
  destruct (Hfin px py) as [Hv Hn].
  set (x := px - X (Min r)) in *. set (y := py - Y (Min r)) in *.
  destruct ((0 <=? x) && (x <? dx) && (0 <=? y) && (y <? dy)) eqn:E.
  - apply Hv. unfold visited.
    repeat (apply andb_true_iff in E; destruct E as [E ?]).
    apply Z.leb_le in E. left. lia.
  - apply Hn. unfold visited. intros V.
    assert (T : (0 <=? x) && (x <? dx) && (0 <=? y) && (y <? dy) = true).
    { repeat (apply andb_true_iff; split); try apply Z.leb_le; try apply Z.ltb_lt; lia. }
    rewrite T in E. discriminate.
Qed.

Lemma int_add_small (x y : Z) :
  - 2 ^ 61 <= x <= 2 ^ 61 -> - 2 ^ 61 <= y <= 2 ^ 61 -> int_add x y = x + y.
Proof.
  unfold int_add. intros Hx Hy. apply to_int_small. unfold min_int, max_int. lia.
Qed.

Lemma int_mul_small (x y : Z) :
  - 2 ^ 31 <= x <= 2 ^ 31 -> - 2 ^ 31 <= y <= 2 ^ 31 -> int_mul x y = x * y.
Proof.
  unfold int_mul. intros Hx Hy. apply to_int_small. unfold min_int, max_int.
  change (2 ^ 31) with 2147483648 in *. change (2 ^ 63) with 9223372036854775808. nia.
Qed.

Lemma overwrite_length {T : Type} (dst new : list T) :
  length (overwrite dst new) = length dst.
Proof.
  unfold overwrite. rewrite length_app, length_firstn, length_skipn. lia.
Qed.

Lemma slice_update_elems {T : Type} (f : list T -> list T) (s : slice T) :
  elems (slice_update f s) = f (elems s).
Proof.
  unfold elems at 1, slice_update. simpl.
  rewrite firstn_app, Nat.sub_diag, firstn_all. simpl. apply app_nil_r.
Qed.

Lemma elems_length {T : Type} (s : slice T) :
  (slen s <= length (backing s))%nat -> length (elems s) = slen s.
Proof. intros H. unfold elems. rewrite length_firstn. lia. Qed.

(** [accumulateMask] on a ready rasterizer returns, keeps the size, and
    leaves [w*h] mask values in [bufU32]. *)
Lemma accumulateMask_ready {K : Kernels} (z : Rasterizer) :
  mask_ready z ->
  exists z1, accumulateMask z = Ok z1 /\ size z1 = size z /\
             Z.of_nat (length (elems (bufU32 z1))) = X (size z) * Y (size z).
Proof.
  intros (HX & HY & Hbuf). unfold accumulateMask.
  assert (Hn : int_mul (X (size z)) (Y (size z)) = X (size z) * Y (size z)).
  { unfold small in *. apply int_mul_small; lia. }
  destruct (useFloatingPointMath z).
  - rewrite Hn. set (n := X (size z) * Y (size z)) in *.
    destruct Hbuf as [Hbuf Hfits].
    assert (Hu : exists u, (if cap (bufU32 z) <? n then make 4 0 n else reslice (bufU32 z) n)
                           = Ok u /\ Z.of_nat (length (elems u)) = n).
    { destruct (cap (bufU32 z) <? n) eqn:Hc.
      - apply Z.ltb_lt in Hc. exists (zeros 0 n). split.
        + apply make_Ok; [exact Hbuf|]. destruct Hfits as [F|F]; [lia | exact F].
        + rewrite zeros_elems, repeat_length. lia.
      - apply Z.ltb_ge in Hc. unfold reslice.
        assert (E : (0 <=? n) && (n <=? cap (bufU32 z)) = true).
        { apply andb_true_iff. split; apply Z.leb_le; lia. }
        rewrite E. eexists. split; [reflexivity|].
        rewrite elems_length; simpl; unfold cap in Hc; lia. }
    destruct Hu as (u & -> & Hlen). simpl.
    unfold floatingAccumulateMaskSIMD.
    destruct haveFloatingAccumulateSIMD; eexists; (split; [reflexivity|]);
      (split; [reflexivity|]); simpl; rewrite slice_update_elems;
      unfold floatingAccumulateMask; rewrite overwrite_length; exact Hlen.
  - destruct Hbuf as [Hwf Hlen]. unfold fixedAccumulateMaskSIMD.
    destruct haveFixedAccumulateSIMD; eexists; (split; [reflexivity|]);
      (split; [reflexivity|]); simpl; rewrite slice_update_elems;
      unfold fixedAccumulateMask; rewrite length_map, length_seq;
      rewrite elems_length by exact Hwf; exact Hlen.
Qed.

(** Within the rectangle the mask read succeeds. *)
Lemma mask_at_in_range (z : Rasterizer) (x y dx dy : Z) :
  small (X (size z)) ->
  Z.of_nat (length (elems (bufU32 z))) = X (size z) * Y (size z) ->
  0 <= dx <= X (size z) -> 0 <= dy <= Y (size z) -> small (Y (size z)) ->
  0 <= x < dx -> 0 <= y < dy ->
  mask_at z x y = Ok (mask_value z x y) /\
  mask_at z x y = index (elems (bufU32 z)) (y * X (size z) + x).
Proof.
  intros HW Hlen Hdx Hdy HH Hx Hy. unfold small in *.
  assert (E : int_add (int_mul y (X (size z))) x = y * X (size z) + x).
  { rewrite int_mul_small by lia. apply int_add_small; nia. }
  unfold mask_value, mask_at. rewrite E. split; [|reflexivity].
  unfold index.
  assert (R : (0 <=? y * X (size z) + x) &&
              (y * X (size z) + x <? Z.of_nat (length (elems (bufU32 z)))) = true).
  { apply andb_true_iff. split; [apply Z.leb_le | apply Z.ltb_lt]; nia. }
  rewrite R.
  destruct (nth_error (elems (bufU32 z)) (Z.to_nat (y * X (size z) + x))) eqn:N.
  - reflexivity.
  - apply nth_error_None in N. nia.
Qed.


(** ** The opaque-source fast path onto an 8-bit alpha destination *)

(** C8 on a destination whose stride differs from its width.  The
    rasterizer is 2x2 in fixed mode with area samples [b0..b3] and operator
    [Src]; the destination is the 2x2 sub-image at the origin of a 3x2
    [image.Alpha] (stride 3, six bytes [p0..p5]); [r] is the bounds of both.
    The mask value of pixel [(x, y)] is the coverage [c (2*y + x)].  The
    fused path writes the four coverages to bytes 0..3: pixel [(0,1)]
    (byte 3) receives the coverage of mask pixel [(1,1)], pixel [(1,1)]
    (byte 4) keeps its old value, and byte 2, which lies outside the
    sub-image, is overwritten.  Drawing the same rectangle into the parent
    image takes the staged path, which honours the stride. *)
Theorem fused_path_ignores_stride {K : Kernels} (b0 b1 b2 b3 p0 p1 p2 p3 p4 p5 : Z) :
  let buf := [b0; b1; b2; b3] in
  let c := fixedCoverage buf in
  let m := fun i => to_uint8 (u32_shr (c i) 8) in
  let z := mkRasterizer nil_slice (mkSlice buf 4) false (mkPoint 2 2)
             vec2_zero vec2_zero Src in
  let z1 := mkRasterizer nil_slice (mkSlice [c 0%nat; c 1%nat; c 2%nat; c 3%nat] 4) false
              (mkPoint 2 2) vec2_zero vec2_zero Src in
  let r := mkRect (mkPoint 0 0) (mkPoint 2 2) in
  let white := SrcUniform (mkColor 65535 65535 65535 65535) in
  let sub := mkAlpha [p0; p1; p2; p3; p4; p5] 3 r in
  let parent := mkAlpha [p0; p1; p2; p3; p4; p5] 3 (mkRect (mkPoint 0 0) (mkPoint 3 2)) in
  let fused := mkAlpha [m 0%nat; m 1%nat; m 2%nat; m 3%nat; p4; p5] 3 r in
  accumulateMask z = Ok z1 /\
  mask_at z1 0 1 = Ok (c 2%nat) /\ mask_at z1 1 1 = Ok (c 3%nat) /\
  Draw z (DstAlpha sub) r white (mkPoint 0 0) = Ok (z, @DstAlpha Alpha fused) /\
  Alpha_byte fused 0 1 = Ok (m 3%nat) /\
  Alpha_byte fused 1 1 = Ok p4 /\
  Draw z (DstAlpha parent) r white (mkPoint 0 0) =
    Ok (z1, @DstAlpha Alpha
              (mkAlpha [m 0%nat; m 1%nat; p2; m 2%nat; m 3%nat; p5] 3
                 (mkRect (mkPoint 0 0) (mkPoint 3 2)))).
Proof.
  cbn zeta.
  assert (Hacc : accumulateMask
            (mkRasterizer nil_slice (mkSlice [b0; b1; b2; b3] 4) false (mkPoint 2 2)
               vec2_zero vec2_zero Src) =
          Ok (mkRasterizer nil_slice
                (mkSlice [fixedCoverage [b0; b1; b2; b3] 0%nat;
                          fixedCoverage [b0; b1; b2; b3] 1%nat;
                          fixedCoverage [b0; b1; b2; b3] 2%nat;
                          fixedCoverage [b0; b1; b2; b3] 3%nat] 4) false
                (mkPoint 2 2) vec2_zero vec2_zero Src)).
  { unfold accumulateMask, fixedAccumulateMaskSIMD. cbn [useFloatingPointMath].
    destruct haveFixedAccumulateSIMD; reflexivity. }
  repeat split; try reflexivity.
  - exact Hacc.
  - unfold Draw. cbn -[fixedCoverage to_uint8 u32_shr].
    unfold fixedAccumulateOpSrcSIMD.
    destruct haveFixedAccumulateSIMD; reflexivity.
  - unfold Draw. cbn [ca DrawOp]. change (65535 =? 65535) with true.
    change (Src =? Over) with false. cbv iota.
    unfold rasterizeDstAlphaSrcOpaqueOpSrc.
    change (rect_eqb _ _ && rect_eqb _ _) with false. cbv iota.
    rewrite Hacc, rbind_Ok. reflexivity.
Qed.

Lemma nth_error_list_set_eq {T : Type} (l : list T) (i : nat) (v : T) :
  (i < length l)%nat -> nth_error (list_set l i v) i = Some v.
Proof.
  revert i. induction l as [|hd tl IH]; intros [|i] H; simpl in *; try lia.
  - reflexivity.
  - apply IH. lia.
Qed.

Lemma nth_error_list_set_neq {T : Type} (l : list T) (i j : nat) (v : T) :
  i <> j -> nth_error (list_set l i v) j = nth_error l j.
Proof.
  revert i j. induction l as [|hd tl IH]; intros [|i] [|j] H; simpl; try reflexivity.
  - congruence.
  - apply IH. congruence.
Qed.

Lemma index_of_nth_error {T : Type} (l : list T) (i : Z) (v : T) :
  0 <= i -> nth_error l (Z.to_nat i) = Some v -> index l i = Ok v.
Proof.
  intros Hi Hn. unfold index.
  assert (Hlt : (Z.to_nat i < length l)%nat).
  { apply nth_error_Some. rewrite Hn. discriminate. }
  assert (R : (0 <=? i) && (i <? Z.of_nat (length l)) = true).
  { apply andb_true_iff. split; [apply Z.leb_le | apply Z.ltb_lt]; lia. }
  rewrite R, Hn. reflexivity.
Qed.

Lemma index_same {T : Type} (l l' : list T) (i : Z) :
  length l = length l' ->
  nth_error l (Z.to_nat i) = nth_error l' (Z.to_nat i) ->
  index l i = index l' i.
Proof.
  intros Hl Hn. unfold index. rewrite Hl, Hn. reflexivity.
Qed.

(** Row-major offsets tell pixels apart as long as columns stay below the
    stride. *)
Lemma row_major_inj (s w x y x' y' : Z) :
  0 <= x < w -> 0 <= x' < w -> w <= s ->
  y * s + x = y' * s + x' -> y = y' /\ x = x'.
Proof.
  intros Hx Hx' Hw E.
  destruct (Z.lt_trichotomy y y') as [L|[L|L]].
  - exfalso. assert ((y + 1) * s <= y' * s) by nia. nia.
  - subst y'. lia.
  - exfalso. assert ((y' + 1) * s <= y * s) by nia. nia.
Qed.

Lemma Alpha_PixOffset_small (p : Alpha) (x y : Z) :
  small_point (Min (aRect p)) -> small x -> small y -> 0 <= aStride p <= 2 ^ 30 ->
  Alpha_PixOffset p x y =
    (y - Y (Min (aRect p))) * aStride p + (x - X (Min (aRect p))).
Proof.
  intros [HX HY] Hx Hy Hs. unfold Alpha_PixOffset.
  rewrite (int_sub_small _ _ Hy HY), (int_sub_small _ _ Hx HX).
  unfold small in *.
  rewrite (int_mul_small (y - Y (Min (aRect p))) (aStride p)) by lia.
  rewrite (int_mul_small (x - X (Min (aRect p))) 1) by lia.
  rewrite int_add_small by nia. lia.
Qed.

(** The pixel loops on a byte array, when the body stores a value [v x y]
    at the row-major offset of the pixel it visits: every pixel of the
    rectangle receives its value, every other byte is kept. *)
Lemma for_pixels_store (r : Rectangle) (pix0 : list Z) (off s : Z)
    (v : Z -> Z -> Z) (body : Z -> Z -> list Z -> result (list Z)) :
  small_point (Min r) -> small_point (Max r) ->
  let dx := X (Max r) - X (Min r) in
  let dy := Y (Max r) - Y (Min r) in
  0 < dx <= s -> 0 < dy -> 0 <= off ->
  off + (dy - 1) * s + dx <= Z.of_nat (length pix0) ->
  (forall x y pix, 0 <= x < dx -> 0 <= y < dy -> length pix = length pix0 ->
     body x y pix = Ok (list_set pix (Z.to_nat (off + y * s + x)) (v x y))) ->
  exists pix',
    for_pixels r body pix0 = Ok pix' /\
    length pix' = length pix0 /\
    (forall x y, 0 <= x < dx -> 0 <= y < dy ->
       nth_error pix' (Z.to_nat (off + y * s + x)) = Some (v x y)) /\
    (forall j, (forall x y, 0 <= x < dx -> 0 <= y < dy ->
                  j <> Z.to_nat (off + y * s + x)) ->
       nth_error pix' j = nth_error pix0 j).
Proof.
  intros [HmX HmY] [HMX HMY] dx dy Hdx Hdy Hoff Hlen Hbody.
  unfold for_pixels.
  rewrite (int_sub_small _ _ HMY HmY), (int_sub_small _ _ HMX HmX).
  fold dx. fold dy.
  set (visited := fun (yy xx x y : Z) =>
         (0 <= x < dx /\ 0 <= y < yy) \/ (y = yy /\ 0 <= x < xx)).
  set (Inv := fun (yy xx : Z) (pix : list Z) =>
         length pix = length pix0 /\
         (forall x y, visited yy xx x y ->
            nth_error pix (Z.to_nat (off + y * s + x)) = Some (v x y)) /\
         (forall j, (forall x y, visited yy xx x y -> j <> Z.to_nat (off + y * s + x)) ->
            nth_error pix j = nth_error pix0 j)).
  assert (Hidx : forall x y, 0 <= x < dx -> 0 <= y < dy ->
            0 <= off + y * s + x < Z.of_nat (length pix0)) by (intros; nia).
  assert (Hrows : exists pix',
    for_loop (Z.to_nat dy) 0
      (fun y p => for_loop (Z.to_nat dx) 0 (fun x p0 => body x y p0) p) pix0 = Ok pix' /\
    Inv (0 + Z.of_nat (Z.to_nat dy)) 0 pix').
  { apply (for_loop_invariant _ (fun yy p => Inv yy 0 p)).
    - split; [reflexivity|]. split.
      + unfold visited. intros x y [H|H]; lia.
      + intros j _. reflexivity.
    - intros y p Hy Hp.
      destruct (for_loop_invariant (fun x p0 => body x y p0) (fun xx q => Inv y xx q)
                  (Z.to_nat dx) 0 p Hp) as (p' & Hl & Hfin).
      + intros x q Hx (Lq & Aq & Bq).
        rewrite (Hbody x y q) by (lia || exact Lq).
        eexists. split; [reflexivity|].
        assert (Hk : 0 <= off + y * s + x < Z.of_nat (length pix0)) by (apply Hidx; lia).
        split; [rewrite list_set_length; exact Lq|]. split.
        * intros x' y' V.
          destruct (Z.eq_dec (off + y' * s + x') (off + y * s + x)) as [E|N].
          -- assert (y' = y /\ x' = x) as [-> ->].
             { apply (row_major_inj s dx); unfold visited in V; lia. }
             apply nth_error_list_set_eq. lia.
          -- rewrite nth_error_list_set_neq.
             ++ apply Aq. unfold visited in *.
                destruct V as [V|[Vy Vx]]; [left; exact V|].
                right. split; [exact Vy|].
                assert (x' <> x) by (intros ->; subst y'; apply N; reflexivity). lia.
             ++ intros E. apply N.
                assert (0 <= off + y' * s + x') by (unfold visited in V; nia). lia.
        * intros j Hj. rewrite nth_error_list_set_neq.
          -- apply Bq. intros x' y' V. apply Hj. unfold visited in *. lia.
          -- intros E. apply (Hj x y); [unfold visited; lia | symmetry; exact E].
      + exists p'. split; [exact Hl|].
        destruct Hfin as (L & A & B0). split; [exact L|]. split.
        * intros x' y' V. apply A. unfold visited in *. lia.
        * intros j Hj. apply B0. intros x' y' V. apply Hj. unfold visited in *. lia. }
  destruct Hrows as (pix' & Hl & L & A & B0). exists pix'.
  split; [exact Hl|]. split; [exact L|]. split.
  - intros x y Hx Hy. apply A. unfold visited. left. lia.
  - intros j Hj. apply B0. intros x y V. apply Hj; unfold visited in V; lia.
Qed.

(** X16.  The staged path of [rasterizeDstAlphaSrcOpaqueOpSrc]: for a
    well-formed destination, a non-empty [r] inside its bounds and no larger
    than the mask, the call returns; each byte of the destination inside [r]
    is the mask value of the corresponding pixel shifted right by 8, and the
    bytes of the other pixels are kept. *)
Lemma staged_OpSrc_pixels {K : Kernels} (z : Rasterizer) (dst : Alpha) (r : Rectangle) :
  mask_ready z -> Alpha_wf dst -> rect_inside r (aRect dst) ->
  let dx := X (Max r) - X (Min r) in
  let dy := Y (Max r) - Y (Min r) in
  dx <= X (size z) -> dy <= Y (size z) ->
  rect_eqb r (aRect dst) && rect_eqb r (Bounds z) = false ->
  exists z1 dst',
    accumulateMask z = Ok z1 /\
    rasterizeDstAlphaSrcOpaqueOpSrc z dst r = Ok (z1, dst') /\
    aStride dst' = aStride dst /\ aRect dst' = aRect dst /\
    (forall x y, 0 <= x < dx -> 0 <= y < dy ->
       Alpha_byte dst' (X (Min r) + x) (Y (Min r) + y) =
         Ok (to_uint8 (u32_shr (mask_value z1 x y) 8))) /\
    (forall px py, point_in (mkPoint px py) (aRect dst) = true ->
       point_in (mkPoint px py) r = false ->
       Alpha_byte dst' px py = Alpha_byte dst px py).
Proof.
  intros Hready (HRmin & HRmax & HRdx & HRdy & Hs & Hpix) Hin dx dy Hdx Hdy Hstaged.
  destruct Hin as (I1 & I2 & I3 & I4 & I5 & I6).
  destruct (accumulateMask_ready z Hready) as (z1 & Hacc & Hsize & Hlen).
  destruct Hready as (HW & HH & _). rewrite <- Hsize in *.
  destruct HRmin as [HRX HRY]. destruct HRmax as [HRX' HRY'].
  assert (Hrmin : small_point (Min r)) by (unfold small_point, small in *; lia).
  assert (Hrmax : small_point (Max r)) by (unfold small_point, small in *; lia).
  set (s := aStride dst) in *.
  set (off := (Y (Min r) - Y (Min (aRect dst))) * s + (X (Min r) - X (Min (aRect dst)))).
  assert (Hoffset : forall px py, small px -> small py ->
            Alpha_PixOffset dst px py =
              (py - Y (Min (aRect dst))) * s + (px - X (Min (aRect dst)))).
  { intros px py Hpx Hpy. apply Alpha_PixOffset_small; try assumption.
    - split; assumption.
    - fold s. lia. }
  assert (Eoff : Alpha_PixOffset dst (X (Min r)) (Y (Min r)) = off).
  { destruct Hrmin. apply Hoffset; assumption. }
  assert (Hoff0 : 0 <= off) by (unfold off; nia).
  assert (Hfit : off + (dy - 1) * s + dx <= Z.of_nat (length (aPix dst))).
  { unfold off, dx, dy. nia. }
  destruct (for_pixels_store r (aPix dst) off s
              (fun x y => to_uint8 (u32_shr (mask_value z1 x y) 8))
              (fun x y pix =>
                 ma <-- mask_at z1 x y ;;
                 sub_store pix off (int_add (int_mul y s) x) (to_uint8 (u32_shr ma 8)))
              Hrmin Hrmax) as (pix' & Hloop & Lpix & Hin & Hout).
  { fold dx. lia. }
  { fold dy. lia. }
  { exact Hoff0. }
  { exact Hfit. }
  { intros x y pix Hx Hy Lp. fold dx in Hx. fold dy in Hy.
    destruct (mask_at_in_range z1 x y dx dy HW Hlen) as [Hm _]; try lia; try assumption.
    rewrite Hm, rbind_Ok.
    assert (Ei : int_add (int_mul y s) x = y * s + x).
    { unfold small in *. rewrite int_mul_small by lia. apply int_add_small; nia. }
    rewrite Ei. unfold sub_store, store. rewrite Lp.
    assert (R1 : (0 <=? y * s + x) && (y * s + x <? Z.of_nat (length (aPix dst)) - off) = true).
    { apply andb_true_iff. split; [apply Z.leb_le | apply Z.ltb_lt]; nia. }
    assert (R2 : (0 <=? off + (y * s + x)) &&
                 (off + (y * s + x) <? Z.of_nat (length (aPix dst))) = true).
    { apply andb_true_iff. split; [apply Z.leb_le | apply Z.ltb_lt]; nia. }
    rewrite R1, R2. do 3 f_equal. lia. }
  exists z1, (mkAlpha pix' s (aRect dst)).
  split; [exact Hacc|]. split; [|split; [reflexivity|split; [reflexivity|split]]].
  - unfold rasterizeDstAlphaSrcOpaqueOpSrc. rewrite Hstaged, Hacc, rbind_Ok.
    rewrite Eoff. unfold slice_from.
    assert (R0 : (0 <=? off) && (off <=? Z.of_nat (length (aPix dst))) = true).
    { apply andb_true_iff. split; apply Z.leb_le; nia. }
    rewrite R0, rbind_Ok. fold s. rewrite Hloop. reflexivity.
  - intros x y Hx Hy. unfold Alpha_byte.
    assert (E : Alpha_PixOffset (mkAlpha pix' s (aRect dst)) (X (Min r) + x) (Y (Min r) + y)
                = off + y * s + x).
    { rewrite Alpha_PixOffset_small; cbn [aStride aRect aPix]; try (split; assumption);
        unfold off, small in *; destruct Hrmin, Hrmax; unfold small in *; lia. }
    rewrite E. apply index_of_nth_error; [nia | apply Hin; assumption].
  - intros px py Pin Pout. unfold Alpha_byte.
    unfold point_in in Pin, Pout. simpl in Pin, Pout.
    repeat (apply andb_true_iff in Pin; destruct Pin as [Pin ?]).
    apply Z.leb_le in Pin.
    repeat match goal with
           | H : (_ <=? _) = true |- _ => apply Z.leb_le in H
           | H : (_ <? _) = true |- _ => apply Z.ltb_lt in H
           end.
    assert (Spx : small px) by (unfold small in *; lia).
    assert (Spy : small py) by (unfold small in *; lia).
    assert (E1 : Alpha_PixOffset (mkAlpha pix' s (aRect dst)) px py =
                 (py - Y (Min (aRect dst))) * s + (px - X (Min (aRect dst)))).
    { rewrite Alpha_PixOffset_small; cbn [aStride aRect aPix];
        [reflexivity | split; assumption | assumption | assumption | lia]. }
    rewrite E1, (Hoffset px py Spx Spy).
    apply index_same; [exact Lpix|].
    apply Hout. intros x y Hx Hy E.
    assert (Hz : (py - Y (Min (aRect dst))) * s + (px - X (Min (aRect dst))) =
                 off + y * s + x).
    { apply Z2Nat.inj; [nia | nia | exact E]. }
    assert (py - Y (Min (aRect dst)) = Y (Min r) - Y (Min (aRect dst)) + y /\
            px - X (Min (aRect dst)) = X (Min r) - X (Min (aRect dst)) + x) as [Ey Ex].
    { apply (row_major_inj s (X (Max (aRect dst)) - X (Min (aRect dst)))); lia. }
    assert (T : (X (Min r) <=? px) && (px <? X (Max r)) &&
                (Y (Min r) <=? py) && (py <? Y (Max r)) = true).
    { repeat (apply andb_true_iff; split); try apply Z.leb_le; try apply Z.ltb_lt;
        unfold dx, dy in *; lia. }
    rewrite T in Pout. discriminate.
Qed.

Lemma active_ready_mask_ready (z : Rasterizer) : active_ready z -> mask_ready z.
Proof.
  intros (HW & HH & Hb). split; [exact HW|]. split; [exact HH|].
  destruct (useFloatingPointMath z); [|exact Hb].
  destruct Hb as (_ & L & F). split; [unfold len in L; lia | exact F].
Qed.

Lemma overwrite_all {T : Type} (dst new : list T) :
  length dst = length new -> overwrite dst new = new.
Proof.
  intros H. unfold overwrite. rewrite H, firstn_all, skipn_all2 by lia.
  apply app_nil_r.
Qed.

(** After [accumulateMask] the mask holds the coverage of every sample. *)
Lemma accumulateMask_values {K : Kernels} (z : Rasterizer) :
  active_ready z ->
  exists z1, accumulateMask z = Ok z1 /\ size z1 = size z /\
    elems (bufU32 z1) =
      map (coverage z) (seq 0 (Z.to_nat (X (size z) * Y (size z)))).
Proof.
  intros (HW & HH & Hbuf). unfold accumulateMask, coverage.
  assert (Hn : int_mul (X (size z)) (Y (size z)) = X (size z) * Y (size z)).
  { unfold small in *. apply int_mul_small; lia. }
  destruct (useFloatingPointMath z).
  - destruct Hbuf as (Hwf & Hlen & Hfits). rewrite Hn.
    set (n := X (size z) * Y (size z)) in *.
    assert (Hsrc : length (elems (bufF32 z)) = Z.to_nat n).
    { rewrite elems_length by exact Hwf. unfold len in Hlen. lia. }
    assert (Hu : exists u, (if cap (bufU32 z) <? n then make 4 0 n else reslice (bufU32 z) n)
                           = Ok u /\ length (elems u) = Z.to_nat n).
    { destruct (cap (bufU32 z) <? n) eqn:Hc.
      - apply Z.ltb_lt in Hc. exists (zeros 0 n). split.
        + apply make_Ok; [unfold len in Hlen; lia|].
          destruct Hfits as [F|F]; [lia | exact F].
        + rewrite zeros_elems, repeat_length. reflexivity.
      - apply Z.ltb_ge in Hc. unfold reslice.
        assert (E : (0 <=? n) && (n <=? cap (bufU32 z)) = true).
        { apply andb_true_iff. unfold len in Hlen. split; apply Z.leb_le; lia. }
        rewrite E. eexists. split; [reflexivity|].
        rewrite elems_length; simpl; unfold cap in Hc; lia. }
    destruct Hu as (u & -> & Hlu). rewrite rbind_Ok.
    unfold floatingAccumulateMaskSIMD.
    destruct haveFloatingAccumulateSIMD; eexists; (split; [reflexivity|]);
      (split; [reflexivity|]); cbn [bufU32 bufF32 set_bufU32];
      rewrite slice_update_elems; unfold floatingAccumulateMask;
      rewrite overwrite_all by (rewrite length_map, length_seq; lia);
      rewrite Hsrc; reflexivity.
  - destruct Hbuf as [Hwf Hlen]. unfold fixedAccumulateMaskSIMD.
    assert (Hsrc : length (elems (bufU32 z)) = Z.to_nat (X (size z) * Y (size z))).
    { rewrite elems_length by exact Hwf. unfold len in Hlen. lia. }
    destruct haveFixedAccumulateSIMD; eexists; (split; [reflexivity|]);
      (split; [reflexivity|]); cbn [bufU32 set_bufU32];
      rewrite slice_update_elems; unfold fixedAccumulateMask;
      rewrite Hsrc; reflexivity.
Qed.

Lemma rect_eqb_refl (r : Rectangle) : rect_eqb r r = true.
Proof. unfold rect_eqb, point_eqb. rewrite !Z.eqb_refl. reflexivity. Qed.

Lemma nth_error_map_seq {T : Type} (f : nat -> T) (n j : nat) :
  (j < n)%nat -> nth_error (map f (seq 0 n)) j = Some (f j).
Proof.
  intros H. apply map_nth_error.
  rewrite (nth_error_nth' (seq 0 n) 0%nat) by (rewrite length_seq; exact H).
  rewrite seq_nth by exact H. reflexivity.
Qed.

(** The fused path of [rasterizeDstAlphaSrcOpaqueOpSrc] when the stride of
    the destination is the width of the rasterizer: it returns without
    touching the rasterizer, and each byte of the destination is the mask
    value that [accumulateMask] would give the corresponding pixel, shifted
    right by 8. *)
Lemma fused_OpSrc_pixels {K : Kernels} (z : Rasterizer) (dst : Alpha) (r : Rectangle) :
  active_ready z -> Alpha_wf dst ->
  r = aRect dst -> r = Bounds z -> aStride dst = X (size z) ->
  exists z1 dst',
    accumulateMask z = Ok z1 /\
    rasterizeDstAlphaSrcOpaqueOpSrc z dst r = Ok (z, dst') /\
    aStride dst' = aStride dst /\ aRect dst' = aRect dst /\
    forall x y, 0 <= x < X (size z) -> 0 <= y < Y (size z) ->
      Alpha_byte dst' x y = Ok (to_uint8 (u32_shr (mask_value z1 x y) 8)).
Proof.
  intros Hready (HRmin & HRmax & HRdx & HRdy & Hs & Hpix) Er Eb Estride.
  destruct (accumulateMask_values z Hready) as (z1 & Hacc & Hsize & Hvals).
  pose proof (active_ready_mask_ready z Hready) as Hmr.
  destruct Hready as (HW & HH & Hbuf).
  assert (ER : aRect dst = Bounds z) by congruence.
  rewrite ER in *. unfold Bounds in HRdx, HRdy, Hpix. simpl in HRdx, HRdy, Hpix.
  rewrite Estride in *.
  set (W := X (size z)) in *. set (H := Y (size z)) in *.
  set (n := Z.to_nat (W * H)) in *.
  set (bytes := map (fun i => to_uint8 (u32_shr (coverage z i) 8)) (seq 0 n)).
  assert (Hfit : (n <= length (aPix dst))%nat) by (unfold n; nia).
  assert (Hres : rasterizeDstAlphaSrcOpaqueOpSrc z dst r =
                 Ok (z, mkAlpha (overwrite (aPix dst) bytes) (aStride dst) (aRect dst))).
  { unfold rasterizeDstAlphaSrcOpaqueOpSrc.
    rewrite Er at 1. rewrite Eb. rewrite ER. rewrite rect_eqb_refl. simpl andb.
    unfold fixedAccumulateOpSrcSIMD, floatingAccumulateOpSrcSIMD,
           fixedAccumulateOpSrc, floatingAccumulateOpSrc, bytes, coverage.
    destruct (useFloatingPointMath z); destruct Hbuf as [Hwf Hlen];
      rewrite elems_length by exact Hwf;
      replace (slen _) with n by (unfold n, len in *; lia).
    - destruct haveFloatingAccumulateSIMD; reflexivity.
    - destruct haveFixedAccumulateSIMD; reflexivity. }
  exists z1, (mkAlpha (overwrite (aPix dst) bytes) (aStride dst) (aRect dst)).
  split; [exact Hacc|]. split; [exact Hres|].
  split; [cbn [aStride]; congruence|]. split; [cbn [aRect]; congruence|].
  intros x y Hx Hy.
  assert (Hk : 0 <= y * W + x < W * H) by nia.
  assert (Hkn : (Z.to_nat (y * W + x) < n)%nat) by (unfold n; lia).
  assert (Hmask : mask_value z1 x y = coverage z (Z.to_nat (y * W + x))).
  { unfold mask_value, mask_at. rewrite Hsize. fold W.
    assert (Ei : int_add (int_mul y W) x = y * W + x).
    { unfold small in *. rewrite int_mul_small by lia. apply int_add_small; nia. }
    rewrite Ei, Hvals. fold W H n.
    rewrite (index_of_nth_error _ _ (coverage z (Z.to_nat (y * W + x)))); [reflexivity|lia|].
    apply nth_error_map_seq. exact Hkn. }
  rewrite Hmask. unfold Alpha_byte.
  assert (Eo : Alpha_PixOffset (mkAlpha (overwrite (aPix dst) bytes) (aStride dst) (aRect dst)) x y
               = y * W + x).
  { rewrite Alpha_PixOffset_small; cbn [aStride aRect aPix]; rewrite ?ER, ?Estride;
      unfold Bounds; cbn [Min Max X Y]; unfold small_point, small in *;
      cbn [X Y]; lia. }
  rewrite Eo. apply index_of_nth_error; [lia|].
  cbn [aPix]. unfold overwrite. rewrite firstn_all2 by (unfold bytes; rewrite length_map, length_seq; lia).
  rewrite nth_error_app1 by (unfold bytes; rewrite length_map, length_seq; exact Hkn).
  unfold bytes. apply (nth_error_map_seq (fun i => to_uint8 (u32_shr (coverage z i) 8))).
  exact Hkn.
Qed.

(* ================================================================== *)
(** * Further properties of [vector.go] *)

(** ** [Reset] and [NewRasterizer] *)

Lemma prepared_wf {T : Type} (zero : T) (n : Z) (s : slice T) :
  0 <= n -> prepared zero n s -> (slen s <= length (backing s))%nat.
Proof.
  intros Hn [L E]. unfold len in L.
  assert (H : length (elems s) = Z.to_nat n) by (rewrite E; apply repeat_length).
  unfold elems in H. rewrite length_firstn in H. lia.
Qed.

(** X1.  [Reset] resets a rasterizer "as if it was just returned by
    NewRasterizer": on any rasterizer, when [Reset(w, h)] and
    [NewRasterizer(w, h)] both return, the two states agree on the size (so
    on [Size()] and [Bounds()]), on [first], [pen] and [DrawOp], on the math
    mode and on the contents of the active buffer.  [Reset] panics only
    when [NewRasterizer] does; it returns where [NewRasterizer] panics only
    by reusing a buffer larger than the allocator would hand out. *)
Theorem Reset_like_NewRasterizer (z : Rasterizer) (w h : Z) :
  match Reset z w h, NewRasterizer w h with
  | Ok a, Ok b =>
      Size a = mkPoint w h /\ Size a = Size b /\ Bounds a = Bounds b /\
      first a = first b /\ Pen a = Pen b /\ DrawOp a = DrawOp b /\
      useFloatingPointMath a = useFloatingPointMath b /\
      (if useFloatingPointMath a
       then elems (bufF32 a) = elems (bufF32 b)
       else elems (bufU32 a) = elems (bufU32 b))
  | Ok a, Panic => maxAlloc < 4 * int_mul w h
  | Panic, Ok b => False
  | Panic, Panic => True
  end.
Proof.
  pose proof (Reset_outcome z w h) as A.
  pose proof (Reset_outcome zeroRasterizer w h) as B.
  pose proof (NewRasterizer_panics_iff w h) as N.
  unfold NewRasterizer in *.
  destruct (Reset z w h) as [a|]; destruct (Reset zeroRasterizer w h) as [b|].
  - destruct A as (_ & As & Af & Ap & Ao & Am & Ab).
    destruct B as (_ & Bs & Bf & Bp & Bo & Bm & Bb).
    unfold Size, Bounds, Pen.
    rewrite As, Bs, Af, Bf, Ap, Bp, Ao, Bo.
    repeat split; try reflexivity; try congruence.
    rewrite Am in *. rewrite Bm in Bb.
    destruct ((floatingPointMathThreshold <? w) || (floatingPointMathThreshold <? h));
      destruct Ab as [[_ Ea] _]; destruct Bb as [[_ Eb] _]; congruence.
  - destruct A as (Hn & _). destruct B as [B|[_ B]]; [lia | exact B].
  - destruct B as (Hn & _).
    assert (P : @Ok Rasterizer b = Panic).
    { apply N. destruct A as [A|[_ A]]; [left | right]; exact A. }
    discriminate P.
  - exact I.
Qed.

(** X2.  [Reset] never gives up capacity: the active buffer keeps its array
    when that holds [w*h] elements and gets a fresh array of exactly [w*h]
    elements otherwise, so its capacity becomes the larger of the old
    capacity and [w*h]; the buffer of the other math mode is left as it
    was, contents included. *)
Theorem Reset_keeps_capacity (z : Rasterizer) (w h : Z) :
  match Reset z w h with
  | Ok z' =>
      if useFloatingPointMath z'
      then cap (bufF32 z') = Z.max (cap (bufF32 z)) (int_mul w h) /\
           bufU32 z' = bufU32 z
      else cap (bufU32 z') = Z.max (cap (bufU32 z)) (int_mul w h) /\
           bufF32 z' = bufF32 z
  | Panic => int_mul w h < 0 \/ maxAlloc < 4 * int_mul w h
  end.
Proof.
  unfold Reset, setUseFloatingPointMath. simpl.
  set (n := int_mul w h).
  destruct ((floatingPointMathThreshold <? w) || (floatingPointMathThreshold <? h)); simpl.
  - destruct (cap (bufF32 z) <? n) eqn:Hc.
    + apply Z.ltb_lt in Hc. pose proof (make_outcome 4 f32_zero n) as M.
      destruct (make 4 f32_zero n) as [s|]; cbn [rbind]; [|exact M].
      destruct M as (Hn & _ & ->). simpl. split; [|reflexivity].
      unfold cap in *. simpl. rewrite repeat_length. lia.
    + apply Z.ltb_ge in Hc. unfold reslice.
      destruct (0 <=? n) eqn:H0; simpl.
      * apply Z.leb_le in H0.
        assert (E : (n <=? cap (bufF32 z)) = true) by (apply Z.leb_le; lia).
        rewrite E. simpl. split; [|reflexivity].
        unfold cap in *. simpl. rewrite zero_loop_length. lia.
      * apply Z.leb_gt in H0. left. exact H0.
  - destruct (cap (bufU32 z) <? n) eqn:Hc.
    + apply Z.ltb_lt in Hc. pose proof (make_outcome 4 0 n) as M.
      destruct (make 4 0 n) as [s|]; cbn [rbind]; [|exact M].
      destruct M as (Hn & _ & ->). simpl. split; [|reflexivity].
      unfold cap in *. simpl. rewrite repeat_length. lia.
    + apply Z.ltb_ge in Hc. unfold reslice.
      destruct (0 <=? n) eqn:H0; simpl.
      * apply Z.leb_le in H0.
        assert (E : (n <=? cap (bufU32 z)) = true) by (apply Z.leb_le; lia).
        rewrite E. simpl. split; [|reflexivity].
        unfold cap in *. simpl. rewrite zero_loop_length. lia.
      * apply Z.leb_gt in H0. left. exact H0.
Qed.

Lemma list_set_same {T : Type} (l : list T) (i : nat) (v : T) :
  nth_error l i = Some v -> list_set l i v = l.
Proof.
  revert i. induction l as [|hd tl IH]; intros [|i] H; simpl in *; try discriminate.
  - congruence.
  - rewrite IH by exact H. reflexivity.
Qed.

Lemma zero_loop_on_zeros {T : Type} (zero : T) (count : nat) :
  forall (i : nat) (l : list T),
    (forall j, (i <= j < i + count)%nat -> nth_error l j = Some zero) ->
    zero_loop zero i count l = l.
Proof.
  induction count as [|count IH]; intros i l H; simpl.
  - reflexivity.
  - rewrite (list_set_same l i zero) by (apply H; lia).
    apply IH. intros j Hj. apply H. lia.
Qed.

(** Preparing an already prepared buffer changes nothing. *)
Lemma prepare_again {T A : Type} (zero : T) (n : Z) (s : slice T)
    (k : slice T -> result A) :
  0 <= n -> prepared zero n s ->
  (cap s <? n) = false /\ rbind (reslice s n) (fun s' => k (zero_fill zero s')) = k s.
Proof.
  intros Hn P. pose proof (prepared_wf zero n s Hn P) as Hwf.
  destruct P as [L E]. unfold len in L.
  assert (Hc : n <= cap s) by (unfold cap; lia).
  split; [apply Z.ltb_ge; exact Hc|].
  unfold reslice.
  assert (R : (0 <=? n) && (n <=? cap s) = true).
  { apply andb_true_iff. split; apply Z.leb_le; lia. }
  rewrite R. simpl. f_equal. unfold zero_fill. simpl.
  replace (Z.to_nat n) with (slen s) by lia.
  rewrite zero_loop_on_zeros.
  - destruct s; reflexivity.
  - intros j Hj.
    assert (Hn' : nth_error (elems s) j = Some zero).
    { rewrite E. rewrite (nth_error_nth' _ zero) by (rewrite repeat_length; lia).
      rewrite nth_repeat. reflexivity. }
    unfold elems in Hn'. rewrite nth_error_firstn in Hn'.
    destruct (j <? slen s)%nat eqn:Hlt; [exact Hn'|].
    apply Nat.ltb_ge in Hlt. lia.
Qed.

(** X3.  [Reset] is idempotent: resetting a freshly reset rasterizer to the
    same size returns the very same state (no allocation, no change). *)
Theorem Reset_idempotent (z : Rasterizer) (w h : Z) :
  match Reset z w h with
  | Ok z' => Reset z' w h = Ok z'
  | Panic => True
  end.
Proof.
  pose proof (Reset_outcome z w h) as O.
  destruct (Reset z w h) as [z'|] eqn:E; [|exact I].
  destruct O as (Hn & Hs & Hf & Hp & Ho & Hm & Hb).
  destruct z' as [f u m sz fi pe op]. simpl in *. subst sz fi pe op.
  unfold Reset, setUseFloatingPointMath. simpl.
  rewrite <- Hm.
  destruct m; destruct Hb as [P Q]; simpl in P, Q.
  - destruct (prepare_again f32_zero _ f
                (fun s => Ok (set_bufF32 s (mkRasterizer f u true (mkPoint w h)
                                              vec2_zero vec2_zero Over))) Hn P) as [C R].
    rewrite C. exact R.
  - destruct (prepare_again 0 _ u
                (fun s => Ok (set_bufU32 s (mkRasterizer f u false (mkPoint w h)
                                              vec2_zero vec2_zero Over))) Hn P) as [C R].
    rewrite C. exact R.
Qed.

(** ** [accumulateMask] and what [Draw] leaves alone *)

(** [accumulateMask] writes the [uint32] buffer only, and can only panic
    where the floating-point mode resizes that buffer. *)
Lemma accumulateMask_frame {K : Kernels} (z : Rasterizer) :
  match accumulateMask z with
  | Ok z1 => same_path_state z z1
  | Panic =>
      useFloatingPointMath z = true /\
      (int_mul (X (size z)) (Y (size z)) < 0 \/
       (cap (bufU32 z) < int_mul (X (size z)) (Y (size z)) /\
        maxAlloc < 4 * int_mul (X (size z)) (Y (size z))))
  end.
Proof.
  unfold accumulateMask, same_path_state.
  set (n := int_mul (X (size z)) (Y (size z))).
  destruct (useFloatingPointMath z) eqn:M.
  - destruct (cap (bufU32 z) <? n) eqn:C.
    + apply Z.ltb_lt in C. pose proof (make_outcome 4 0 n) as Mk.
      destruct (make 4 0 n) as [u|]; cbn [rbind].
      * destruct haveFloatingAccumulateSIMD; simpl; rewrite M; repeat split.
      * split; [reflexivity|]. right. split; [exact C|].
        destruct Mk as [Mk|Mk]; [unfold cap in C; lia | exact Mk].
    + unfold reslice.
      destruct (0 <=? n) eqn:N.
      * apply Z.ltb_ge in C. apply Z.leb_le in N.
        assert (E : (n <=? cap (bufU32 z)) = true) by (apply Z.leb_le; lia).
        rewrite E. simpl andb. cbv iota. rewrite rbind_Ok.
        destruct haveFloatingAccumulateSIMD; simpl; rewrite M; repeat split.
      * apply Z.leb_gt in N. simpl. split; [reflexivity | left; exact N].
  - destruct haveFixedAccumulateSIMD; simpl; rewrite M; repeat split.
Qed.

(** X4.  [accumulateMask] panics only in floating-point mode, and there in
    two situations: when the product [w*h] of the size, as an [int], is
    negative (the slice expression [z.bufU32[:n]] is out of range), and
    when the [uint32] buffer is too small and [make] refuses an array of
    [w*h] elements.  In fixed-point mode it never panics.  On a rasterizer
    that [NewRasterizer] returned it cannot panic; on one that [Reset]
    returned it can panic only on that allocation. *)
Theorem accumulateMask_panics_iff {K : Kernels} (z : Rasterizer) (w h : Z) :
  (accumulateMask z = Panic <->
     useFloatingPointMath z = true /\
     (int_mul (X (size z)) (Y (size z)) < 0 \/
      (cap (bufU32 z) < int_mul (X (size z)) (Y (size z)) /\
       maxAlloc < 4 * int_mul (X (size z)) (Y (size z))))) /\
  match NewRasterizer w h with
  | Ok z' => accumulateMask z' <> Panic
  | Panic => True
  end /\
  match Reset z w h with
  | Ok z' => accumulateMask z' <> Panic \/ maxAlloc < 4 * int_mul w h
  | Panic => True
  end.
Proof.
  split; [|split].
  - split.
    + intros E. pose proof (accumulateMask_frame z) as F. rewrite E in F. exact F.
    + intros [M N]. unfold accumulateMask. rewrite M.
      set (n := int_mul (X (size z)) (Y (size z))) in *.
      destruct N as [N|[C N]].
      * assert (C : (cap (bufU32 z) <? n) = false).
        { apply Z.ltb_ge. unfold cap. lia. }
        rewrite C. unfold reslice.
        assert (L : (0 <=? n) = false) by (apply Z.leb_gt; exact N).
        rewrite L. reflexivity.
      * assert (C' : (cap (bufU32 z) <? n) = true) by (apply Z.ltb_lt; exact C).
        rewrite C'. unfold make.
        assert (L : (4 * n <=? maxAlloc) = false) by (apply Z.leb_gt; exact N).
        rewrite L, andb_false_r. reflexivity.
  - pose proof (NewRasterizer_panics_iff w h) as P.
    pose proof (Reset_outcome zeroRasterizer w h) as O.
    unfold NewRasterizer in *.
    destruct (Reset zeroRasterizer w h) as [z'|]; [|exact I].
    destruct O as (Hn & Hs & _).
    intros E. pose proof (accumulateMask_frame z') as F. rewrite E in F.
    destruct F as [_ N]. rewrite Hs in N. cbn [X Y] in N.
    destruct N as [N|[_ N]]; [lia|].
    assert (Q : @Ok Rasterizer z' = Panic) by (apply P; right; exact N).
    discriminate Q.
  - pose proof (Reset_outcome z w h) as O.
    destruct (Reset z w h) as [z'|]; [|exact I].
    destruct O as (Hn & Hs & _).
    destruct (accumulateMask z') as [z1|] eqn:E; [left; discriminate|].
    pose proof (accumulateMask_frame z') as F. rewrite E in F.
    destruct F as [_ N]. rewrite Hs in N. cbn [X Y] in N.
    destruct N as [N|[_ N]]; [lia | right; exact N].
Qed.

(** Case analysis on the outcome of each step of a sequence. *)
Ltac run_binds :=
  repeat match goal with
         | |- context [rbind ?c _] =>
             let E := fresh "E" in destruct c eqn:E; cbn [rbind]
         end.

Lemma rasterizeOpOver_after_mask {K : Kernels} {D : Type} {J : DrawImage D}
    (z : Rasterizer) (d : D) (r : Rectangle) (src : Source) (sp : Point) :
  match rasterizeOpOver z d r src sp with
  | Ok (z', _) => after_mask z z'
  | Panic => True
  end.
Proof.
  unfold rasterizeOpOver.
  destruct (accumulateMask z) as [z1|] eqn:E; cbn [rbind]; [|exact I].
  run_binds; [right; exact E | exact I].
Qed.

Lemma rasterizeOpSrc_after_mask {K : Kernels} {D : Type} {J : DrawImage D}
    (z : Rasterizer) (d : D) (r : Rectangle) (src : Source) (sp : Point) :
  match rasterizeOpSrc z d r src sp with
  | Ok (z', _) => after_mask z z'
  | Panic => True
  end.
Proof.
  unfold rasterizeOpSrc.
  destruct (accumulateMask z) as [z1|] eqn:E; cbn [rbind]; [|exact I].
  run_binds; [right; exact E | exact I].
Qed.

Lemma rasterizeGeneric_after_mask {K : Kernels} {D : Type} {J : DrawImage D}
    (z : Rasterizer) (dst : Destination D) (r : Rectangle) (src : Source) (sp : Point) :
  match rasterizeGeneric z dst r src sp with
  | Ok (z', _) => after_mask z z'
  | Panic => True
  end.
Proof.
  unfold rasterizeGeneric.
  destruct dst as [p|p|d]; destruct (DrawOp z =? Over).
  - pose proof (rasterizeOpOver_after_mask z p r src sp) as H.
    destruct (rasterizeOpOver z p r src sp) as [[z' p']|]; [exact H | exact I].
  - pose proof (rasterizeOpSrc_after_mask z p r src sp) as H.
    destruct (rasterizeOpSrc z p r src sp) as [[z' p']|]; [exact H | exact I].
  - pose proof (rasterizeOpOver_after_mask z p r src sp) as H.
    destruct (rasterizeOpOver z p r src sp) as [[z' p']|]; [exact H | exact I].
  - pose proof (rasterizeOpSrc_after_mask z p r src sp) as H.
    destruct (rasterizeOpSrc z p r src sp) as [[z' p']|]; [exact H | exact I].
  - pose proof (rasterizeOpOver_after_mask z d r src sp) as H.
    destruct (rasterizeOpOver z d r src sp) as [[z' p']|]; [exact H | exact I].
  - pose proof (rasterizeOpSrc_after_mask z d r src sp) as H.
    destruct (rasterizeOpSrc z d r src sp) as [[z' p']|]; [exact H | exact I].
Qed.

Lemma fast_paths_after_mask {K : Kernels} (z : Rasterizer) (r : Rectangle) :
  (forall p : Alpha,
     match rasterizeDstAlphaSrcOpaqueOpOver z p r with
     | Ok (z', _) => after_mask z z'
     | Panic => True
     end) /\
  (forall p : Alpha,
     match rasterizeDstAlphaSrcOpaqueOpSrc z p r with
     | Ok (z', _) => after_mask z z'
     | Panic => True
     end) /\
  (forall (p : RGBAImage) (sr sg sb sa : Z),
     match rasterizeDstRGBASrcUniformOpOver z p r sr sg sb sa with
     | Ok (z', _) => after_mask z z'
     | Panic => True
     end) /\
  (forall (p : RGBAImage) (sr sg sb sa : Z),
     match rasterizeDstRGBASrcUniformOpSrc z p r sr sg sb sa with
     | Ok (z', _) => after_mask z z'
     | Panic => True
     end).
Proof.
  repeat split; intros p.
  - unfold rasterizeDstAlphaSrcOpaqueOpOver.
    destruct (rect_eqb r (aRect p) && rect_eqb r (Bounds z)); [left; reflexivity|].
    destruct (accumulateMask z) as [z1|] eqn:E; cbn [rbind]; [|exact I].
    run_binds; [right; exact E | exact I | exact I].
  - unfold rasterizeDstAlphaSrcOpaqueOpSrc.
    destruct (rect_eqb r (aRect p) && rect_eqb r (Bounds z)); [left; reflexivity|].
    destruct (accumulateMask z) as [z1|] eqn:E; cbn [rbind]; [|exact I].
    run_binds; [right; exact E | exact I | exact I].
  - intros sr sg sb sa. unfold rasterizeDstRGBASrcUniformOpOver.
    destruct (accumulateMask z) as [z1|] eqn:E; cbn [rbind]; [|exact I].
    run_binds; [right; exact E | exact I | exact I].
  - intros sr sg sb sa. unfold rasterizeDstRGBASrcUniformOpSrc.
    destruct (accumulateMask z) as [z1|] eqn:E; cbn [rbind]; [|exact I].
    run_binds; [right; exact E | exact I | exact I].
Qed.

Lemma Draw_after_mask {K : Kernels} {D : Type} {J : DrawImage D} (z : Rasterizer)
    (dst : Destination D) (r : Rectangle) (src : Source) (sp : Point) :
  match Draw z dst r src sp with
  | Ok (z', _) => after_mask z z'
  | Panic => True
  end.
Proof.
  destruct (fast_paths_after_mask z r) as (AO & AS & RO & RS).
  pose proof (rasterizeGeneric_after_mask z dst r src sp) as G.
  unfold Draw. destruct src as [c|f]; [|exact G].
  destruct dst as [p|p|d]; [| |exact G].
  - destruct (ca c =? 65535); [|exact G].
    destruct (DrawOp z =? Over).
    + specialize (AO p). destruct (rasterizeDstAlphaSrcOpaqueOpOver z p r) as [[z' p']|];
        [exact AO | exact I].
    + specialize (AS p). destruct (rasterizeDstAlphaSrcOpaqueOpSrc z p r) as [[z' p']|];
        [exact AS | exact I].
  - destruct (DrawOp z =? Over).
    + specialize (RO p (cr c) (cg c) (cb c) (ca c)).
      destruct (rasterizeDstRGBASrcUniformOpOver z p r (cr c) (cg c) (cb c) (ca c))
        as [[z' p']|]; [exact RO | exact I].
    + specialize (RS p (cr c) (cg c) (cb c) (ca c)).
      destruct (rasterizeDstRGBASrcUniformOpSrc z p r (cr c) (cg c) (cb c) (ca c))
        as [[z' p']|]; [exact RS | exact I].
Qed.

(** X5.  [Draw] touches nothing of the rasterizer but the [uint32] buffer:
    whatever the destination, the source and the rectangle, when [Draw]
    returns, the [float32] buffer, the math mode, the size, the first point,
    the pen and the operator are what they were.  The path is not reset:
    the next [LineTo] starts from the same pen. *)
Theorem Draw_keeps_path_state {K : Kernels} {D : Type} {J : DrawImage D} (z : Rasterizer)
    (dst : Destination D) (r : Rectangle) (src : Source) (sp : Point) :
  match Draw z dst r src sp with
  | Ok (z', _) => same_path_state z z'
  | Panic => True
  end.
Proof.
  pose proof (Draw_after_mask z dst r src sp) as H.
  destruct (Draw z dst r src sp) as [[z' d']|]; [|exact I].
  destruct H as [->|E].
  - unfold same_path_state. repeat split.
  - pose proof (accumulateMask_frame z) as F. rewrite E in F. exact F.
Qed.

(** ** The operator *)

Lemma accumulateMask_DrawOp {K : Kernels} (z : Rasterizer) (op : Z) :
  accumulateMask (set_DrawOp op z) = z1 <-- accumulateMask z ;; Ok (set_DrawOp op z1).
Proof.
  unfold accumulateMask. cbn [set_DrawOp useFloatingPointMath bufU32 bufF32 size].
  destruct (useFloatingPointMath z).
  - destruct (if cap (bufU32 z) <? int_mul (X (size z)) (Y (size z))
              then make 4 0 (int_mul (X (size z)) (Y (size z)))
              else reslice (bufU32 z) (int_mul (X (size z)) (Y (size z)))) as [u|];
      cbn [rbind]; [|reflexivity].
    destruct haveFloatingAccumulateSIMD; reflexivity.
  - destruct haveFixedAccumulateSIMD; reflexivity.
Qed.

Lemma Src_paths_ignore_DrawOp {K : Kernels} {D : Type} {J : DrawImage D}
    (z : Rasterizer) (op : Z) (r : Rectangle) :
  (forall (d : D) (src : Source) (sp : Point),
     rasterizeOpSrc (set_DrawOp op z) d r src sp =
       with_DrawOp op (rasterizeOpSrc z d r src sp)) /\
  (forall p : Alpha,
     rasterizeDstAlphaSrcOpaqueOpSrc (set_DrawOp op z) p r =
       with_DrawOp op (rasterizeDstAlphaSrcOpaqueOpSrc z p r)) /\
  (forall (p : RGBAImage) (sr sg sb sa : Z),
     rasterizeDstRGBASrcUniformOpSrc (set_DrawOp op z) p r sr sg sb sa =
       with_DrawOp op (rasterizeDstRGBASrcUniformOpSrc z p r sr sg sb sa)).
Proof.
  unfold with_DrawOp. repeat split.
  - intros d src sp. unfold rasterizeOpSrc. rewrite accumulateMask_DrawOp.
    destruct (accumulateMask z) as [z1|]; cbn [rbind]; [|reflexivity].
    change (mask_at (set_DrawOp op z1)) with (mask_at z1).
    run_binds; reflexivity.
  - intros p. unfold rasterizeDstAlphaSrcOpaqueOpSrc.
    change (Bounds (set_DrawOp op z)) with (Bounds z).
    destruct (rect_eqb r (aRect p) && rect_eqb r (Bounds z)); [reflexivity|].
    rewrite accumulateMask_DrawOp.
    destruct (accumulateMask z) as [z1|]; cbn [rbind]; [|reflexivity].
    change (mask_at (set_DrawOp op z1)) with (mask_at z1).
    run_binds; reflexivity.
  - intros p sr sg sb sa. unfold rasterizeDstRGBASrcUniformOpSrc.
    rewrite accumulateMask_DrawOp.
    destruct (accumulateMask z) as [z1|]; cbn [rbind]; [|reflexivity].
    change (mask_at (set_DrawOp op z1)) with (mask_at z1).
    run_binds; reflexivity.
Qed.

(** X6.  [Draw] tests the operator against [draw.Over] only, so every other
    value of [DrawOp], not just [draw.Src], draws with the [Src] formulas:
    with [DrawOp = op], [op <> Over], [Draw] gives the destination that
    [DrawOp = Src] gives, and the same rasterizer up to the [DrawOp] field. *)
Theorem DrawOp_other_than_Over_is_Src {K : Kernels} {D : Type} {J : DrawImage D}
    (z : Rasterizer) (op : Z) (dst : Destination D) (r : Rectangle) (src : Source)
    (sp : Point) :
  (op =? Over) = false ->
  Draw (set_DrawOp op z) dst r src sp =
    with_DrawOp op (Draw (set_DrawOp Src z) dst r src sp).
Proof.
  intros Hop.
  assert (G : rasterizeGeneric (set_DrawOp op z) dst r src sp =
              with_DrawOp op (rasterizeGeneric (set_DrawOp Src z) dst r src sp)).
  { unfold rasterizeGeneric. cbn [set_DrawOp DrawOp]. rewrite Hop.
    change (Src =? Over) with false. cbv iota.
    destruct dst as [p|p|d].
    - destruct (@Src_paths_ignore_DrawOp K Alpha _ z op r) as (A & _).
      destruct (@Src_paths_ignore_DrawOp K Alpha _ z Src r) as (B & _).
      fold (set_DrawOp op z). fold (set_DrawOp Src z).
      rewrite A, B. unfold with_DrawOp.
      destruct (rasterizeOpSrc z p r src sp) as [[z' p']|]; reflexivity.
    - destruct (@Src_paths_ignore_DrawOp K RGBAImage _ z op r) as (A & _).
      destruct (@Src_paths_ignore_DrawOp K RGBAImage _ z Src r) as (B & _).
      fold (set_DrawOp op z). fold (set_DrawOp Src z).
      rewrite A, B. unfold with_DrawOp.
      destruct (rasterizeOpSrc z p r src sp) as [[z' p']|]; reflexivity.
    - destruct (@Src_paths_ignore_DrawOp K D J z op r) as (A & _).
      destruct (@Src_paths_ignore_DrawOp K D J z Src r) as (B & _).
      fold (set_DrawOp op z). fold (set_DrawOp Src z).
      rewrite A, B. unfold with_DrawOp.
      destruct (rasterizeOpSrc z d r src sp) as [[z' d']|]; reflexivity. }
  destruct (@Src_paths_ignore_DrawOp K D J z op r) as (_ & A1 & R1).
  destruct (@Src_paths_ignore_DrawOp K D J z Src r) as (_ & A2 & R2).
  unfold Draw. destruct src as [c|f]; [|exact G].
  destruct dst as [p|p|d]; [| |exact G].
  - destruct (ca c =? 65535); [|exact G].
    cbn [set_DrawOp DrawOp]. rewrite Hop. change (Src =? Over) with false. cbv iota.
    fold (set_DrawOp op z). fold (set_DrawOp Src z).
    rewrite A1, A2. unfold with_DrawOp.
    destruct (rasterizeDstAlphaSrcOpaqueOpSrc z p r) as [[z' p']|]; reflexivity.
  - cbn [set_DrawOp DrawOp]. rewrite Hop. change (Src =? Over) with false. cbv iota.
    fold (set_DrawOp op z). fold (set_DrawOp Src z).
    rewrite R1, R2. unfold with_DrawOp.
    destruct (rasterizeDstRGBASrcUniformOpSrc z p r (cr c) (cg c) (cb c) (ca c))
      as [[z' p']|]; reflexivity.
Qed.

(** ** Rectangles *)

Lemma for_loop_idle {St : Type} (body : Z -> St -> result St) (count : nat) :
  forall (i : Z) (s : St),
    (forall j t, body j t = Ok t) -> for_loop count i body s = Ok s.
Proof.
  induction count as [|count IH]; intros i s H; simpl.
  - reflexivity.
  - rewrite H, rbind_Ok. apply IH. exact H.
Qed.

Lemma for_pixels_empty {St : Type} (r : Rectangle) (body : Z -> Z -> St -> result St)
    (s : St) :
  (int_sub (X (Max r)) (X (Min r)) <=? 0) || (int_sub (Y (Max r)) (Y (Min r)) <=? 0) = true ->
  for_pixels r body s = Ok s.
Proof.
  intros H. unfold for_pixels. apply orb_true_iff in H. destruct H as [H|H]; apply Z.leb_le in H.
  - apply for_loop_idle. intros y t.
    replace (Z.to_nat (int_sub (X (Max r)) (X (Min r)))) with 0%nat by lia. reflexivity.
  - replace (Z.to_nat (int_sub (Y (Max r)) (Y (Min r)))) with 0%nat by lia. reflexivity.
Qed.

(** X7.  A rectangle without pixels (not wider or not taller than 0, the
    differences taken in [int]) runs no round of the pixel loops.  On the
    generic path the destination is returned as it was, though
    [accumulateMask] has run on the rasterizer.  On the [image.RGBA] fast
    path the destination is returned as it was as well, but the slice
    expression [dst.Pix[dst.PixOffset(r.Min.X, r.Min.Y):]] is still
    evaluated, and panics if that offset is out of range. *)
Theorem empty_rectangle_draws_nothing {K : Kernels} {D : Type} {J : DrawImage D}
    (z : Rasterizer) (d : D) (p : RGBAImage) (r : Rectangle) (src : Source) (c : Color)
    (sp : Point) :
  (int_sub (X (Max r)) (X (Min r)) <=? 0) || (int_sub (Y (Max r)) (Y (Min r)) <=? 0) = true ->
  rasterizeOpOver z d r src sp = (z1 <-- accumulateMask z ;; Ok (z1, d)) /\
  rasterizeOpSrc z d r src sp = (z1 <-- accumulateMask z ;; Ok (z1, d)) /\
  Draw z (DstOther d) r src sp = (z1 <-- accumulateMask z ;; Ok (z1, DstOther d)) /\
  Draw z (@DstRGBA D p) r (SrcUniform c) sp =
    (z1 <-- accumulateMask z ;;
     off <-- slice_from (pPix p) (RGBA_PixOffset p (X (Min r)) (Y (Min r))) ;;
     Ok (z1, DstRGBA p)).
Proof.
  intros H.
  assert (HO : rasterizeOpOver z d r src sp = (z1 <-- accumulateMask z ;; Ok (z1, d))).
  { unfold rasterizeOpOver. destruct (accumulateMask z) as [z1|]; cbn [rbind]; [|reflexivity].
    rewrite for_pixels_empty by exact H. reflexivity. }
  assert (HS : rasterizeOpSrc z d r src sp = (z1 <-- accumulateMask z ;; Ok (z1, d))).
  { unfold rasterizeOpSrc. destruct (accumulateMask z) as [z1|]; cbn [rbind]; [|reflexivity].
    rewrite for_pixels_empty by exact H. reflexivity. }
  split; [exact HO|]. split; [exact HS|]. split.
  - assert (G : rasterizeGeneric z (DstOther d) r src sp =
                (z1 <-- accumulateMask z ;; Ok (z1, DstOther d))).
    { unfold rasterizeGeneric. destruct (DrawOp z =? Over).
      - rewrite HO. destruct (accumulateMask z); reflexivity.
      - rewrite HS. destruct (accumulateMask z); reflexivity. }
    unfold Draw. destruct src; exact G.
  - unfold Draw, rasterizeDstRGBASrcUniformOpOver, rasterizeDstRGBASrcUniformOpSrc.
    destruct (DrawOp z =? Over);
      (destruct (accumulateMask z) as [z1|]; cbn [rbind]; [|reflexivity]);
      (destruct (slice_from (pPix p) (RGBA_PixOffset p (X (Min r)) (Y (Min r)))) as [off|];
       cbn [rbind]; [|reflexivity]);
      rewrite for_pixels_empty by exact H; destruct p; reflexivity.
Qed.

Lemma for_loop_panics {St : Type} (body : Z -> St -> result St) (count : nat) :
  forall (i j : Z) (s : St),
    i <= j < i + Z.of_nat count -> (forall t, body j t = Panic) ->
    for_loop count i body s = Panic.
Proof.
  induction count as [|count IH]; intros i j s Hj Hp; simpl.
  - lia.
  - destruct (body i s) as [s'|] eqn:E; cbn [rbind]; [|reflexivity].
    destruct (Z.eq_dec i j) as [->|N].
    + rewrite Hp in E. discriminate.
    + apply (IH (i + 1) j); [lia | exact Hp].
Qed.

(** The pixel loops panic as soon as the body panics on one pixel of the
    rectangle whatever the state. *)
Lemma for_pixels_panics {St : Type} (r : Rectangle) (body : Z -> Z -> St -> result St)
    (s : St) (x y : Z) :
  0 <= x < int_sub (X (Max r)) (X (Min r)) ->
  0 <= y < int_sub (Y (Max r)) (Y (Min r)) ->
  (forall t, body x y t = Panic) ->
  for_pixels r body s = Panic.
Proof.
  intros Hx Hy Hp. unfold for_pixels.
  apply (for_loop_panics _ _ 0 y); [lia|].
  intros t. apply (for_loop_panics _ _ 0 x); [lia | exact Hp].
Qed.

Lemma mask_at_flat (z : Rasterizer) (x y : Z) :
  small (X (size z)) -> 0 <= X (size z) -> 0 <= x <= 2 ^ 31 -> 0 <= y <= 2 ^ 31 ->
  mask_at z x y =
    if y * X (size z) + x <? Z.of_nat (length (elems (bufU32 z)))
    then Ok (mask_value z x y) else Panic.
Proof.
  intros HW H0 Hx Hy. unfold small in HW.
  assert (E : int_add (int_mul y (X (size z))) x = y * X (size z) + x).
  { rewrite int_mul_small by lia. apply int_add_small; nia. }
  unfold mask_value, mask_at. rewrite E. unfold index.
  assert (P : (0 <=? y * X (size z) + x) = true) by (apply Z.leb_le; nia).
  rewrite P. cbn [andb].
  destruct (y * X (size z) + x <? Z.of_nat (length (elems (bufU32 z)))) eqn:L; [|reflexivity].
  apply Z.ltb_lt in L.
  destruct (nth_error (elems (bufU32 z)) (Z.to_nat (y * X (size z) + x))) eqn:N.
  - reflexivity.
  - apply nth_error_None in N. nia.
Qed.

(** X8.  [Draw] does not compare the rectangle with the size of the mask:
    the mask is read at the flat index [y*w + x].  On the generic path with
    a destination that accepts every pixel, [Draw] on a non-empty rectangle
    of [dx] by [dy] pixels panics exactly when the index of its last pixel,
    [(dy-1)*w + dx - 1], is outside the [w*h] mask values.  A rectangle
    wider than the mask is therefore accepted as long as it is short enough,
    and reads the mask values of the following rows. *)
Theorem Draw_checks_flat_index {K : Kernels} (z : Rasterizer) (m : PixelMap)
    (r : Rectangle) (src : Source) (sp : Point) :
  mask_ready z -> 0 <= X (size z) ->
  small_point (Min r) -> small_point (Max r) ->
  let dx := X (Max r) - X (Min r) in
  let dy := Y (Max r) - Y (Min r) in
  0 < dx -> 0 < dy ->
  (Draw z (DstOther m) r src sp = Panic <->
   X (size z) * Y (size z) < (dy - 1) * X (size z) + dx).
Proof.
  intros Hready HW0 Hmin Hmax dx dy Hdx Hdy.
  destruct (accumulateMask_ready z Hready) as (z1 & Hacc & Hsize & Hlen).
  destruct Hready as (HW & HH & _). rewrite <- Hsize in *.
  set (W := X (size z1)) in *. set (H := Y (size z1)) in *.
  assert (Bx : dx <= 2 ^ 31) by (destruct Hmin, Hmax; unfold small in *; lia).
  assert (By : dy <= 2 ^ 31) by (destruct Hmin, Hmax; unfold small in *; lia).
  assert (Hadd : forall a x, small a -> 0 <= x <= 2 ^ 31 -> int_add a x = a + x).
  { intros a x Ha Hx. unfold small in Ha. apply int_add_small; lia. }
  assert (Hmask : forall x y, 0 <= x < dx -> 0 <= y < dy ->
            mask_at z1 x y = if y * W + x <? W * H then Ok (mask_value z1 x y) else Panic).
  { intros x y Hx Hy. rewrite mask_at_flat by (assumption || lia).
    fold W. rewrite Hlen. reflexivity. }
  assert (Edx : int_sub (X (Max r)) (X (Min r)) = dx).
  { destruct Hmin, Hmax. apply int_sub_small; assumption. }
  assert (Edy : int_sub (Y (Max r)) (Y (Min r)) = dy).
  { destruct Hmin, Hmax. apply int_sub_small; assumption. }
  assert (G : Draw z (DstOther m) r src sp = rasterizeGeneric z (DstOther m) r src sp).
  { unfold Draw. destruct src; reflexivity. }
  rewrite G. unfold rasterizeGeneric, rasterizeOpOver, rasterizeOpSrc.
  rewrite Hacc, !rbind_Ok.
  destruct (Z.lt_ge_cases (W * H) ((dy - 1) * W + dx)) as [Out|In].
  - split; [intros _; exact Out | intros _].
    assert (Hlast : mask_at z1 (dx - 1) (dy - 1) = Panic).
    { rewrite Hmask by lia.
      assert (L : ((dy - 1) * W + (dx - 1) <? W * H) = false) by (apply Z.ltb_ge; lia).
      rewrite L. reflexivity. }
    destruct (DrawOp z =? Over).
    + rewrite (for_pixels_panics r _ m (dx - 1) (dy - 1)); [reflexivity | lia | lia |].
      intros t. cbv zeta. rewrite Hlast. reflexivity.
    + rewrite (for_pixels_panics r _ m (dx - 1) (dy - 1)); [reflexivity | lia | lia |].
      intros t. cbv zeta. rewrite Hlast. reflexivity.
  - split; [|intros Out; lia].
    assert (Hin : forall x y, 0 <= x < dx -> 0 <= y < dy ->
              mask_at z1 x y = Ok (mask_value z1 x y)).
    { intros x y Hx Hy. rewrite Hmask by assumption.
      assert (L : (y * W + x <? W * H) = true) by (apply Z.ltb_lt; nia).
      rewrite L. reflexivity. }
    destruct (DrawOp z =? Over).
    + destruct (for_pixels_map r
        (fun x y c => overPixel (Source_At src (int_add (X sp) x) (int_add (Y sp) y))
                        (RGBA64_RGBA c) (mask_value z1 x y))
        (fun x y dst =>
           let s := Source_At src (int_add (X sp) x) (int_add (Y sp) y) in
           ma <-- mask_at z1 x y ;;
           d <-- At dst (int_add (X (Min r)) x) (int_add (Y (Min r)) y) ;;
           Set_ dst (int_add (X (Min r)) x) (int_add (Y (Min r)) y) (overPixel s d ma))
        m Hmin Hmax) as (m' & Hm' & _).
      { intros x y m0 Hx Hy. fold dx in Hx. fold dy in Hy.
        cbn zeta. rewrite (Hin x y Hx Hy). destruct Hmin.
        rewrite !Hadd by (assumption || lia). reflexivity. }
      cbv beta zeta in Hm'. cbv beta zeta. rewrite Hm'. discriminate.
    + destruct (for_pixels_map r
        (fun x y c => srcPixel (Source_At src (int_add (X sp) x) (int_add (Y sp) y))
                        (mask_value z1 x y))
        (fun x y dst =>
           let s := Source_At src (int_add (X sp) x) (int_add (Y sp) y) in
           ma <-- mask_at z1 x y ;;
           Set_ dst (int_add (X (Min r)) x) (int_add (Y (Min r)) y) (srcPixel s ma))
        m Hmin Hmax) as (m' & Hm' & _).
      { intros x y m0 Hx Hy. fold dx in Hx. fold dy in Hy.
        cbn zeta. rewrite (Hin x y Hx Hy). destruct Hmin.
        rewrite !Hadd by (assumption || lia). reflexivity. }
      cbv beta zeta in Hm'. cbv beta zeta. rewrite Hm'. discriminate.
Qed.

(** ** Curves through points that are not finite *)

(** Case analysis on two floats, signs included. *)
Ltac float_cases x y :=
  destruct x as [[|]|[|]| |[|] ? ?], y as [[|]|[|]| |[|] ? ?].

Lemma f32_add_nonfinite (x y : float32) :
  finite x && finite y = false -> finite (f32_add x y) = false.
Proof. float_cases x y; intros H; try discriminate H; reflexivity. Qed.

Lemma f32_sub_nonfinite (x y : float32) :
  finite x && finite y = false -> finite (f32_sub x y) = false.
Proof. float_cases x y; intros H; try discriminate H; reflexivity. Qed.

Lemma f32_mul_nonfinite (x y : float32) :
  finite x && finite y = false -> finite (f32_mul x y) = false.
Proof. float_cases x y; intros H; try discriminate H; reflexivity. Qed.

Lemma dev_nonfinite (a b c : float32) :
  finite a && finite b && finite c = false ->
  let dev := f32_add (f32_sub a (f32_mul f32_two b)) c in
  finite (f32_add (f32_mul dev dev) (f32_mul dev dev)) = false /\
  finite (f32_mul dev dev) = false.
Proof.
  intros H dev.
  assert (D : finite dev = false).
  { unfold dev. apply f32_add_nonfinite.
    destruct (finite c); [|apply andb_false_r]. rewrite andb_true_r in *.
    apply f32_sub_nonfinite.
    destruct (finite a); [|reflexivity]. cbn [andb] in *.
    apply f32_mul_nonfinite. rewrite H. apply andb_false_r. }
  assert (M : finite (f32_mul dev dev) = false)
    by (apply f32_mul_nonfinite; rewrite D; reflexivity).
  split; [|exact M]. apply f32_add_nonfinite. rewrite M. reflexivity.
Qed.

Lemma devSquared_nonfinite (a b c : Vec2) :
  finite_point a && finite_point b && finite_point c = false ->
  finite (devSquared a b c) = false.
Proof.
  unfold finite_point, devSquared. intros H. cbv zeta.
  destruct (finite (fst a) && finite (fst b) && finite (fst c)) eqn:Hx.
  - assert (Hy : finite (snd a) && finite (snd b) && finite (snd c) = false).
    { destruct (finite (fst a)), (finite (fst b)), (finite (fst c)); try discriminate Hx.
      cbn [andb] in H. destruct (finite (snd a)), (finite (snd b)), (finite (snd c));
        try reflexivity; discriminate H. }
    apply f32_add_nonfinite.
    destruct (dev_nonfinite _ _ _ Hy) as [_ M]. rewrite M. apply andb_false_r.
  - apply f32_add_nonfinite.
    destruct (dev_nonfinite _ _ _ Hx) as [_ M]. rewrite M. reflexivity.
Qed.

(** A curvature estimate that is not finite runs no round of the loop:
    a NaN fails the comparison with 0.333, and for an infinity the
    conversion to [int] gives the least [int], so [n - 1] is negative. *)
Lemma nonfinite_no_loop (x : float32) :
  finite x = false ->
  f32_ge x f32_0_333 = false \/ Z.to_nat (int_sub (segments x) 1) = 0%nat.
Proof.
  destruct x as [s|[|]| |s m e]; intros H; try discriminate H.
  - left. reflexivity.
  - right. vm_compute. reflexivity.
  - left. reflexivity.
Qed.

Lemma QuadTo_nonfinite {K : Kernels} (z : Rasterizer) (b c : Vec2) :
  finite (devSquared (pen z) b c) = false -> QuadTo b c z = LineTo c z.
Proof.
  intros H. unfold QuadTo. cbv zeta.
  destruct (nonfinite_no_loop _ H) as [E|E]; rewrite E.
  - apply skip_then.
  - destruct (f32_ge (devSquared (pen z) b c) f32_0_333); apply skip_then.
Qed.

Lemma CubeTo_nonfinite {K : Kernels} (z : Rasterizer) (b c d : Vec2) :
  finite (cubeDevSquared (pen z) b c d) = false -> CubeTo b c d z = LineTo d z.
Proof.
  intros H. unfold CubeTo. cbv zeta.
  destruct (nonfinite_no_loop _ H) as [E|E]; rewrite E.
  - apply skip_then.
  - destruct (f32_ge (cubeDevSquared (pen z) b c d) f32_0_333); apply skip_then.
Qed.

(** When the first estimate is not finite it is the one kept: it is a NaN,
    which no comparison replaces, or an infinity, which nothing exceeds. *)
Lemma cubeDevSquared_nonfinite (a b c d : Vec2) :
  finite (devSquared a b d) = false -> finite (cubeDevSquared a b c d) = false.
Proof.
  unfold cubeDevSquared. cbv zeta. intros H.
  pose proof (devSquared_sign_clear a b d) as Hs.
  destruct (f32_lt (devSquared a b d) (devSquared a c d)) eqn:L; [|exact H].
  destruct (devSquared a b d) as [s|[|]| |s m e]; try discriminate H; try discriminate Hs.
  - destruct (devSquared a c d) as [s'|[|]| |[|] m' e']; discriminate L.
  - discriminate L.
Qed.

(** X9.  A curve through a point that is not finite is one segment.  When
    a coordinate of the pen, of the control point [b] or of the end point
    is a NaN or an infinity, the curvature estimate is a NaN (the test
    [devsq >= 0.333] fails) or an infinity (the conversion to [int] gives
    the least [int] on amd64, so the loop bound [n - 1] is negative): [QuadTo]
    makes exactly one [LineTo] call, to the end point.  The same holds for
    [CubeTo] and its pen, first control point [b] and end point [d]. *)
Theorem nonfinite_curve_is_one_LineTo {K : Kernels} :
  (forall (z : Rasterizer) (b c : Vec2),
     finite_point (pen z) && finite_point b && finite_point c = false ->
     QuadTo b c z = LineTo c z /\ calls_of (QuadTo b c z) = [c]) /\
  (forall (z : Rasterizer) (b c d : Vec2),
     finite_point (pen z) && finite_point b && finite_point d = false ->
     CubeTo b c d z = LineTo d z /\ calls_of (CubeTo b c d z) = [d]).
Proof.
  split.
  - intros z b c H.
    assert (E : QuadTo b c z = LineTo c z)
      by (apply QuadTo_nonfinite, devSquared_nonfinite; exact H).
    split; [exact E | rewrite E; reflexivity].
  - intros z b c d H.
    assert (E : CubeTo b c d z = LineTo d z)
      by (apply CubeTo_nonfinite, cubeDevSquared_nonfinite, devSquared_nonfinite; exact H).
    split; [exact E | rewrite E; reflexivity].
Qed.

(** X10.  The curvature estimate is never negative: the result of
    [devSquared], a sum of two squares rounded to binary32, is a NaN or has
    its sign bit clear (so it is never [-0] nor negative), it never compares
    below 0, and unless it is a NaN it compares at least 0.  The estimate
    [CubeTo] keeps, the greater of two such values, has its sign bit clear
    as well. *)
Theorem devSquared_never_negative (a b c d : Vec2) :
  sign_clear (devSquared a b c) = true /\
  f32_lt (devSquared a b c) f32_zero = false /\
  (is_nan (devSquared a b c) = true \/ f32_ge (devSquared a b c) f32_zero = true) /\
  sign_clear (cubeDevSquared a b c d) = true.
Proof.
  pose proof (devSquared_sign_clear a b c) as H.
  split; [exact H|]. split; [|split].
  - destruct (devSquared a b c) as [[|]|[|]| |[|] m e]; try discriminate H; reflexivity.
  - destruct (devSquared a b c) as [[|]|[|]| |[|] m e]; try discriminate H;
      (left; reflexivity) || (right; reflexivity).
  - unfold cubeDevSquared. cbv zeta.
    destruct (f32_lt (devSquared a b d) (devSquared a c d)); apply devSquared_sign_clear.
Qed.

(** ** [midPoint] *)



(** ** [clamp] *)

(** X12.  [clamp] with a negative width.  The width is converted with
    [uint(width)], which for a negative [int32] is [2^64 + width]: with
    [width < 0], [clamp] returns 0 for a negative [i] and the huge value
    [2^64 + width], above [i], for every other [i].  The result is within
    [[0, width]] only for [width >= 0]. *)
Theorem clamp_negative_width (i w : Z) :
  is_int32 i -> is_int32 w -> w < 0 ->
  (i < 0 -> clamp i w = 0) /\
  (0 <= i -> clamp i w = 2 ^ 64 + w) /\
  (0 <= i -> i < clamp i w).
Proof.
  unfold is_int32. intros Hi Hw Hneg.
  assert (U : to_uint w = 2 ^ 64 + w).
  { unfold to_uint, wrap_unsigned.
    rewrite <- (Z_mod_plus_full w 1 (2 ^ 64)).
    replace (w + 1 * 2 ^ 64) with (2 ^ 64 + w) by lia. apply Z.mod_small. lia. }
  unfold clamp. split; [|split].
  - intros H. destruct (Z.ltb_spec i 0); [reflexivity | lia].
  - intros H. destruct (Z.ltb_spec i 0); [lia|].
    destruct (Z.ltb_spec i w); [lia | exact U].
  - intros H. destruct (Z.ltb_spec i 0); [lia|].
    destruct (Z.ltb_spec i w); [lia|]. rewrite U. lia.
Qed.

(** ** The flattening and the rest of the state *)

(** The calls of a curve command, written without the rasterizer's
    buffers and kernels. *)
Lemma QuadTo_calls {K : Kernels} (z : Rasterizer) (b c : Vec2) :
  calls_of (QuadTo b c z) =
    if f32_ge (devSquared (pen z) b c) f32_0_333
    then flattening
           (stepParam (f32_div f32_one (f32_of_int (segments (devSquared (pen z) b c)))))
           (segments (devSquared (pen z) b c)) [pen z; b; c] c
    else [c].
Proof.
  destruct (f32_ge (devSquared (pen z) b c) f32_0_333) eqn:E.
  - pose proof (QuadTo_segments z b c E) as H. cbv zeta in H. rewrite H. reflexivity.
  - unfold QuadTo. cbv zeta. rewrite E. rewrite skip_then. reflexivity.
Qed.

Lemma CubeTo_calls {K : Kernels} (z : Rasterizer) (b c d : Vec2) :
  calls_of (CubeTo b c d z) =
    if f32_ge (cubeDevSquared (pen z) b c d) f32_0_333
    then flattening
           (stepParam (f32_div f32_one (f32_of_int (segments (cubeDevSquared (pen z) b c d)))))
           (segments (cubeDevSquared (pen z) b c d)) [pen z; b; c; d] d
    else [d].
Proof.
  destruct (f32_ge (cubeDevSquared (pen z) b c d) f32_0_333) eqn:E.
  - pose proof (CubeTo_segments z b c d E) as H. cbv zeta in H. rewrite H. reflexivity.
  - unfold CubeTo. cbv zeta. rewrite E. rewrite skip_then. reflexivity.
Qed.

(** X13.  The flattening of a curve depends on the pen and the control
    points only: two rasterizers with the same pen, whatever their sizes,
    math modes, buffers and line kernels, make the same sequence of [LineTo]
    calls for the same [QuadTo] and for the same [CubeTo]. *)
Theorem flattening_depends_on_pen_only {K1 K2 : Kernels} (z1 z2 : Rasterizer)
    (b c d : Vec2) :
  pen z1 = pen z2 ->
  calls_of (@QuadTo K1 b c z1) = calls_of (@QuadTo K2 b c z2) /\
  calls_of (@CubeTo K1 b c d z1) = calls_of (@CubeTo K2 b c d z2).
Proof.
  intros Hp. rewrite !QuadTo_calls, !CubeTo_calls, Hp. split; reflexivity.
Qed.

(** ** The fast paths against the generic operators *)

Lemma wide16_check :
  forall_range (fun p => wide16 p =? p * 257) 0 256 = true.
Proof. vm_compute. reflexivity. Qed.

Lemma wide16_byte (p : Z) : 0 <= p <= 255 -> wide16 p = p * 257.
Proof.
  intros H. apply Z.eqb_eq.
  apply (forall_range_sound (fun p => wide16 p =? p * 257) 256 0 wide16_check). lia.
Qed.

(** Narrowing sees only bits 8 to 15: reducing to 16 bits first changes
    nothing. *)
Lemma narrow8_to_uint16 (v : Z) : narrow8 (to_uint16 v) = narrow8 v.
Proof.
  unfold narrow8, to_uint16, to_uint8, wrap_unsigned, u32_shr.
  rewrite !Z.shiftr_div_pow2 by lia.
  change (2 ^ 16) with (256 * 256). change (2 ^ 8) with 256.
  rewrite Z.rem_mul_r by lia.
  rewrite (Z.mul_comm 256 ((v / 256) mod 256)), Z.div_add by lia.
  rewrite (Z.div_small (v mod 256) 256) by (apply Z.mod_pos_bound; lia).
  rewrite Z.add_0_l. apply Z.mod_mod. lia.
Qed.

(** X14.  The formulas of the fast paths are the generic formulas seen
    through an 8-bit destination, as their comments say.  For a destination
    byte [p], widened by [At] to [p | p<<8], and any source channel, alpha
    factor and mask value, the byte [rasterizeDstRGBASrcUniformOpOver]
    stores is the high byte of the channel [rasterizeOpOver] computes, and
    the byte [rasterizeDstRGBASrcUniformOpSrc] stores is the high byte of
    the channel of [rasterizeOpSrc].  For an opaque source and a 16-bit mask
    value, the bytes the two [image.Alpha] functions store are the high
    bytes of the alpha channels of [rasterizeOpOver] and [rasterizeOpSrc]. *)
Theorem fast_path_formulas_agree (p s a ma : Z) :
  0 <= p <= 255 ->
  uniformOver8 p a s ma = narrow8 (overChannel (wide16 p) s a ma) /\
  uniformSrc8 s ma = narrow8 (srcChannel s ma) /\
  (is_uint16 ma ->
   to_uint8 (u32_shr (u32_add (u32_div (u32_mul (u32_mul p 257) (u32_sub 65535 ma)) 65535)
                        ma) 8) =
     narrow8 (overChannel (wide16 p) 65535 (overAlpha 65535 ma) ma) /\
   to_uint8 (u32_shr ma 8) = narrow8 (srcChannel 65535 ma)).
Proof.
  intros Hp.
  assert (W : wide16 p = p * 257) by (apply wide16_byte; exact Hp).
  assert (M : u32_mul p 257 = p * 257).
  { unfold u32_mul. apply to_uint32_small. lia. }
  split; [|split].
  - unfold uniformOver8, overChannel. rewrite narrow8_to_uint16, M, W. reflexivity.
  - unfold uniformSrc8, srcChannel. rewrite narrow8_to_uint16. reflexivity.
  - intros Hma.
    assert (H16 : is_uint16 65535) by (unfold is_uint16; lia).
    assert (Hd : is_uint16 (wide16 p)) by (rewrite W; unfold is_uint16; lia).
    destruct (overChannel_exact (wide16 p) 65535 65535 ma Hd H16 H16 Hma) as [EO _]; [lia|].
    destruct (srcChannel_exact 65535 ma H16 Hma) as [ES _].
    rewrite EO, ES, M, W. unfold is_uint16 in Hma.
    assert (Q : 65535 * ma / 65535 = ma) by (rewrite Z.mul_comm; apply Z.div_mul; lia).
    rewrite Q. split; [|reflexivity].
    unfold narrow8. do 2 f_equal.
    assert (S1 : u32_sub 65535 ma = 65535 - ma).
    { unfold u32_sub. apply to_uint32_small. lia. }
    rewrite S1.
    assert (S2 : u32_mul (p * 257) (65535 - ma) = p * 257 * (65535 - ma)).
    { unfold u32_mul. apply to_uint32_small. nia. }
    rewrite S2. unfold u32_div.
    assert (B : 0 <= p * 257 * (65535 - ma) / 65535 <= 65535).
    { split; [apply Z.div_pos; nia|]. apply Z.div_le_upper_bound; nia. }
    rewrite (Z.add_comm (65535 * ma)), (Z.mul_comm 65535 ma), Z.div_add by lia.
    unfold u32_add. apply to_uint32_small. lia.
Qed.

(** ** The fast paths pixel by pixel *)

(** The pixel loops on a byte array, when the round for a pixel rewrites
    only the bytes of that pixel's footprint, from what it finds there:
    every footprint ends up as one round on the original array leaves it,
    every byte outside the footprints is kept. *)
Lemma for_pixels_footprint (r : Rectangle) (pix0 : list Z)
    (fp : Z -> Z -> nat -> Prop) (upd : Z -> Z -> list Z -> list Z)
    (body : Z -> Z -> list Z -> result (list Z)) :
  small_point (Min r) -> small_point (Max r) ->
  let dx := X (Max r) - X (Min r) in
  let dy := Y (Max r) - Y (Min r) in
  (forall x y x' y' j, 0 <= x < dx -> 0 <= y < dy -> 0 <= x' < dx -> 0 <= y' < dy ->
     fp x y j -> fp x' y' j -> x = x' /\ y = y') ->
  (forall x y pix, 0 <= x < dx -> 0 <= y < dy -> length pix = length pix0 ->
     body x y pix = Ok (upd x y pix) /\
     length (upd x y pix) = length pix0 /\
     (forall j, ~ fp x y j -> nth_error (upd x y pix) j = nth_error pix j) /\
     (forall j, fp x y j ->
        (forall i, fp x y i -> nth_error pix i = nth_error pix0 i) ->
        nth_error (upd x y pix) j = nth_error (upd x y pix0) j)) ->
  exists pix',
    for_pixels r body pix0 = Ok pix' /\
    length pix' = length pix0 /\
    (forall x y j, 0 <= x < dx -> 0 <= y < dy -> fp x y j ->
       nth_error pix' j = nth_error (upd x y pix0) j) /\
    (forall j, (forall x y, 0 <= x < dx -> 0 <= y < dy -> ~ fp x y j) ->
       nth_error pix' j = nth_error pix0 j).
Proof.
  intros [HmX HmY] [HMX HMY] dx dy Hdisj Hbody.
  unfold for_pixels.
  rewrite (int_sub_small _ _ HMY HmY), (int_sub_small _ _ HMX HmX).
  fold dx. fold dy.
  set (visited := fun (yy xx x y : Z) =>
         (0 <= x < dx /\ 0 <= y < yy) \/ (y = yy /\ 0 <= x < xx)).
  set (Inv := fun (yy xx : Z) (pix : list Z) =>
         length pix = length pix0 /\
         (forall x y j, visited yy xx x y -> fp x y j ->
            nth_error pix j = nth_error (upd x y pix0) j) /\
         (forall j, (forall x y, visited yy xx x y -> ~ fp x y j) ->
            nth_error pix j = nth_error pix0 j)).
  assert (Hrows : exists pix',
    for_loop (Z.to_nat dy) 0
      (fun y p => for_loop (Z.to_nat dx) 0 (fun x p0 => body x y p0) p) pix0 = Ok pix' /\
    Inv (0 + Z.of_nat (Z.to_nat dy)) 0 pix').
  { apply (for_loop_invariant _ (fun yy p => Inv yy 0 p)).
    - split; [reflexivity|]. split.
      + unfold visited. intros x y j [H|H]; lia.
      + intros j _. reflexivity.
    - intros y p Hy Hp.
      destruct (for_loop_invariant (fun x p0 => body x y p0) (fun xx q => Inv y xx q)
                  (Z.to_nat dx) 0 p Hp) as (p' & Hl & Hfin).
      + intros x q Hx (Lq & Aq & Bq).
        assert (Rx : 0 <= x < dx) by lia. assert (Ry : 0 <= y < dy) by lia.
        destruct (Hbody x y q Rx Ry Lq) as (Eb & Lu & Uout & Udep).
        exists (upd x y q). split; [exact Eb|].
        assert (Fresh : forall i, fp x y i -> nth_error q i = nth_error pix0 i).
        { intros i Fi. apply Bq. intros x' y' V F'.
          assert (Rx' : 0 <= x' < dx) by (unfold visited in V; lia).
          assert (Ry' : 0 <= y' < dy) by (unfold visited in V; lia).
          destruct (Hdisj x y x' y' i Rx Ry Rx' Ry' Fi F') as [-> ->].
          unfold visited in V. lia. }
        split; [exact Lu|]. split.
        * intros x' y' j V F'.
          assert (Rx' : 0 <= x' < dx) by (unfold visited in V; lia).
          assert (Ry' : 0 <= y' < dy) by (unfold visited in V; lia).
          destruct (Z.eq_dec x' x) as [Ex|Nx]; [destruct (Z.eq_dec y' y) as [Ey|Ny]|].
          -- subst x' y'. apply Udep; [exact F' | exact Fresh].
          -- rewrite Uout.
             ++ apply Aq; [unfold visited in *; lia | exact F'].
             ++ intros F. destruct (Hdisj x y x' y' j Rx Ry Rx' Ry' F F'). lia.
          -- rewrite Uout.
             ++ apply Aq; [unfold visited in *; lia | exact F'].
             ++ intros F. destruct (Hdisj x y x' y' j Rx Ry Rx' Ry' F F'). lia.
        * intros j Hj. rewrite Uout.
          -- apply Bq. intros x' y' V. apply Hj. unfold visited in *. lia.
          -- apply Hj. unfold visited. lia.
      + exists p'. split; [exact Hl|].
        destruct Hfin as (L & A & B0). split; [exact L|]. split.
        * intros x' y' j V. apply A. unfold visited in *. lia.
        * intros j Hj. apply B0. intros x' y' V. apply Hj. unfold visited in *. lia. }
  destruct Hrows as (pix' & Hl & L & A & B0). exists pix'.
  split; [exact Hl|]. split; [exact L|]. split.
  - intros x y j Hx Hy. apply A. unfold visited. left. lia.
  - intros j Hj. apply B0. intros x y V. apply Hj; unfold visited in V; lia.
Qed.

(** [set_byte] and [upd4] keep the length. *)
Lemma set_byte_length (k : nat) (g : Z -> Z) (l : list Z) :
  length (set_byte k g l) = length l.
Proof. apply list_set_length. Qed.

(** Byte [k] becomes [g] of its old value, the others stay. *)
Lemma set_byte_nth (k : nat) (g : Z -> Z) (l : list Z) (j : nat) :
  (k < length l)%nat ->
  nth_error (set_byte k g l) j =
    if (j =? k)%nat then Some (g (nth k l 0)) else nth_error l j.
Proof.
  intros H. unfold set_byte. destruct (Nat.eqb_spec j k) as [->|N].
  - apply nth_error_list_set_eq. exact H.
  - apply nth_error_list_set_neq. congruence.
Qed.

(** Two lists that agree at [j] through [nth_error] agree there through [nth]. *)
Lemma nth_of_nth_error (l l' : list Z) (j : nat) :
  nth_error l j = nth_error l' j -> nth j l 0 = nth j l' 0.
Proof.
  intros H. rewrite <- !nth_default_eq. unfold nth_default. rewrite H. reflexivity.
Qed.

Lemma upd4_length (k : nat) (g : nat -> Z -> Z) (l : list Z) :
  length (upd4 k g l) = length l.
Proof. unfold upd4. rewrite !set_byte_length. reflexivity. Qed.

(** Byte [k + c] becomes [g c] of its old value, the others stay. *)
Lemma upd4_nth (k : nat) (g : nat -> Z -> Z) (l : list Z) (j : nat) :
  (k + 3 < length l)%nat ->
  nth_error (upd4 k g l) j =
    if (k <=? j)%nat && (j <? k + 4)%nat
    then Some (g (j - k)%nat (nth j l 0))
    else nth_error l j.
Proof.
  intros H. unfold upd4.
  rewrite set_byte_nth by (rewrite !set_byte_length; lia).
  destruct (Nat.eqb_spec j (k + 3)) as [->|N3].
  { replace ((k <=? k + 3)%nat && (k + 3 <? k + 4)%nat) with true
      by (symmetry; apply andb_true_iff; split; [apply Nat.leb_le | apply Nat.ltb_lt]; lia).
    replace (k + 3 - k)%nat with 3%nat by lia. do 2 f_equal.
    apply nth_of_nth_error. rewrite !set_byte_nth by (rewrite ?set_byte_length; lia).
    destruct (Nat.eqb_spec (k + 3) (k + 2)); [lia|].
    destruct (Nat.eqb_spec (k + 3) (k + 1)); [lia|].
    destruct (Nat.eqb_spec (k + 3) k); [lia|]. reflexivity. }
  rewrite set_byte_nth by (rewrite !set_byte_length; lia).
  destruct (Nat.eqb_spec j (k + 2)) as [->|N2].
  { replace ((k <=? k + 2)%nat && (k + 2 <? k + 4)%nat) with true
      by (symmetry; apply andb_true_iff; split; [apply Nat.leb_le | apply Nat.ltb_lt]; lia).
    replace (k + 2 - k)%nat with 2%nat by lia. do 2 f_equal.
    apply nth_of_nth_error. rewrite !set_byte_nth by (rewrite ?set_byte_length; lia).
    destruct (Nat.eqb_spec (k + 2) (k + 1)); [lia|].
    destruct (Nat.eqb_spec (k + 2) k); [lia|]. reflexivity. }
  rewrite set_byte_nth by (rewrite !set_byte_length; lia).
  destruct (Nat.eqb_spec j (k + 1)) as [->|N1].
  { replace ((k <=? k + 1)%nat && (k + 1 <? k + 4)%nat) with true
      by (symmetry; apply andb_true_iff; split; [apply Nat.leb_le | apply Nat.ltb_lt]; lia).
    replace (k + 1 - k)%nat with 1%nat by lia. do 2 f_equal.
    apply nth_of_nth_error. rewrite !set_byte_nth by (rewrite ?set_byte_length; lia).
    destruct (Nat.eqb_spec (k + 1) k); [lia|]. reflexivity. }
  rewrite set_byte_nth by lia.
  destruct (Nat.eqb_spec j k) as [->|N0].
  { replace ((k <=? k)%nat && (k <? k + 4)%nat) with true
      by (symmetry; apply andb_true_iff; split; [apply Nat.leb_le | apply Nat.ltb_lt]; lia).
    replace (k - k)%nat with 0%nat by lia. reflexivity. }
  replace ((k <=? j)%nat && (j <? k + 4)%nat) with false; [reflexivity|].
  symmetry. apply andb_false_iff.
  destruct (Nat.leb_spec k j); [right; apply Nat.ltb_ge; lia | left; reflexivity].
Qed.

(** Reading and writing [pix[i]] for [pix := dst.Pix[off:]], in range. *)
Lemma sub_index_Ok (l : list Z) (off i : Z) :
  0 <= off -> 0 <= i -> off + i < Z.of_nat (length l) ->
  sub_index l off i = Ok (nth (Z.to_nat (off + i)) l 0).
Proof.
  intros Ho Hi Hl. unfold sub_index, index.
  assert (R1 : (0 <=? i) && (i <? Z.of_nat (length l) - off) = true).
  { apply andb_true_iff. split; [apply Z.leb_le | apply Z.ltb_lt]; lia. }
  assert (R2 : (0 <=? off + i) && (off + i <? Z.of_nat (length l)) = true).
  { apply andb_true_iff. split; [apply Z.leb_le | apply Z.ltb_lt]; lia. }
  rewrite R1, R2.
  destruct (nth_error l (Z.to_nat (off + i))) as [v|] eqn:N.
  - f_equal. symmetry. apply nth_error_nth. exact N.
  - apply nth_error_None in N. lia.
Qed.

Lemma sub_store_Ok (l : list Z) (off i v : Z) :
  0 <= off -> 0 <= i -> off + i < Z.of_nat (length l) ->
  sub_store l off i v = Ok (list_set l (Z.to_nat (off + i)) v).
Proof.
  intros Ho Hi Hl. unfold sub_store, store.
  assert (R1 : (0 <=? i) && (i <? Z.of_nat (length l) - off) = true).
  { apply andb_true_iff. split; [apply Z.leb_le | apply Z.ltb_lt]; lia. }
  assert (R2 : (0 <=? off + i) && (off + i <? Z.of_nat (length l)) = true).
  { apply andb_true_iff. split; [apply Z.leb_le | apply Z.ltb_lt]; lia. }
  rewrite R1, R2. reflexivity.
Qed.

(** [PixOffset] of an [image.RGBA] without wrap-around, for small coordinates. *)
Lemma RGBA_PixOffset_small (p : RGBAImage) (x y : Z) :
  small_point (Min (pRect p)) -> small x -> small y -> 0 <= pStride p <= 2 ^ 30 ->
  RGBA_PixOffset p x y =
    (y - Y (Min (pRect p))) * pStride p + (x - X (Min (pRect p))) * 4.
Proof.
  intros [HX HY] Hx Hy Hs. unfold RGBA_PixOffset.
  rewrite (int_sub_small _ _ Hy HY), (int_sub_small _ _ Hx HX).
  unfold small in *.
  rewrite (int_mul_small (y - Y (Min (pRect p))) (pStride p)) by lia.
  rewrite (int_mul_small (x - X (Min (pRect p))) 4) by lia.
  rewrite int_add_small by nia. lia.
Qed.

(** Blocks of four bytes at row-major offsets tell pixels apart as long as
    the rows of blocks stay below the stride. *)
Lemma block_inj (off s w x y x' y' : Z) (j : nat) :
  0 <= off -> 0 <= x < w -> 0 <= x' < w -> 0 <= y -> 0 <= y' -> 4 * w <= s ->
  (Z.to_nat (off + y * s + 4 * x) <= j < Z.to_nat (off + y * s + 4 * x) + 4)%nat ->
  (Z.to_nat (off + y' * s + 4 * x') <= j < Z.to_nat (off + y' * s + 4 * x') + 4)%nat ->
  x = x' /\ y = y'.
Proof.
  intros Ho Hx Hx' Hy Hy' Hw B B'.
  assert (N : 0 <= y * s + 4 * x) by nia.
  assert (N' : 0 <= y' * s + 4 * x') by nia.
  set (c := Z.of_nat j - (off + y * s + 4 * x)).
  set (c' := Z.of_nat j - (off + y' * s + 4 * x')).
  assert (Hc : 0 <= c < 4) by (unfold c; lia).
  assert (Hc' : 0 <= c' < 4) by (unfold c'; lia).
  assert (E : y * s + (4 * x + c) = y' * s + (4 * x' + c')) by (unfold c, c'; lia).
  destruct (row_major_inj s (4 * w) (4 * x + c) y (4 * x' + c') y') as [Ey Ex];
    [lia | lia | lia | exact E |].
  split; [lia | exact Ey].
Qed.

(** The pixel loops over an array of four-byte pixels, when the round for
    pixel [(x, y)] rewrites its four bytes by [g x y]. *)
Lemma for_pixels_blocks (r : Rectangle) (pix0 : list Z) (off s : Z)
    (g : Z -> Z -> nat -> Z -> Z) (body : Z -> Z -> list Z -> result (list Z)) :
  small_point (Min r) -> small_point (Max r) ->
  let dx := X (Max r) - X (Min r) in
  let dy := Y (Max r) - Y (Min r) in
  let k := fun x y => Z.to_nat (off + y * s + 4 * x) in
  0 < dx -> 4 * dx <= s -> 0 < dy -> 0 <= off ->
  off + (dy - 1) * s + 4 * dx <= Z.of_nat (length pix0) ->
  (forall x y pix, 0 <= x < dx -> 0 <= y < dy -> length pix = length pix0 ->
     body x y pix = Ok (upd4 (k x y) (g x y) pix)) ->
  exists pix',
    for_pixels r body pix0 = Ok pix' /\
    length pix' = length pix0 /\
    (forall x y c, 0 <= x < dx -> 0 <= y < dy -> (c < 4)%nat ->
       nth_error pix' (k x y + c) = Some (g x y c (nth (k x y + c) pix0 0))) /\
    (forall j, (forall x y, 0 <= x < dx -> 0 <= y < dy ->
                  ~ (k x y <= j < k x y + 4)%nat) ->
       nth_error pix' j = nth_error pix0 j).
Proof.
  intros Hmin Hmax dx dy k Hdx Hs Hdy Hoff Hlen Hbody.
  assert (Hin : forall x y (l : list Z), 0 <= x < dx -> 0 <= y < dy ->
            length l = length pix0 -> (k x y + 3 < length l)%nat).
  { intros x y l Hx Hy Hl. unfold k. rewrite Hl. nia. }
  destruct (for_pixels_footprint r pix0
              (fun x y j => (k x y <= j < k x y + 4)%nat)
              (fun x y pix => upd4 (k x y) (g x y) pix) body Hmin Hmax)
    as (pix' & Hloop & L & A & B0).
  - intros x y x' y' j Hx Hy Hx' Hy' F F'. fold dx in Hx, Hx'. fold dy in Hy, Hy'.
    apply (block_inj off s dx x y x' y' j); try lia; assumption.
  - intros x y pix Hx Hy Lp. fold dx in Hx. fold dy in Hy.
    split; [apply Hbody; assumption|].
    split; [rewrite upd4_length; exact Lp|]. split.
    + intros j Hj. rewrite upd4_nth by (apply Hin; assumption).
      destruct ((k x y <=? j)%nat && (j <? k x y + 4)%nat) eqn:E; [|reflexivity].
      exfalso. apply Hj. apply andb_true_iff in E. destruct E as [E1 E2].
      apply Nat.leb_le in E1. apply Nat.ltb_lt in E2. lia.
    + intros j Hj Hsame.
      rewrite !upd4_nth by (apply Hin; (assumption || reflexivity)).
      destruct ((k x y <=? j)%nat && (j <? k x y + 4)%nat); [|apply Hsame; exact Hj].
      do 2 f_equal. apply nth_of_nth_error. apply Hsame. exact Hj.
  - exists pix'. split; [exact Hloop|]. split; [exact L|]. split.
    + intros x y c Hx Hy Hc.
      rewrite (A x y (k x y + c)%nat) by (fold dx; fold dy; lia).
      rewrite upd4_nth by (apply Hin; (assumption || reflexivity)).
      replace ((k x y <=? k x y + c)%nat && (k x y + c <? k x y + 4)%nat) with true
        by (symmetry; apply andb_true_iff; split;
            [apply Nat.leb_le | apply Nat.ltb_lt]; lia).
      replace (k x y + c - k x y)%nat with c by lia. reflexivity.
    + intros j Hj. apply B0. intros x y Hx Hy. apply Hj; assumption.
Qed.

(** X17.  The two fast paths onto an [image.RGBA] with a uniform source,
    pixel by pixel: for a well-formed destination, a non-empty [r] inside
    its bounds and no larger than the mask, [rasterizeDstRGBASrcUniformOpOver]
    and [rasterizeDstRGBASrcUniformOpSrc] return; after [accumulateMask],
    byte [c] of each pixel of [r] is, for Over, [uniformOver8] of the old
    byte, the alpha factor, channel [c] of the source and the pixel's mask
    value, and for Src [uniformSrc8] of channel [c] and the mask value; the
    bytes of the pixels of the destination outside [r] are kept. *)
Theorem RGBA_fast_path_pixels {K : Kernels} (z : Rasterizer) (dst : RGBAImage)
    (r : Rectangle) (sr sg sb sa : Z) :
  mask_ready z -> RGBA_wf dst -> rect_inside r (pRect dst) ->
  let dx := X (Max r) - X (Min r) in
  let dy := Y (Max r) - Y (Min r) in
  dx <= X (size z) -> dy <= Y (size z) ->
  exists z1 over src',
    accumulateMask z = Ok z1 /\
    rasterizeDstRGBASrcUniformOpOver z dst r sr sg sb sa = Ok (z1, over) /\
    rasterizeDstRGBASrcUniformOpSrc z dst r sr sg sb sa = Ok (z1, src') /\
    pStride over = pStride dst /\ pRect over = pRect dst /\
    pStride src' = pStride dst /\ pRect src' = pRect dst /\
    (forall x y c, 0 <= x < dx -> 0 <= y < dy -> (c < 4)%nat ->
       let ma := mask_value z1 x y in
       exists old,
         RGBA_byte dst (X (Min r) + x) (Y (Min r) + y) c = Ok old /\
         RGBA_byte over (X (Min r) + x) (Y (Min r) + y) c =
           Ok (uniformOver8 old (overAlpha sa ma) (channel sr sg sb sa c) ma) /\
         RGBA_byte src' (X (Min r) + x) (Y (Min r) + y) c =
           Ok (uniformSrc8 (channel sr sg sb sa c) ma)) /\
    (forall px py c, point_in (mkPoint px py) (pRect dst) = true ->
       point_in (mkPoint px py) r = false -> (c < 4)%nat ->
       RGBA_byte over px py c = RGBA_byte dst px py c /\
       RGBA_byte src' px py c = RGBA_byte dst px py c).
Proof.
  intros Hready (HRmin & HRmax & HRdx & HRs & HRdy & Hs & Hpix) Hin dx dy Hdx Hdy.
  destruct Hin as (I1 & I2 & I3 & I4 & I5 & I6).
  destruct (accumulateMask_ready z Hready) as (z1 & Hacc & Hsize & Hlen).
  destruct Hready as (HW & HH & _). rewrite <- Hsize in *.
  destruct HRmin as [HRX HRY]. destruct HRmax as [HRX' HRY'].
  assert (Hrmin : small_point (Min r)) by (unfold small_point, small in *; lia).
  assert (Hrmax : small_point (Max r)) by (unfold small_point, small in *; lia).
  set (s := pStride dst) in *.
  set (off := (Y (Min r) - Y (Min (pRect dst))) * s + (X (Min r) - X (Min (pRect dst))) * 4).
  assert (Hoffset : forall (q : RGBAImage) px py,
            pStride q = s -> pRect q = pRect dst -> small px -> small py ->
            RGBA_PixOffset q px py =
              (py - Y (Min (pRect dst))) * s + (px - X (Min (pRect dst))) * 4).
  { intros q px py Es Er Hpx Hpy. rewrite RGBA_PixOffset_small; rewrite ?Es, ?Er;
      [reflexivity | split; assumption | assumption | assumption | lia]. }
  assert (Eoff : RGBA_PixOffset dst (X (Min r)) (Y (Min r)) = off).
  { destruct Hrmin. apply Hoffset; (reflexivity || assumption). }
  assert (Hoff0 : 0 <= off) by (unfold off; nia).
  assert (Hfit : off + (dy - 1) * s + 4 * dx <= Z.of_nat (length (pPix dst))).
  { unfold off, dx, dy. nia. }
  assert (Hsl : slice_from (pPix dst) off = Ok off).
  { unfold slice_from.
    assert (R0 : (0 <=? off) && (off <=? Z.of_nat (length (pPix dst))) = true).
    { apply andb_true_iff. split; apply Z.leb_le; nia. }
    rewrite R0. reflexivity. }
  assert (Hmask : forall x y, 0 <= x < dx -> 0 <= y < dy ->
            mask_at z1 x y = Ok (mask_value z1 x y)).
  { intros x y Hx Hy.
    destruct (mask_at_in_range z1 x y dx dy HW Hlen) as [Hm _]; try lia; assumption. }
  assert (Hidx : forall x y c, 0 <= x < dx -> 0 <= y < dy -> 0 <= c < 4 ->
            int_add (int_add (int_mul y s) (int_mul 4 x)) c = y * s + 4 * x + c).
  { intros x y c Hx Hy Hc. unfold small in *.
    rewrite (int_mul_small y s) by lia. rewrite (int_mul_small 4 x) by lia.
    rewrite (int_add_small (y * s) (4 * x)) by nia. apply int_add_small; nia. }
  set (k := fun x y => Z.to_nat (off + y * s + 4 * x)).
  assert (Hk : forall x y c, 0 <= x < dx -> 0 <= y < dy -> 0 <= c < 4 ->
            Z.to_nat (off + (y * s + 4 * x + c)) = (k x y + Z.to_nat c)%nat).
  { intros x y c Hx Hy Hc. unfold k. nia. }
  assert (Hrange : forall x y c (l : list Z), 0 <= x < dx -> 0 <= y < dy -> 0 <= c < 4 ->
            length l = length (pPix dst) ->
            0 <= y * s + 4 * x + c /\ off + (y * s + 4 * x + c) < Z.of_nat (length l)).
  { intros x y c l Hx Hy Hc Hl. rewrite Hl. nia. }
  (* the loop of [draw.Over] *)
  destruct (for_pixels_blocks r (pPix dst) off s
              (fun x y c old =>
                 uniformOver8 old (overAlpha sa (mask_value z1 x y))
                   (channel sr sg sb sa c) (mask_value z1 x y))
              (fun x y pix =>
                 ma <-- mask_at z1 x y ;;
                 let a := u32_sub 65535 (u32_div (u32_mul sa ma) 65535) in
                 let i := int_add (int_mul y s) (int_mul 4 x) in
                 p0 <-- sub_index pix off (int_add i 0) ;;
                 pix <-- sub_store pix off (int_add i 0) (uniformOver8 p0 a sr ma) ;;
                 p1 <-- sub_index pix off (int_add i 1) ;;
                 pix <-- sub_store pix off (int_add i 1) (uniformOver8 p1 a sg ma) ;;
                 p2 <-- sub_index pix off (int_add i 2) ;;
                 pix <-- sub_store pix off (int_add i 2) (uniformOver8 p2 a sb ma) ;;
                 p3 <-- sub_index pix off (int_add i 3) ;;
                 sub_store pix off (int_add i 3) (uniformOver8 p3 a sa ma))
              Hrmin Hrmax) as (pixO & HloopO & LO & HinO & HoutO);
    try (fold dx; fold dy; lia); try exact Hoff0; try exact Hfit.
  { intros x y pix Hx Hy Lp. fold dx in Hx. fold dy in Hy.
    rewrite (Hmask x y Hx Hy), rbind_Ok. cbv zeta.
    rewrite !Hidx by (assumption || lia).
    fold (overAlpha sa (mask_value z1 x y)).
    assert (R : forall c, 0 <= c < 4 ->
              0 <= y * s + 4 * x + c /\
              off + (y * s + 4 * x + c) < Z.of_nat (length (pPix dst))).
    { intros c Hc. apply (Hrange x y c (pPix dst)); (assumption || reflexivity). }
    destruct (R 0) as [A0 B0]; [lia|]. destruct (R 1) as [A1 B1]; [lia|].
    destruct (R 2) as [A2 B2]; [lia|]. destruct (R 3) as [A3 B3]; [lia|].
    rewrite sub_index_Ok by (rewrite ?list_set_length, ?Lp; assumption).
    rewrite rbind_Ok.
    rewrite sub_store_Ok by (rewrite ?list_set_length, ?Lp; assumption).
    rewrite rbind_Ok.
    rewrite sub_index_Ok by (rewrite ?list_set_length, ?Lp; assumption).
    rewrite rbind_Ok.
    rewrite sub_store_Ok by (rewrite ?list_set_length, ?Lp; assumption).
    rewrite rbind_Ok.
    rewrite sub_index_Ok by (rewrite ?list_set_length, ?Lp; assumption).
    rewrite rbind_Ok.
    rewrite sub_store_Ok by (rewrite ?list_set_length, ?Lp; assumption).
    rewrite rbind_Ok.
    rewrite sub_index_Ok by (rewrite ?list_set_length, ?Lp; assumption).
    rewrite rbind_Ok.
    rewrite sub_store_Ok by (rewrite ?list_set_length, ?Lp; assumption).
    assert (E0 : k x y = Z.to_nat (off + (y * s + 4 * x + 0))) by (unfold k; f_equal; lia).
    assert (E1 : (k x y + 1)%nat = Z.to_nat (off + (y * s + 4 * x + 1)))
      by (rewrite Hk by (assumption || lia); reflexivity).
    assert (E2 : (k x y + 2)%nat = Z.to_nat (off + (y * s + 4 * x + 2)))
      by (rewrite Hk by (assumption || lia); reflexivity).
    assert (E3 : (k x y + 3)%nat = Z.to_nat (off + (y * s + 4 * x + 3)))
      by (rewrite Hk by (assumption || lia); reflexivity).
    unfold upd4, set_byte, channel. cbn [nth]. fold (k x y).
    rewrite E3, E2, E1, E0. reflexivity. }
  (* the loop of [draw.Src] *)
  destruct (for_pixels_blocks r (pPix dst) off s
              (fun x y c _ => uniformSrc8 (channel sr sg sb sa c) (mask_value z1 x y))
              (fun x y pix =>
                 ma <-- mask_at z1 x y ;;
                 let i := int_add (int_mul y s) (int_mul 4 x) in
                 pix <-- sub_store pix off (int_add i 0) (uniformSrc8 sr ma) ;;
                 pix <-- sub_store pix off (int_add i 1) (uniformSrc8 sg ma) ;;
                 pix <-- sub_store pix off (int_add i 2) (uniformSrc8 sb ma) ;;
                 sub_store pix off (int_add i 3) (uniformSrc8 sa ma))
              Hrmin Hrmax) as (pixS & HloopS & LS & HinS & HoutS);
    try (fold dx; fold dy; lia); try exact Hoff0; try exact Hfit.
  { intros x y pix Hx Hy Lp. fold dx in Hx. fold dy in Hy.
    rewrite (Hmask x y Hx Hy), rbind_Ok. cbv zeta.
    rewrite !Hidx by (assumption || lia).
    assert (R : forall c, 0 <= c < 4 ->
              0 <= y * s + 4 * x + c /\
              off + (y * s + 4 * x + c) < Z.of_nat (length (pPix dst))).
    { intros c Hc. apply (Hrange x y c (pPix dst)); (assumption || reflexivity). }
    destruct (R 0) as [A0 B0]; [lia|]. destruct (R 1) as [A1 B1]; [lia|].
    destruct (R 2) as [A2 B2]; [lia|]. destruct (R 3) as [A3 B3]; [lia|].
    rewrite sub_store_Ok by (rewrite ?list_set_length, ?Lp; assumption).
    rewrite rbind_Ok.
    rewrite sub_store_Ok by (rewrite ?list_set_length, ?Lp; assumption).
    rewrite rbind_Ok.
    rewrite sub_store_Ok by (rewrite ?list_set_length, ?Lp; assumption).
    rewrite rbind_Ok.
    rewrite sub_store_Ok by (rewrite ?list_set_length, ?Lp; assumption).
    assert (E0 : k x y = Z.to_nat (off + (y * s + 4 * x + 0))) by (unfold k; f_equal; lia).
    assert (E1 : (k x y + 1)%nat = Z.to_nat (off + (y * s + 4 * x + 1)))
      by (rewrite Hk by (assumption || lia); reflexivity).
    assert (E2 : (k x y + 2)%nat = Z.to_nat (off + (y * s + 4 * x + 2)))
      by (rewrite Hk by (assumption || lia); reflexivity).
    assert (E3 : (k x y + 3)%nat = Z.to_nat (off + (y * s + 4 * x + 3)))
      by (rewrite Hk by (assumption || lia); reflexivity).
    unfold upd4, set_byte, channel. cbn [nth]. fold (k x y).
    rewrite E3, E2, E1, E0. reflexivity. }
  fold k in HinO, HoutO, HinS, HoutS.
  exists z1, (mkRGBAImage pixO s (pRect dst)), (mkRGBAImage pixS s (pRect dst)).
  split; [exact Hacc|].
  split.
  { unfold rasterizeDstRGBASrcUniformOpOver. rewrite Hacc, rbind_Ok, Eoff, Hsl, rbind_Ok.
    fold s. cbv beta zeta. cbv beta zeta in HloopO. rewrite HloopO. reflexivity. }
  split.
  { unfold rasterizeDstRGBASrcUniformOpSrc. rewrite Hacc, rbind_Ok, Eoff, Hsl, rbind_Ok.
    fold s. cbv beta zeta. cbv beta zeta in HloopS. rewrite HloopS. reflexivity. }
  do 4 (split; [reflexivity|]).
  assert (Hbyte : forall (q : RGBAImage) px py (c : nat),
            pStride q = s -> pRect q = pRect dst -> small px -> small py ->
            RGBA_byte q px py c =
              index (pPix q)
                ((py - Y (Min (pRect dst))) * s + (px - X (Min (pRect dst))) * 4
                 + Z.of_nat c)).
  { intros q px py c Es Er Hpx Hpy. unfold RGBA_byte.
    rewrite (Hoffset q px py Es Er Hpx Hpy). reflexivity. }
  split.
  - intros x y c Hx Hy Hc. cbv zeta.
    assert (Spx : small (X (Min r) + x)) by (destruct Hrmin, Hrmax; unfold small in *; lia).
    assert (Spy : small (Y (Min r) + y)) by (destruct Hrmin, Hrmax; unfold small in *; lia).
    assert (Ej : (Y (Min r) + y - Y (Min (pRect dst))) * s +
                 (X (Min r) + x - X (Min (pRect dst))) * 4 + Z.of_nat c =
                 Z.of_nat (k x y + c)).
    { unfold k, off. nia. }
    assert (Hj : (k x y + c < length (pPix dst))%nat) by (unfold k; nia).
    exists (nth (k x y + c) (pPix dst) 0).
    rewrite !Hbyte by (reflexivity || assumption). cbn [pPix]. rewrite Ej.
    split; [|split].
    + apply index_of_nth_error; [lia|]. rewrite Nat2Z.id.
      apply nth_error_nth'. exact Hj.
    + apply index_of_nth_error; [lia|]. rewrite Nat2Z.id.
      apply (HinO x y c); assumption.
    + apply index_of_nth_error; [lia|]. rewrite Nat2Z.id.
      apply (HinS x y c); assumption.
  - intros px py c Pin Pout Hc.
    unfold point_in in Pin, Pout. cbn [X Y] in Pin, Pout.
    repeat (apply andb_true_iff in Pin; destruct Pin as [Pin ?]).
    apply Z.leb_le in Pin.
    repeat match goal with
           | H : (_ <=? _) = true |- _ => apply Z.leb_le in H
           | H : (_ <? _) = true |- _ => apply Z.ltb_lt in H
           end.
    assert (Spx : small px) by (unfold small in *; lia).
    assert (Spy : small py) by (unfold small in *; lia).
    rewrite !Hbyte by (reflexivity || assumption). cbn [pPix].
    set (j := (py - Y (Min (pRect dst))) * s + (px - X (Min (pRect dst))) * 4 + Z.of_nat c).
    assert (Hj0 : 0 <= j) by (unfold j; nia).
    assert (Hfree : forall x y, 0 <= x < dx -> 0 <= y < dy ->
              ~ (k x y <= Z.to_nat j < k x y + 4)%nat).
    { intros x y Hx Hy B.
      set (c' := j - (off + y * s + 4 * x)).
      assert (N : 0 <= off + y * s + 4 * x) by nia.
      assert (Hc' : 0 <= c' < 4) by (unfold c', k in *; lia).
      assert (E : (py - Y (Min (pRect dst))) * s +
                  (4 * (px - X (Min (pRect dst))) + Z.of_nat c) =
                  (Y (Min r) - Y (Min (pRect dst)) + y) * s +
                  (4 * (X (Min r) - X (Min (pRect dst)) + x) + c')).
      { unfold c', j, off. lia. }
      destruct (row_major_inj s (4 * (X (Max (pRect dst)) - X (Min (pRect dst))))
                  (4 * (px - X (Min (pRect dst))) + Z.of_nat c) (py - Y (Min (pRect dst)))
                  (4 * (X (Min r) - X (Min (pRect dst)) + x) + c')
                  (Y (Min r) - Y (Min (pRect dst)) + y)) as [Ey Ex];
        [lia | unfold dx in *; lia | lia | exact E |].
      assert (T : (X (Min r) <=? px) && (px <? X (Max r)) &&
                  (Y (Min r) <=? py) && (py <? Y (Max r)) = true).
      { repeat (apply andb_true_iff; split); try apply Z.leb_le; try apply Z.ltb_lt;
          unfold dx, dy in *; lia. }
      rewrite T in Pout. discriminate. }
    split; (apply index_same; [assumption|]).
    + apply HoutO. exact Hfree.
    + apply HoutS. exact Hfree.
Qed.

(** X18.  The staged path of [rasterizeDstAlphaSrcOpaqueOpOver]: for a
    well-formed destination, a non-empty [r] inside its bounds and no larger
    than the mask, the call returns; after [accumulateMask], each byte of
    the destination inside [r] is [opaqueOver8] of the old byte and the mask
    value of the corresponding pixel, and the bytes of the other pixels are
    kept. *)
Theorem staged_OpOver_pixels {K : Kernels} (z : Rasterizer) (dst : Alpha) (r : Rectangle) :
  mask_ready z -> Alpha_wf dst -> rect_inside r (aRect dst) ->
  let dx := X (Max r) - X (Min r) in
  let dy := Y (Max r) - Y (Min r) in
  dx <= X (size z) -> dy <= Y (size z) ->
  rect_eqb r (aRect dst) && rect_eqb r (Bounds z) = false ->
  exists z1 dst',
    accumulateMask z = Ok z1 /\
    rasterizeDstAlphaSrcOpaqueOpOver z dst r = Ok (z1, dst') /\
    aStride dst' = aStride dst /\ aRect dst' = aRect dst /\
    (forall x y, 0 <= x < dx -> 0 <= y < dy ->
       exists old,
         Alpha_byte dst (X (Min r) + x) (Y (Min r) + y) = Ok old /\
         Alpha_byte dst' (X (Min r) + x) (Y (Min r) + y) =
           Ok (opaqueOver8 old (mask_value z1 x y))) /\
    (forall px py, point_in (mkPoint px py) (aRect dst) = true ->
       point_in (mkPoint px py) r = false ->
       Alpha_byte dst' px py = Alpha_byte dst px py).
Proof.
  intros Hready (HRmin & HRmax & HRdx & HRdy & Hs & Hpix) Hin dx dy Hdx Hdy Hstaged.
  destruct Hin as (I1 & I2 & I3 & I4 & I5 & I6).
  destruct (accumulateMask_ready z Hready) as (z1 & Hacc & Hsize & Hlen).
  destruct Hready as (HW & HH & _). rewrite <- Hsize in *.
  destruct HRmin as [HRX HRY]. destruct HRmax as [HRX' HRY'].
  assert (Hrmin : small_point (Min r)) by (unfold small_point, small in *; lia).
  assert (Hrmax : small_point (Max r)) by (unfold small_point, small in *; lia).
  set (s := aStride dst) in *.
  set (off := (Y (Min r) - Y (Min (aRect dst))) * s + (X (Min r) - X (Min (aRect dst)))).
  assert (Hoffset : forall (q : Alpha) px py,
            aStride q = s -> aRect q = aRect dst -> small px -> small py ->
            Alpha_PixOffset q px py =
              (py - Y (Min (aRect dst))) * s + (px - X (Min (aRect dst)))).
  { intros q px py Es Er Hpx Hpy. rewrite Alpha_PixOffset_small; rewrite ?Es, ?Er;
      [reflexivity | split; assumption | assumption | assumption | lia]. }
  assert (Eoff : Alpha_PixOffset dst (X (Min r)) (Y (Min r)) = off).
  { destruct Hrmin. apply Hoffset; (reflexivity || assumption). }
  assert (Hoff0 : 0 <= off) by (unfold off; nia).
  assert (Hfit : off + (dy - 1) * s + dx <= Z.of_nat (length (aPix dst))).
  { unfold off, dx, dy. nia. }
  assert (Hsl : slice_from (aPix dst) off = Ok off).
  { unfold slice_from.
    assert (R0 : (0 <=? off) && (off <=? Z.of_nat (length (aPix dst))) = true).
    { apply andb_true_iff. split; apply Z.leb_le; nia. }
    rewrite R0. reflexivity. }
  set (k := fun x y => Z.to_nat (off + y * s + x)).
  assert (Hkin : forall x y (l : list Z), 0 <= x < dx -> 0 <= y < dy ->
            length l = length (aPix dst) -> (k x y < length l)%nat).
  { intros x y l Hx Hy Hl. unfold k. rewrite Hl. nia. }
  destruct (for_pixels_footprint r (aPix dst)
              (fun x y j => j = k x y)
              (fun x y pix =>
                 set_byte (k x y) (fun old => opaqueOver8 old (mask_value z1 x y)) pix)
              (fun x y pix =>
                 ma <-- mask_at z1 x y ;;
                 let i := int_add (int_mul y s) x in
                 let a := u32_sub 65535 ma in
                 p <-- sub_index pix off i ;;
                 sub_store pix off i
                   (to_uint8 (u32_shr (u32_add (u32_div (u32_mul (u32_mul p 257) a) 65535)
                                         ma) 8)))
              Hrmin Hrmax) as (pix' & Hloop & L & A & B0).
  { intros x y x' y' j Hx Hy Hx' Hy' -> E. fold dx in Hx, Hx'. fold dy in Hy, Hy'.
    assert (E' : y * s + x = y' * s + x').
    { unfold k in E. assert (0 <= y * s + x) by nia. assert (0 <= y' * s + x') by nia. lia. }
    destruct (row_major_inj s dx x y x' y') as [Ey Ex]; try lia. }
  { intros x y pix Hx Hy Lp. fold dx in Hx. fold dy in Hy.
    assert (Ei : int_add (int_mul y s) x = y * s + x).
    { unfold small in *. rewrite int_mul_small by lia. apply int_add_small; nia. }
    assert (Ri : 0 <= y * s + x /\ off + (y * s + x) < Z.of_nat (length pix)).
    { rewrite Lp. nia. }
    assert (Ek : Z.to_nat (off + (y * s + x)) = k x y) by (unfold k; f_equal; lia).
    split.
    - destruct (mask_at_in_range z1 x y dx dy HW Hlen) as [Hm _]; try lia; try assumption.
      rewrite Hm, rbind_Ok. cbv zeta. rewrite Ei.
      rewrite sub_index_Ok by (exact Hoff0 || apply Ri).
      rewrite rbind_Ok.
      rewrite sub_store_Ok by (exact Hoff0 || apply Ri).
      rewrite Ek. reflexivity.
    - split; [rewrite set_byte_length; exact Lp|]. split.
      + intros j Hj. rewrite set_byte_nth by (apply Hkin; assumption).
        destruct (Nat.eqb_spec j (k x y)); [contradiction | reflexivity].
      + intros j -> Hsame.
        rewrite !set_byte_nth by (apply Hkin; (assumption || reflexivity)).
        rewrite Nat.eqb_refl. do 2 f_equal. apply nth_of_nth_error. apply Hsame. reflexivity. }
  exists z1, (mkAlpha pix' s (aRect dst)).
  split; [exact Hacc|]. split.
  { unfold rasterizeDstAlphaSrcOpaqueOpOver. rewrite Hstaged, Hacc, rbind_Ok, Eoff, Hsl, rbind_Ok.
    fold s. cbv beta zeta. cbv beta zeta in Hloop. rewrite Hloop. reflexivity. }
  do 2 (split; [reflexivity|]).
  assert (Hbyte : forall (q : Alpha) px py,
            aStride q = s -> aRect q = aRect dst -> small px -> small py ->
            Alpha_byte q px py =
              index (aPix q) ((py - Y (Min (aRect dst))) * s + (px - X (Min (aRect dst))))).
  { intros q px py Es Er Hpx Hpy. unfold Alpha_byte.
    rewrite (Hoffset q px py Es Er Hpx Hpy). reflexivity. }
  split.
  - intros x y Hx Hy.
    assert (Spx : small (X (Min r) + x)) by (destruct Hrmin, Hrmax; unfold small in *; lia).
    assert (Spy : small (Y (Min r) + y)) by (destruct Hrmin, Hrmax; unfold small in *; lia).
    assert (Ej : (Y (Min r) + y - Y (Min (aRect dst))) * s +
                 (X (Min r) + x - X (Min (aRect dst))) = Z.of_nat (k x y)).
    { unfold k, off. nia. }
    assert (Hj : (k x y < length (aPix dst))%nat) by (apply Hkin; (assumption || reflexivity)).
    exists (nth (k x y) (aPix dst) 0).
    rewrite !Hbyte by (reflexivity || assumption). cbn [aPix]. rewrite Ej.
    split.
    + apply index_of_nth_error; [lia|]. rewrite Nat2Z.id. apply nth_error_nth'. exact Hj.
    + apply index_of_nth_error; [lia|]. rewrite Nat2Z.id.
      rewrite (A x y (k x y)) by (fold dx; fold dy; (lia || reflexivity)).
      rewrite set_byte_nth by exact Hj. rewrite Nat.eqb_refl. reflexivity.
  - intros px py Pin Pout.
    unfold point_in in Pin, Pout. cbn [X Y] in Pin, Pout.
    repeat (apply andb_true_iff in Pin; destruct Pin as [Pin ?]).
    apply Z.leb_le in Pin.
    repeat match goal with
           | H : (_ <=? _) = true |- _ => apply Z.leb_le in H
           | H : (_ <? _) = true |- _ => apply Z.ltb_lt in H
           end.
    assert (Spx : small px) by (unfold small in *; lia).
    assert (Spy : small py) by (unfold small in *; lia).
    rewrite !Hbyte by (reflexivity || assumption). cbn [aPix].
    apply index_same; [exact L|].
    apply B0. intros x y Hx Hy E. fold dx in Hx. fold dy in Hy.
    assert (Hz : (py - Y (Min (aRect dst))) * s + (px - X (Min (aRect dst))) =
                 off + y * s + x).
    { unfold k in E. apply Z2Nat.inj; [nia | nia | exact E]. }
    assert (py - Y (Min (aRect dst)) = Y (Min r) - Y (Min (aRect dst)) + y /\
            px - X (Min (aRect dst)) = X (Min r) - X (Min (aRect dst)) + x) as [Ey Ex].
    { apply (row_major_inj s (X (Max (aRect dst)) - X (Min (aRect dst)))); unfold off in Hz; lia. }
    assert (T : (X (Min r) <=? px) && (px <? X (Max r)) &&
                (Y (Min r) <=? py) && (py <? Y (Max r)) = true).
    { repeat (apply andb_true_iff; split); try apply Z.leb_le; try apply Z.ltb_lt;
        unfold dx, dy in *; lia. }
    rewrite T in Pout. discriminate.
Qed.

(** ** The properties above at concrete inputs *)

Lemma DrawOp_other_than_Over_is_Src_witness :
  @Draw sampleKernels PixelMap _ (set_DrawOp 7 z_4x4) (DstOther blank) rect_inner white
      (mkPoint 0 0) =
    with_DrawOp 7 (@Draw sampleKernels PixelMap _ (set_DrawOp Src z_4x4) (DstOther blank)
                     rect_inner white (mkPoint 0 0)).
Proof.
  apply (@DrawOp_other_than_Over_is_Src sampleKernels PixelMap _ z_4x4 7).
  reflexivity.
Defined.

Lemma empty_rectangle_draws_nothing_witness :
  @rasterizeOpOver sampleKernels PixelMap _ z_4x4 blank rect_empty white (mkPoint 0 0) =
    (z1 <-- @accumulateMask sampleKernels z_4x4 ;; Ok (z1, blank)) /\
  @rasterizeOpSrc sampleKernels PixelMap _ z_4x4 blank rect_empty white (mkPoint 0 0) =
    (z1 <-- @accumulateMask sampleKernels z_4x4 ;; Ok (z1, blank)) /\
  @Draw sampleKernels PixelMap _ z_4x4 (DstOther blank) rect_empty white (mkPoint 0 0) =
    (z1 <-- @accumulateMask sampleKernels z_4x4 ;; Ok (z1, DstOther blank)) /\
  @Draw sampleKernels PixelMap _ z_4x4 (DstRGBA rgba_4x4) rect_empty
      (SrcUniform (mkColor 65535 65535 65535 65535)) (mkPoint 0 0) =
    (z1 <-- @accumulateMask sampleKernels z_4x4 ;;
     off <-- slice_from (pPix rgba_4x4)
               (RGBA_PixOffset rgba_4x4 (X (Min rect_empty)) (Y (Min rect_empty))) ;;
     Ok (z1, DstRGBA rgba_4x4)).
Proof.
  apply (@empty_rectangle_draws_nothing sampleKernels PixelMap _ z_4x4 blank rgba_4x4
           rect_empty white (mkColor 65535 65535 65535 65535) (mkPoint 0 0)).
  reflexivity.
Defined.

Lemma Draw_checks_flat_index_witness :
  (@Draw sampleKernels PixelMap _ z_4x4 (DstOther blank) rect_wide white (mkPoint 0 0) = Panic
   <-> 4 * 4 < (2 - 0 - 1) * 4 + (8 - 0)) /\
  @Draw sampleKernels PixelMap _ z_4x4 (DstOther blank) rect_wide white (mkPoint 0 0) <> Panic.
Proof.
  assert (H : @Draw sampleKernels PixelMap _ z_4x4 (DstOther blank) rect_wide white
                (mkPoint 0 0) = Panic
              <-> 4 * 4 < (2 - 0 - 1) * 4 + (8 - 0)).
  { apply (@Draw_checks_flat_index sampleKernels z_4x4 blank rect_wide white (mkPoint 0 0));
      unfold mask_ready, small_point, small, len; cbn; lia. }
  split; [exact H|]. intros E. apply H in E. lia.
Defined.

Lemma nonfinite_curve_is_one_LineTo_witness :
  (@QuadTo sampleKernels pt_nan pt_16_0 zeroRasterizer =
     @LineTo sampleKernels pt_16_0 zeroRasterizer /\
   calls_of (@QuadTo sampleKernels pt_nan pt_16_0 zeroRasterizer) = [pt_16_0]) /\
  (@CubeTo sampleKernels pt_nan pt_16_0 pt_16_0 zeroRasterizer =
     @LineTo sampleKernels pt_16_0 zeroRasterizer /\
   calls_of (@CubeTo sampleKernels pt_nan pt_16_0 pt_16_0 zeroRasterizer) = [pt_16_0]).
Proof.
  split.
  - apply (proj1 (@nonfinite_curve_is_one_LineTo sampleKernels) zeroRasterizer pt_nan pt_16_0).
    reflexivity.
  - apply (proj2 (@nonfinite_curve_is_one_LineTo sampleKernels) zeroRasterizer pt_nan
             pt_16_0 pt_16_0).
    reflexivity.
Defined.

Lemma clamp_negative_width_witness :
  (7 < 0 -> clamp 7 (-1) = 0) /\
  (0 <= 7 -> clamp 7 (-1) = 2 ^ 64 + -1) /\
  (0 <= 7 -> 7 < clamp 7 (-1)).
Proof.
  apply (clamp_negative_width 7 (-1)); unfold is_int32; lia.
Defined.

Lemma flattening_depends_on_pen_only_witness :
  calls_of (@QuadTo sampleKernels vec2_zero pt_16_0 zeroRasterizer) =
    calls_of (@QuadTo sampleKernels vec2_zero pt_16_0 z_4x4) /\
  calls_of (@CubeTo sampleKernels vec2_zero pt_16_0 pt_16_0 zeroRasterizer) =
    calls_of (@CubeTo sampleKernels vec2_zero pt_16_0 pt_16_0 z_4x4).
Proof.
  apply (@flattening_depends_on_pen_only sampleKernels sampleKernels zeroRasterizer z_4x4).
  reflexivity.
Defined.

Lemma fast_path_formulas_agree_witness :
  uniformOver8 200 30000 40000 32768 = narrow8 (overChannel (wide16 200) 40000 30000 32768) /\
  uniformSrc8 40000 32768 = narrow8 (srcChannel 40000 32768) /\
  (is_uint16 32768 ->
   to_uint8 (u32_shr (u32_add (u32_div (u32_mul (u32_mul 200 257) (u32_sub 65535 32768))
                                 65535) 32768) 8) =
     narrow8 (overChannel (wide16 200) 65535 (overAlpha 65535 32768) 32768) /\
   to_uint8 (u32_shr 32768 8) = narrow8 (srcChannel 65535 32768)).
Proof.
  apply (fast_path_formulas_agree 200 40000 30000 32768). lia.
Defined.


Lemma staged_OpSrc_pixels_witness :
  exists z1 dst',
    @accumulateMask sampleKernels z_4x4 = Ok z1 /\
    @rasterizeDstAlphaSrcOpaqueOpSrc sampleKernels z_4x4 alpha_4x4 rect_inner = Ok (z1, dst') /\
    aStride dst' = aStride alpha_4x4 /\ aRect dst' = aRect alpha_4x4 /\
    (forall x y, 0 <= x < 3 - 1 -> 0 <= y < 3 - 1 ->
       Alpha_byte dst' (1 + x) (1 + y) = Ok (to_uint8 (u32_shr (mask_value z1 x y) 8))) /\
    (forall px py, point_in (mkPoint px py) (aRect alpha_4x4) = true ->
       point_in (mkPoint px py) rect_inner = false ->
       Alpha_byte dst' px py = Alpha_byte alpha_4x4 px py).
Proof.
  apply (@staged_OpSrc_pixels sampleKernels z_4x4 alpha_4x4 rect_inner);
    try reflexivity;
    unfold mask_ready, Alpha_wf, rect_inside, small_point, small, len; cbn; lia.
Defined.

Lemma RGBA_fast_path_pixels_witness :
  exists z1 over src',
    @accumulateMask sampleKernels z_4x4 = Ok z1 /\
    @rasterizeDstRGBASrcUniformOpOver sampleKernels z_4x4 rgba_4x4 rect_inner
      65535 32768 0 65535 = Ok (z1, over) /\
    @rasterizeDstRGBASrcUniformOpSrc sampleKernels z_4x4 rgba_4x4 rect_inner
      65535 32768 0 65535 = Ok (z1, src') /\
    pStride over = pStride rgba_4x4 /\ pRect over = pRect rgba_4x4 /\
    pStride src' = pStride rgba_4x4 /\ pRect src' = pRect rgba_4x4 /\
    (forall x y c, 0 <= x < 3 - 1 -> 0 <= y < 3 - 1 -> (c < 4)%nat ->
       let ma := mask_value z1 x y in
       exists old,
         RGBA_byte rgba_4x4 (1 + x) (1 + y) c = Ok old /\
         RGBA_byte over (1 + x) (1 + y) c =
           Ok (uniformOver8 old (overAlpha 65535 ma) (channel 65535 32768 0 65535 c) ma) /\
         RGBA_byte src' (1 + x) (1 + y) c =
           Ok (uniformSrc8 (channel 65535 32768 0 65535 c) ma)) /\
    (forall px py c, point_in (mkPoint px py) (pRect rgba_4x4) = true ->
       point_in (mkPoint px py) rect_inner = false -> (c < 4)%nat ->
       RGBA_byte over px py c = RGBA_byte rgba_4x4 px py c /\
       RGBA_byte src' px py c = RGBA_byte rgba_4x4 px py c).
Proof.
  apply (@RGBA_fast_path_pixels sampleKernels z_4x4 rgba_4x4 rect_inner 65535 32768 0 65535);
    unfold mask_ready, RGBA_wf, rect_inside, small_point, small, len; cbn; lia.
Defined.

Lemma staged_OpOver_pixels_witness :
  exists z1 dst',
    @accumulateMask sampleKernels z_4x4 = Ok z1 /\
    @rasterizeDstAlphaSrcOpaqueOpOver sampleKernels z_4x4 alpha_4x4 rect_inner = Ok (z1, dst') /\
    aStride dst' = aStride alpha_4x4 /\ aRect dst' = aRect alpha_4x4 /\
    (forall x y, 0 <= x < 3 - 1 -> 0 <= y < 3 - 1 ->
       exists old,
         Alpha_byte alpha_4x4 (1 + x) (1 + y) = Ok old /\
         Alpha_byte dst' (1 + x) (1 + y) = Ok (opaqueOver8 old (mask_value z1 x y))) /\
    (forall px py, point_in (mkPoint px py) (aRect alpha_4x4) = true ->
       point_in (mkPoint px py) rect_inner = false ->
       Alpha_byte dst' px py = Alpha_byte alpha_4x4 px py).
Proof.
  apply (@staged_OpOver_pixels sampleKernels z_4x4 alpha_4x4 rect_inner);
    try reflexivity;
    unfold mask_ready, Alpha_wf, rect_inside, small_point, small, len; cbn; lia.
Defined.
